(** * Suspendable keyed caches and recovery boundaries of the React 19 e-book samples

    Shallow embedding of
    - [src/ebook/code-samples/advanced/15-suspense-demo/src/App.tsx]
      ([getCachedPromise], [ErrorBoundary], [App]),
    - [src/ebook/code-samples/advanced/11-use-api/src/App.tsx]
      ([ErrorBoundaryClass], the boundary composition of [App]),
    - [src/utils/promiseCache.ts] of chapter 11 ([cachedFetch], [invalidateCache]),
    - [src/lib/suspense.ts] of chapter 15 ([wrapPromise], [invalidateCache]).

    JavaScript objects that are shared by reference (promises, the resource
    records of [wrapPromise]) live in explicit heaps and are named by their
    index; the module-level [Map]s are [gmap]s from keys to such indices. *)

From stdpp Require Import gmap strings list fin_maps.

(** ** JavaScript values shared by all samples *)

(** A resolved payload ([Stats], [Task[]], [User], ...). *)
Definition Value := nat.

(** An [Error] object, identified by its message. *)
Definition JsError := string.

(** A promise is a heap index. *)
Abbreviation PromiseId := nat (only parsing).

Inductive PromiseState :=
| Pending
| Fulfilled (v : Value)
| Rejected (e : JsError).

#[global] Instance PromiseState_eq_dec : EqDecision PromiseState.
Proof. solve_decision. Defined.

(** Completion of a synchronous call: a normal return or a thrown error. *)
Inductive Completion (A : Type) :=
| Normal (a : A)
| Throw (e : JsError).
Arguments Normal {A} a.
Arguments Throw {A} e.

(** A producer [() => Promise<T>].  Calling it either returns a new promise,
    born in state [s] ([Pending] for the samples' [async] functions, which
    await a timer first), or throws synchronously. *)
Inductive Fetcher :=
| Returns (s : PromiseState)
| Throws (e : JsError).

(** [interface ErrorBoundaryState { hasError: boolean; error: Error | null }],
    declared with the same shape by both samples.  [None] is [null]. *)
Record ErrorBoundaryState := mkEBState {
  hasError : bool;
  error : option JsError
}.

#[global] Instance ErrorBoundaryState_eq_dec : EqDecision ErrorBoundaryState.
Proof. solve_decision. Defined.

(** How a promise settles. *)
Inductive Settlement :=
| FulfilWith (v : Value)
| RejectWith (e : JsError).

Definition settledState (o : Settlement) : PromiseState :=
  match o with
  | FulfilWith v => Fulfilled v
  | RejectWith e => Rejected e
  end.

(** ** The host rendering model

    React itself is an external collaborator of the samples.  The samples rely
    on three of its services: the blocking read [use], the routing of a thrown
    signal to the nearest boundary that handles it, and the re-creation of a
    subtree whose [key] changed.  The book sketches [use] and [Suspense] in the
    code analysis of chapter 15; those sketches are embedded here.  What an
    error boundary is handed is not written anywhere in the repository and is
    taken from the specification. *)
Module Host.

(** What a component can throw while it renders: the pending promise
    (the specification's NotReady) or the error of a failed operation
    (OperationFailed). *)
Inductive Signal :=
| NotReady (p : PromiseId)
| OperationFailed (e : JsError).

Inductive ReadResult :=
| Ready (v : Value)
| Raise (s : Signal).

(** The book's sketch of [use]:
    [if (promise.status === 'fulfilled') return promise.value;
     if (promise.status === 'rejected') throw promise.reason;
     throw promise]. *)
Definition use (promises : list PromiseState) (p : PromiseId) : ReadResult :=
  match promises !! p with
  | Some (Fulfilled v) => Ready v
  | Some (Rejected e) => Raise (OperationFailed e)
  | Some Pending | None => Raise (NotReady p)
  end.

(** A boundary on the path from a reading component to the root. *)
Inductive Boundary :=
| Suspension (waitingFor : option PromiseId)
| Recovery (st : ErrorBoundaryState).

Definition isSuspension (b : Boundary) : bool :=
  match b with Suspension _ => true | Recovery _ => false end.

Definition isRecovery (b : Boundary) : bool :=
  match b with Suspension _ => false | Recovery _ => true end.

(** The book's sketch of [Suspense]:
    [catch (promise) {
       if (promise instanceof Promise) { promise.then(() => forceUpdate()); return fallback; }
       throw promise;
     }]
    A thrown promise is caught and waited for; anything else is thrown on. *)
Definition suspenseCatch (sig : Signal) : option PromiseId :=
  match sig with
  | NotReady p => Some p
  | OperationFailed _ => None
  end.

(** Modelled from the spec: the part of React that hands a thrown value to an
    error boundary is not in the repository.  Section 4.4: a Recovery Boundary
    intercepts a failure signal, and only a failure signal, never a pending
    one.  (Chapter 11 says the same of [use]: the thrown promise is for
    [Suspense] to catch, the thrown error for the [ErrorBoundary].) *)
Definition recoveryCatch (sig : Signal) : option JsError :=
  match sig with
  | NotReady _ => None
  | OperationFailed e => Some e
  end.

(** Whether boundary [b] handles signal [sig]. *)
Definition matches (sig : Signal) (b : Boundary) : bool :=
  match b with
  | Suspension _ => bool_decide (is_Some (suspenseCatch sig))
  | Recovery _ => bool_decide (is_Some (recoveryCatch sig))
  end.

Section Propagation.

(** The class's static [getDerivedStateFromError]. *)
Variable getDerivedStateFromError : option JsError -> ErrorBoundaryState.

(** Modelled from the spec: React's search for a boundary is not in the
    repository.  Sections 4.3 and 7: a signal goes to the nearest enclosing
    boundary that handles it.  The path is listed innermost boundary first;
    the result is the position of the boundary that intercepts. *)
Fixpoint interceptor (sig : Signal) (enclosing : list Boundary) : option nat :=
  match enclosing with
  | [] => None
  | b :: outer =>
      if matches sig b then Some 0
      else S <$> interceptor sig outer
  end.

(** The effect of a signal on the path, under the same search.  A Suspension
    Boundary that catches starts waiting for the promise; a Recovery Boundary
    that is handed an error takes the state its [getDerivedStateFromError]
    derives.  A boundary that does not handle the signal lets it pass. *)
Fixpoint propagate (sig : Signal) (enclosing : list Boundary) : list Boundary :=
  match enclosing with
  | [] => []
  | Suspension w :: outer =>
      match suspenseCatch sig with
      | Some p => Suspension (Some p) :: outer
      | None => Suspension w :: propagate sig outer
      end
  | Recovery st :: outer =>
      match recoveryCatch sig with
      | Some e => Recovery (getDerivedStateFromError (Some e)) :: outer
      | None => Recovery st :: propagate sig outer
      end
  end.

End Propagation.

End Host.

(** ** 15-suspense-demo/src/App.tsx *)
Module SuspenseDemo.

(** [const cache = new Map<string, Promise<any>>()] together with the promise
    heap and a counter of producer invocations. *)
Record World := mkWorld {
  cache : gmap string PromiseId;
  promises : list PromiseState;
  fetcherCalls : nat
}.

Definition setCache (c : gmap string PromiseId) (w : World) : World :=
  {| cache := c; promises := promises w; fetcherCalls := fetcherCalls w |}.

(** [fetcher()] *)
Definition callFetcher (fetcher : Fetcher) (w : World) : Completion PromiseId * World :=
  match fetcher with
  | Returns s =>
      (Normal (length (promises w)),
       {| cache := cache w;
          promises := promises w ++ [s];
          fetcherCalls := S (fetcherCalls w) |})
  | Throws e =>
      (Throw e,
       {| cache := cache w;
          promises := promises w;
          fetcherCalls := S (fetcherCalls w) |})
  end.

(** [function getCachedPromise<T>(key, fetcher)]:
    [if (!cache.has(key)) cache.set(key, fetcher()); return cache.get(key)!] *)
Definition getCachedPromise (key : string) (fetcher : Fetcher) (w : World)
  : Completion PromiseId * World :=
  match cache w !! key with
  | Some p => (Normal p, w)
  | None =>
      match callFetcher fetcher w with
      | (Normal p, w1) => (Normal p, setCache (<[key := p]> (cache w1)) w1)
      | (Throw e, w1) => (Throw e, w1)
      end
  end.

(** [cache.delete(key)] and [cache.clear()] *)
Definition cacheDelete (key : string) (w : World) : World :=
  setCache (delete key (cache w)) w.

Definition cacheClear (w : World) : World :=
  setCache ∅ w.

(** The outside world settles a pending promise (timer or network).  A promise
    settles at most once.  No continuation is attached to the cached promises
    of this sample, so nothing else happens. *)
Definition settle (p : PromiseId) (o : Settlement) (w : World) : World :=
  match promises w !! p with
  | Some Pending =>
      {| cache := cache w;
         promises := <[p := settledState o]> (promises w);
         fetcherCalls := fetcherCalls w |}
  | _ => w
  end.

(** The blocking read of the components:
    [use(getCachedPromise(key, fetcher))].  An exception thrown while the
    argument is evaluated is a failure raised during rendering. *)
Definition read (key : string) (fetcher : Fetcher) (w : World)
  : Host.ReadResult * World :=
  match getCachedPromise key fetcher w with
  | (Normal p, w1) => (Host.use (promises w1) p, w1)
  | (Throw e, w1) => (Host.Raise (Host.OperationFailed e), w1)
  end.

(** What can happen to the cache between two renders. *)
Inductive Event :=
| ERead (key : string) (fetcher : Fetcher)
| ESettle (p : PromiseId) (o : Settlement)
| EDelete (key : string)
| EClear.

Definition step (ev : Event) (w : World) : World :=
  match ev with
  | ERead key fetcher => snd (read key fetcher w)
  | ESettle p o => settle p o w
  | EDelete key => cacheDelete key w
  | EClear => cacheClear w
  end.

Definition run (evs : list Event) (w : World) : World :=
  foldl (fun w ev => step ev w) w evs.

(** An event that does not invalidate [key]. *)
Definition keeps (key : string) (ev : Event) : Prop :=
  match ev with
  | EDelete k => k ≠ key
  | EClear => False
  | _ => True
  end.

(** *** The application state *)

(** [resetKey] is the [useState(0)] of [App]; [mountedKey] is the [key] the
    [<main>] element was last mounted with; [boundaries] holds the state of the
    mounted [ErrorBoundary] of each section, named by the section's cache key. *)
Record App := mkApp {
  world : World;
  resetKey : nat;
  mountedKey : nat;
  boundaries : gmap string ErrorBoundaryState
}.

Definition setWorld (w : World) (app : App) : App :=
  {| world := w; resetKey := resetKey app; mountedKey := mountedKey app;
     boundaries := boundaries app |}.

(** [interface ErrorBoundaryProps].  [fallback] names the custom fallback
    component when one is supplied; [onReset] is the optional callback. *)
Record ErrorBoundaryProps := mkProps {
  fallback : option string;
  onReset : option (App -> App)
}.

(** What [render()] returns. *)
Inductive BoundaryView :=
| FallbackView (custom : option string) (e : JsError) (* [fallback(error, reset)] or the built-in view *)
| ChildrenView.

(** [this.state = { hasError: false, error: null }] *)
Definition initialState : ErrorBoundaryState :=
  {| hasError := false; error := None |}.

(** [static getDerivedStateFromError(error) { return { hasError: true, error } }].
    The parameter is declared [Error], but what arrives is whatever was thrown.
    The state field that stores it is [Error | null]: [Some e] is an error
    object and [None] a thrown value that is none ([null], [undefined]), which
    [render] only tests for truthiness. *)
Definition getDerivedStateFromError (err : option JsError) : ErrorBoundaryState :=
  {| hasError := true; error := err |}.

(** [this.setState(st)] of the boundary of section [self]. *)
Definition setState (self : string) (st : ErrorBoundaryState) (app : App) : App :=
  {| world := world app; resetKey := resetKey app; mountedKey := mountedKey app;
     boundaries := <[self := st]> (boundaries app) |}.

(** [reset = () => { this.setState({ hasError: false, error: null });
                      this.props.onReset?.(); }] *)
Definition reset (self : string) (props : ErrorBoundaryProps) (app : App) : App :=
  let app1 := setState self {| hasError := false; error := None |} app in
  match onReset props with
  | Some handler => handler app1
  | None => app1
  end.

(** [render()]: [if (this.state.hasError && this.state.error)] the fallback,
    otherwise [this.props.children]. *)
Definition render (props : ErrorBoundaryProps) (st : ErrorBoundaryState) : BoundaryView :=
  if hasError st then
    match error st with
    | Some e => FallbackView (fallback props) e
    | None => ChildrenView
    end
  else ChildrenView.

(** [handleGlobalReset]: [cache.clear(); setResetKey(k => k + 1)] *)
Definition handleGlobalReset (app : App) : App :=
  {| world := cacheClear (world app); resetKey := S (resetKey app);
     mountedKey := mountedKey app; boundaries := boundaries app |}.

(** [handleSectionReset(section)]: [cache.delete(section); setResetKey(k => k + 1)] *)
Definition handleSectionReset (section : string) (app : App) : App :=
  {| world := cacheDelete section (world app); resetKey := S (resetKey app);
     mountedKey := mountedKey app; boundaries := boundaries app |}.

(** One section of the dashboard:
    [<ErrorBoundary fallback? onReset><Suspense><Component/></Suspense></ErrorBoundary>]
    where the component reads [use(getCachedPromise(key, fetcher))]. *)
Record DashboardSection := mkSection {
  sectionKey : string;
  fetcher : Fetcher;
  props : ErrorBoundaryProps
}.

(** The [api.fetch*] functions are [async] and await a timer first: every call
    returns a new pending promise. *)
Definition api_fetch : Fetcher := Returns Pending.

(** The three sections of [App] (lines 336-372). *)
Definition dashboard : list DashboardSection :=
  [ mkSection "stats" api_fetch
      (mkProps None (Some (handleSectionReset "stats")));
    mkSection "tasks" api_fetch
      (mkProps (Some "CustomErrorFallback") (Some (handleSectionReset "tasks")));
    mkSection "activities" api_fetch
      (mkProps (Some "CustomErrorFallback") (Some (handleSectionReset "activities"))) ].

(** The path above the component of a dashboard section, innermost first:
    [<ErrorBoundary ...><Suspense fallback=...><Component/>]. *)
Definition sectionPath (st : ErrorBoundaryState) : list Host.Boundary :=
  [Host.Suspension None; Host.Recovery st].

(** *** Rendering a section under the host model *)

Inductive Rendered :=
| FallbackShown (custom : option string) (e : JsError)
| PlaceholderShown
| ContentShown (v : Value).

Definition boundaryState (self : string) (app : App) : ErrorBoundaryState :=
  default initialState (boundaries app !! self).

(** The host delivers a failure to the boundary of section [self]: the state
    becomes what [getDerivedStateFromError] derives ([componentDidCatch] only
    logs to the console). *)
Definition capture (self : string) (e : JsError) (app : App) : App :=
  setState self (getDerivedStateFromError (Some e)) app.

Definition shown (v : BoundaryView) : Rendered :=
  match v with
  | FallbackView c e => FallbackShown c e
  | ChildrenView => PlaceholderShown
  end.

(** One render of a section.  A boundary that holds an error renders its
    fallback and not its children.  Otherwise the component reads; a signal it
    raises travels the path [Suspense; ErrorBoundary] (innermost first). *)
Definition renderSection (sec : DashboardSection) (app : App) : Rendered * App :=
  let st := boundaryState (sectionKey sec) app in
  match render (props sec) st with
  | FallbackView c e => (FallbackShown c e, app)
  | ChildrenView =>
      let '(r, w1) := read (sectionKey sec) (fetcher sec) (world app) in
      let app1 := setWorld w1 app in
      match r with
      | Host.Ready v => (ContentShown v, app1)
      | Host.Raise sig =>
          match Host.propagate getDerivedStateFromError sig (sectionPath st) with
          | [Host.Suspension None; Host.Recovery st'] =>
              (shown (render (props sec) st'),
               setState (sectionKey sec) st' app1)
          | _ => (PlaceholderShown, app1)
          end
      end
  end.

Definition renderAll (secs : list DashboardSection) (app : App) : App :=
  foldl (fun app sec => snd (renderSection sec app)) app secs.

(** The host re-creates a subtree whose [key] changed: when [resetKey] differs
    from the key [<main key={resetKey}>] was mounted with, every boundary below
    it is constructed anew. *)
Definition remount (app : App) : App :=
  if decide (resetKey app = mountedKey app) then app
  else {| world := world app; resetKey := resetKey app;
          mountedKey := resetKey app;
          boundaries := (fun _ => initialState) <$> boundaries app |}.

(** The render pass that follows a state update. *)
Definition rerender (secs : list DashboardSection) (app : App) : App :=
  renderAll secs (remount app).

(** The state a boundary reaches by rendering over an operation in state [ps]. *)
Definition stateFor (ps : PromiseState) : ErrorBoundaryState :=
  match ps with
  | Rejected e => getDerivedStateFromError (Some e)
  | _ => initialState
  end.

(** Section [self] has been rendered from its cached operation. *)
Definition renderedFrom (self : string) (p : PromiseId) (ps : PromiseState) (app : App) : Prop :=
  cache (world app) !! self = Some p ∧
  promises (world app) !! p = Some ps ∧
  boundaries app !! self = Some (stateFor ps).

End SuspenseDemo.

(** ** 11-use-api/src/App.tsx *)
Module UseApi.

(** [this.state = { hasError: false, error: null }] *)
Definition initialState : ErrorBoundaryState :=
  {| hasError := false; error := None |}.

(** [static getDerivedStateFromError(error) { return { hasError: true, error } }] *)
Definition getDerivedStateFromError (err : option JsError) : ErrorBoundaryState :=
  {| hasError := true; error := err |}.

Inductive BoundaryView :=
| ErrorFallback (e : JsError)
| ChildrenView.

(** [render()] of [ErrorBoundaryClass]:
    [if (this.state.hasError && this.state.error) return <ErrorFallback .../>;
     return this.props.children]. *)
Definition render (st : ErrorBoundaryState) : BoundaryView :=
  if hasError st then
    match error st with
    | Some e => ErrorFallback e
    | None => ChildrenView
    end
  else ChildrenView.

(** The path above [UserProfile] in [App] (lines 229-233), innermost first:
    [<Suspense key={key}><ErrorBoundary onReset={handleReset}><UserProfile/>]. *)
Definition userProfilePath (st : ErrorBoundaryState) : list Host.Boundary :=
  [Host.Recovery st; Host.Suspension None].

End UseApi.

(** ** src/utils/promiseCache.ts (chapter 11) *)
Module PromiseCache.

(** [const cache = new Map<string, Promise<any>>()], the promise heap, the
    [catch] continuations attached to pending promises, the queue of
    continuations that are ready to run, and a counter of producer calls. *)
Record World := mkWorld {
  cache : gmap string PromiseId;
  promises : list PromiseState;
  catchHandlers : list (PromiseId * string);
  microtasks : list string;
  fetcherCalls : nat
}.

Definition setCache (c : gmap string PromiseId) (w : World) : World :=
  {| cache := c; promises := promises w; catchHandlers := catchHandlers w;
     microtasks := microtasks w; fetcherCalls := fetcherCalls w |}.

(** [fetcher()] *)
Definition callFetcher (fetcher : Fetcher) (w : World) : Completion PromiseId * World :=
  match fetcher with
  | Returns s =>
      (Normal (length (promises w)),
       {| cache := cache w; promises := promises w ++ [s];
          catchHandlers := catchHandlers w; microtasks := microtasks w;
          fetcherCalls := S (fetcherCalls w) |})
  | Throws e =>
      (Throw e,
       {| cache := cache w; promises := promises w;
          catchHandlers := catchHandlers w; microtasks := microtasks w;
          fetcherCalls := S (fetcherCalls w) |})
  end.

(** [promise.catch(() => { cache.delete(key) })]: the continuation waits while
    the promise is pending, is queued at once when the promise is already
    rejected, and never runs when it is fulfilled. *)
Definition promiseCatch (p : PromiseId) (key : string) (w : World) : World :=
  match promises w !! p with
  | Some Pending =>
      {| cache := cache w; promises := promises w;
         catchHandlers := catchHandlers w ++ [(p, key)];
         microtasks := microtasks w; fetcherCalls := fetcherCalls w |}
  | Some (Rejected _) =>
      {| cache := cache w; promises := promises w;
         catchHandlers := catchHandlers w;
         microtasks := microtasks w ++ [key]; fetcherCalls := fetcherCalls w |}
  | Some (Fulfilled _) | None => w
  end.

(** [export function cachedFetch<T>(key, fetcher)] *)
Definition cachedFetch (key : string) (fetcher : Fetcher) (w : World)
  : Completion PromiseId * World :=
  match cache w !! key with
  | Some p => (Normal p, w)
  | None =>
      match callFetcher fetcher w with
      | (Normal p, w1) =>
          (Normal p, promiseCatch p key (setCache (<[key := p]> (cache w1)) w1))
      | (Throw e, w1) => (Throw e, w1)
      end
  end.

(** [invalidateCache(key)] and [clearCache()] *)
Definition invalidateCache (key : string) (w : World) : World :=
  setCache (delete key (cache w)) w.

Definition clearCache (w : World) : World :=
  setCache ∅ w.

Definition handlersOf (p : PromiseId) (hs : list (PromiseId * string)) : list string :=
  snd <$> filter (fun h => fst h = p) hs.

(** The outside world settles a pending promise.  On rejection its [catch]
    continuations are queued in the order they were attached. *)
Definition settle (p : PromiseId) (o : Settlement) (w : World) : World :=
  match promises w !! p with
  | Some Pending =>
      {| cache := cache w;
         promises := <[p := settledState o]> (promises w);
         catchHandlers := filter (fun h => fst h ≠ p) (catchHandlers w);
         microtasks :=
           microtasks w ++
           match o with
           | RejectWith _ => handlersOf p (catchHandlers w)
           | FulfilWith _ => []
           end;
         fetcherCalls := fetcherCalls w |}
  | _ => w
  end.

(** The queued continuations run, each doing [cache.delete(key)]. *)
Definition runMicrotasks (w : World) : World :=
  {| cache := foldl (fun c key => delete key c) (cache w) (microtasks w);
     promises := promises w; catchHandlers := catchHandlers w;
     microtasks := []; fetcherCalls := fetcherCalls w |}.

End PromiseCache.

(** ** src/lib/suspense.ts (chapter 15) *)
Module SuspenseLib.

(** [status: 'pending' | 'fulfilled' | 'rejected'] *)
Inductive Status := pending | fulfilled | rejected.

#[global] Instance Status_eq_dec : EqDecision Status.
Proof. solve_decision. Defined.

(** [type SuspenseCache<T> = { status; value?: T; error?: Error; promise?: Promise<T> }] *)
Record SuspenseCache := mkResource {
  status : Status;
  value : option Value;
  error : option JsError;
  promise : option PromiseId
}.

(** A resource record is a heap index. *)
Abbreviation ResourceId := nat (only parsing).

(** The continuation pair that [wrapPromise] passes to [promise.then]: it
    closes over [resource] and [cacheKey]. *)
Record Reaction := mkReaction {
  target : ResourceId;
  reactionKey : option string
}.

(** [const cache = new Map<string, SuspenseCache<any>>()] maps a key to a
    resource object; [resources] is the heap of those objects, so that a
    closure and the cache can hold the same one. *)
Record World := mkWorld {
  cache : gmap string ResourceId;
  resources : list SuspenseCache;
  promises : list PromiseState;
  reactions : list (PromiseId * Reaction);
  microtasks : list (Reaction * Settlement)
}.

(** What a [throw] statement of this module can throw. *)
Inductive Thrown :=
| ThrownError (e : JsError)
| ThrownPromise (p : PromiseId)
| ThrownUndefined.

Inductive Outcome (A : Type) :=
| Return (a : A)
| Raise (t : Thrown).
Arguments Return {A} a.
Arguments Raise {A} t.

(** The two closures [wrapPromise] returns. *)
Inductive Reader :=
| CachedValueReader (r : ResourceId)  (* [() => cached.value!] *)
| ResourceReader (r : ResourceId).    (* the three-way closure over [resource] *)

(** [if (cacheKey ...)]: an absent key and the empty string are falsy. *)
Definition truthyKey (cacheKey : option string) : option string :=
  match cacheKey with
  | Some k => if decide (k = "") then None else Some k
  | None => None
  end.

Definition throwError (res : SuspenseCache) : Thrown :=
  match error res with
  | Some e => ThrownError e
  | None => ThrownUndefined
  end.

Definition throwPromise (res : SuspenseCache) : Thrown :=
  match promise res with
  | Some p => ThrownPromise p
  | None => ThrownUndefined
  end.

(** The body of the closure returned on a cache miss (lines 3791-3800). *)
Definition readResource (res : SuspenseCache) : Outcome (option Value) :=
  match status res with
  | fulfilled => Return (value res)
  | rejected => Raise (throwError res)
  | pending => Raise (throwPromise res)
  end.

(** Calling a reader. *)
Definition callReader (rd : Reader) (w : World) : Outcome (option Value) :=
  match rd with
  | CachedValueReader r =>
      match resources w !! r with
      | Some res => Return (value res)
      | None => Raise ThrownUndefined
      end
  | ResourceReader r =>
      match resources w !! r with
      | Some res => readResource res
      | None => Raise ThrownUndefined
      end
  end.

(** [promise.then(onFulfilled, onRejected)]: the pair waits while the promise
    is pending and is queued at once when the promise has already settled. *)
Definition promiseThen (p : PromiseId) (rx : Reaction) (w : World) : World :=
  match promises w !! p with
  | Some Pending =>
      {| cache := cache w; resources := resources w; promises := promises w;
         reactions := reactions w ++ [(p, rx)]; microtasks := microtasks w |}
  | Some (Fulfilled v) =>
      {| cache := cache w; resources := resources w; promises := promises w;
         reactions := reactions w;
         microtasks := microtasks w ++ [(rx, FulfilWith v)] |}
  | Some (Rejected e) =>
      {| cache := cache w; resources := resources w; promises := promises w;
         reactions := reactions w;
         microtasks := microtasks w ++ [(rx, RejectWith e)] |}
  | None => w
  end.

(** [export function wrapPromise<T>(promise, cacheKey?)] *)
Definition wrapPromise (promise : PromiseId) (cacheKey : option string) (w : World)
  : Outcome Reader * World :=
  match truthyKey cacheKey ≫= (fun k => cache w !! k) with
  | Some r =>
      match resources w !! r with
      | Some cached =>
          match status cached with
          | fulfilled => (Return (CachedValueReader r), w)
          | rejected => (Raise (throwError cached), w)
          | pending => (Raise (throwPromise cached), w)
          end
      | None => (Raise ThrownUndefined, w)
      end
  | None =>
      let r := length (resources w) in
      let resource :=
        {| status := pending; value := None; error := None;
           promise := Some promise |} in
      let w1 :=
        {| cache := cache w; resources := resources w ++ [resource];
           promises := promises w; reactions := reactions w;
           microtasks := microtasks w |} in
      (Return (ResourceReader r),
       promiseThen promise (mkReaction r cacheKey) w1)
  end.

(** The settlement continuation of a resource:
    [resource.status = ...; resource.value = value] (or [resource.error = error]);
    [if (cacheKey) cache.set(cacheKey, resource)]. *)
Definition settleResource (o : Settlement) (res : SuspenseCache) : SuspenseCache :=
  match o with
  | FulfilWith v =>
      {| status := fulfilled; value := Some v; error := error res;
         promise := promise res |}
  | RejectWith e =>
      {| status := rejected; value := value res; error := Some e;
         promise := promise res |}
  end.

Definition runReaction (job : Reaction * Settlement) (w : World) : World :=
  let '(rx, o) := job in
  {| cache :=
       match truthyKey (reactionKey rx) with
       | Some k => <[k := target rx]> (cache w)
       | None => cache w
       end;
     resources := alter (settleResource o) (target rx) (resources w);
     promises := promises w; reactions := reactions w;
     microtasks := microtasks w |}.

(** [invalidateCache(key)] and [invalidateAllCache()] *)
Definition invalidateCache (key : string) (w : World) : World :=
  {| cache := delete key (cache w); resources := resources w;
     promises := promises w; reactions := reactions w;
     microtasks := microtasks w |}.

Definition invalidateAllCache (w : World) : World :=
  {| cache := ∅; resources := resources w; promises := promises w;
     reactions := reactions w; microtasks := microtasks w |}.

(** A caller creates a promise ([new Promise], a [fetch], an [async] call). *)
Definition newPromise (s : PromiseState) (w : World) : PromiseId * World :=
  (length (promises w),
   {| cache := cache w; resources := resources w;
      promises := promises w ++ [s]; reactions := reactions w;
      microtasks := microtasks w |}).

Definition reactionsOf (p : PromiseId) (rs : list (PromiseId * Reaction)) : list Reaction :=
  snd <$> filter (fun r => fst r = p) rs.

(** The outside world settles a pending promise: its continuations are queued
    in the order they were attached. *)
Definition settle (p : PromiseId) (o : Settlement) (w : World) : World :=
  match promises w !! p with
  | Some Pending =>
      {| cache := cache w; resources := resources w;
         promises := <[p := settledState o]> (promises w);
         reactions := filter (fun r => fst r ≠ p) (reactions w);
         microtasks :=
           microtasks w ++ ((fun rx => (rx, o)) <$> reactionsOf p (reactions w)) |}
  | _ => w
  end.

(** The queued continuations run in order. *)
Definition runJobs (jobs : list (Reaction * Settlement)) (w : World) : World :=
  foldl (fun w job => runReaction job w) w jobs.

Definition runMicrotasks (w : World) : World :=
  runJobs (microtasks w)
    {| cache := cache w; resources := resources w; promises := promises w;
       reactions := reactions w; microtasks := [] |}.

(** A promise settles and the continuations it releases run. *)
Definition settlement (p : PromiseId) (o : Settlement) (w : World) : World :=
  runMicrotasks (settle p o w).

Definition emptyWorld : World :=
  {| cache := ∅; resources := []; promises := []; reactions := []; microtasks := [] |}.

(** One read as a component performs it: [wrapPromise(promise, cacheKey)()]. *)
Definition readThrough (promise : PromiseId) (cacheKey : option string) (w : World)
  : Outcome (option Value) * World :=
  match wrapPromise promise cacheKey w with
  | (Return rd, w1) => (callReader rd w1, w1)
  | (Raise t, w1) => (Raise t, w1)
  end.

(** Successive renders of a component, each passing the promise it made. *)
Fixpoint renders (ps : list PromiseId) (cacheKey : option string) (w : World)
  : list (Outcome (option Value)) * World :=
  match ps with
  | [] => ([], w)
  | promise :: rest =>
      let '(o, w1) := readThrough promise cacheKey w in
      let '(os, w2) := renders rest cacheKey w1 in
      (o :: os, w2)
  end.

(** Everything that can happen to the module's state. *)
Inductive Event :=
| ENewPromise (s : PromiseState)
| EWrap (promise : PromiseId) (cacheKey : option string)
| ESettle (p : PromiseId) (o : Settlement)
| ERunMicrotasks
| EInvalidate (key : string)
| EInvalidateAll.

Definition step (ev : Event) (w : World) : World :=
  match ev with
  | ENewPromise s => snd (newPromise s w)
  | EWrap promise cacheKey => snd (wrapPromise promise cacheKey w)
  | ESettle p o => settle p o w
  | ERunMicrotasks => runMicrotasks w
  | EInvalidate key => invalidateCache key w
  | EInvalidateAll => invalidateAllCache w
  end.

Definition run (evs : list Event) (w : World) : World :=
  foldl (fun w ev => step ev w) w evs.

(** A resource holds the field its status announces. *)
Definition wellFormed (res : SuspenseCache) : Prop :=
  match status res with
  | fulfilled => is_Some (value res)
  | rejected => is_Some (error res)
  | pending => is_Some (promise res)
  end.

(** The invariant of the module's state: resources are well formed, every
    continuation refers to an existing resource, and a resource that the cache
    holds has settled. *)
Definition consistent (w : World) : Prop :=
  Forall wellFormed (resources w) ∧
  Forall (fun pr => target (snd pr) < length (resources w)) (reactions w) ∧
  Forall (fun job => target (fst job) < length (resources w)) (microtasks w) ∧
  (∀ k r, cache w !! k = Some r ->
     ∃ res, resources w !! r = Some res ∧ status res ≠ pending).

(** An event that does not invalidate [key]. *)
Definition keeps (key : string) (ev : Event) : Prop :=
  match ev with
  | EInvalidate k => k ≠ key
  | EInvalidateAll => False
  | _ => True
  end.

(** A continuation that neither stores under key [k] nor writes to resource [r]. *)
Definition detached (k : string) (r : ResourceId) (rx : Reaction) : Prop :=
  truthyKey (reactionKey rx) ≠ Some k ∧ target rx ≠ r.

(** No other operation of key [k] is in flight: every waiting and every queued
    continuation is detached from [k] and from its resource [r]. *)
Definition quiet (k : string) (r : ResourceId) (w : World) : Prop :=
  Forall (fun pr => detached k r (snd pr)) (reactions w) ∧
  Forall (fun job => detached k r (fst job)) (microtasks w).

(** The continuations attached to [p] under the (truthy) key [k]. *)
Definition keyedReactions (k : string) (p : PromiseId) (w : World) : list Reaction :=
  filter (fun rx => truthyKey (reactionKey rx) = Some k) (reactionsOf p (reactions w)).

End SuspenseLib.

(** ** 15-suspense-demo/src/App.tsx: [formatTime] of [ActivityFeed] *)
Module ActivityFeed.

(** The three templates [formatTime] fills in: minutes, hours or days ago. *)
Inductive TimeAgo :=
| MinutesAgo (n : Z)
| HoursAgo (n : Z)
| DaysAgo (n : Z).

(** The largest time value a [Date] can hold (8.64e15 ms either side of the
    epoch); [Date.now()] and the [getTime()] of a valid [Date] are integers of
    at most this size. *)
Definition maxTimeValue : Z := 8640000000000000.

(** The arithmetic of [formatTime] is the arithmetic of doubles.  On two time
    values whose difference is below 2^53 it is exact: every integer below
    2^53 is a double, so the subtraction does not round, and the quotient of
    such an integer by 60000 (then 60, then 24) is rounded by less than the
    distance 1/60000 that separates it from the next whole number, so
    [Math.floor] of the double is the floor of the exact quotient. *)
Definition exactRange (now date : Z) : Prop :=
  (Z.abs now <= maxTimeValue ∧ Z.abs date <= maxTimeValue ∧
   Z.abs (now - date) < 2 ^ 53)%Z.

(** [const formatTime = (date: Date) => { ... }].  [now] is [Date.now()] and
    [date] is [date.getTime()], both counts of milliseconds.  In [exactRange],
    [Math.floor(x / d)] is the floor division [x / d] of [Z].  Outside it the
    doubles of the source round (a difference of 2^53 or more) or the date is
    no valid [Date]; this model does not follow the source there and gives
    [None]. *)
Definition formatTime (now date : Z) : option TimeAgo :=
  if decide (exactRange now date) then
    let minutes := ((now - date) / (1000 * 60))%Z in
    if bool_decide (minutes < 60)%Z then Some (MinutesAgo minutes)
    else
      let hours := (minutes / 60)%Z in
      if bool_decide (hours < 24)%Z then Some (HoursAgo hours)
      else Some (DaysAgo (hours / 24)%Z)
  else None.

End ActivityFeed.

(** ** 11-use-api/src/App.tsx: the user cache and the handlers of [App] *)
Module UseApiApp.

(** [interface User] *)
Record User := mkUser {
  id : Z;
  name : string;
  email : string;
  avatar : string;
  role : string
}.

(** [const users: User[]] inside [fetchUser]. *)
Definition users : list User :=
  [ mkUser 1 "김철수" "kim@example.com" "👨‍💻" "개발자";
    mkUser 2 "이영희" "lee@example.com" "👩‍🎨" "디자이너";
    mkUser 3 "박민수" "park@example.com" "👨‍💼" "매니저" ].

(** What [fetchUser] resolves to when it does not fail:
    [users.find(u => u.id === userId) || users[0]].  [None] would be
    [undefined]. *)
Definition selectUser (userId : Z) : option User :=
  match List.find (fun u => bool_decide (id u = userId)) users with
  | Some u => Some u
  | None => users !! 0
  end.

(** [const promiseCache = new Map<number, Promise<User>>()], the promise heap
    and the log of the [fetchUser] calls, oldest first. *)
Record World := mkWorld {
  promiseCache : gmap Z PromiseId;
  promises : list PromiseState;
  fetched : list Z
}.

(** A call of the [async function fetchUser(userId)]: it awaits a timer first,
    so the call returns a new pending promise. *)
Definition fetchUser (userId : Z) (w : World) : PromiseId * World :=
  (length (promises w),
   {| promiseCache := promiseCache w;
      promises := promises w ++ [Pending];
      fetched := fetched w ++ [userId] |}).

(** [function getUserPromise(userId)]:
    [if (!promiseCache.has(userId)) promiseCache.set(userId, fetchUser(userId));
     return promiseCache.get(userId)!] *)
Definition getUserPromise (userId : Z) (w : World) : PromiseId * World :=
  match promiseCache w !! userId with
  | Some p => (p, w)
  | None =>
      let '(p, w1) := fetchUser userId w in
      (p, {| promiseCache := <[userId := p]> (promiseCache w1);
             promises := promises w1;
             fetched := fetched w1 |})
  end.

(** [promiseCache.clear()] *)
Definition clearCache (w : World) : World :=
  {| promiseCache := ∅; promises := promises w; fetched := fetched w |}.

(** [function UserProfile({ userId })]: [use(getUserPromise(userId))]. *)
Definition UserProfile (userId : Z) (w : World) : Host.ReadResult * World :=
  let '(p, w1) := getUserPromise userId w in
  (Host.use (promises w1) p, w1).

(** What [ConditionalUser] renders: the prompt to press the button, or what
    its read gives. *)
Inductive ConditionalView :=
| Prompt
| Loaded (r : Host.ReadResult).

(** [function ConditionalUser({ userId, shouldFetch })]: it returns the prompt
    before it reaches [use] when [shouldFetch] is false. *)
Definition ConditionalUser (userId : Z) (shouldFetch : bool) (w : World)
  : ConditionalView * World :=
  if negb shouldFetch then (Prompt, w)
  else
    let '(p, w1) := getUserPromise userId w in
    (Loaded (Host.use (promises w1) p), w1).

Inductive Theme := light | dark.

(** The state of [App] ([useState] of [userId], [theme], [shouldFetch], [key])
    with the state of the [ErrorBoundaryClass] around [UserProfile];
    [mountedKey] is the [key] the [<Suspense key={key}>] above that boundary was
    last mounted with. *)
Record App := mkApp {
  world : World;
  userId : Z;
  theme : Theme;
  shouldFetch : bool;
  key : nat;
  mountedKey : nat;
  boundary : ErrorBoundaryState
}.

(** [handleUserChange(newUserId)]:
    [promiseCache.clear(); setUserId(newUserId); setKey(k => k + 1)] *)
Definition handleUserChange (newUserId : Z) (app : App) : App :=
  {| world := clearCache (world app); userId := newUserId; theme := theme app;
     shouldFetch := shouldFetch app; key := S (key app);
     mountedKey := mountedKey app; boundary := boundary app |}.

(** [handleReset]: [promiseCache.clear(); setKey(k => k + 1)] *)
Definition handleReset (app : App) : App :=
  {| world := clearCache (world app); userId := userId app; theme := theme app;
     shouldFetch := shouldFetch app; key := S (key app);
     mountedKey := mountedKey app; boundary := boundary app |}.

(** The [reset] closure that [ErrorBoundaryClass.render] hands to the fallback:
    [this.setState({ hasError: false, error: null }); this.props.onReset()],
    where [App] passes [handleReset] as [onReset]. *)
Definition reset (app : App) : App :=
  handleReset
    {| world := world app; userId := userId app; theme := theme app;
       shouldFetch := shouldFetch app; key := key app;
       mountedKey := mountedKey app;
       boundary := {| hasError := false; error := None |} |}.

(** The host re-creates a subtree whose [key] changed: when [key] differs from
    the key [<Suspense key={key}>] was mounted with, the boundary below it is
    constructed anew. *)
Definition remount (app : App) : App :=
  if decide (key app = mountedKey app) then app
  else {| world := world app; userId := userId app; theme := theme app;
          shouldFetch := shouldFetch app; key := key app;
          mountedKey := key app; boundary := UseApi.initialState |}.

(** What the first demo box shows: the fallback of the boundary, or what
    [UserProfile] reads. *)
Inductive ProfileBox :=
| BoxFallback (e : JsError)
| BoxRead (r : Host.ReadResult).

(** The state of the boundary after [UserProfile] has read [r] below it.  As
    chapter 11 says of [use]: a rejected promise throws its error, which the
    [ErrorBoundary] catches ([getDerivedStateFromError]); a pending promise is
    thrown itself, for [Suspense] to catch, and leaves the boundary as it is. *)
Definition afterRead (r : Host.ReadResult) (st : ErrorBoundaryState)
  : ErrorBoundaryState :=
  match r with
  | Host.Raise (Host.OperationFailed e) => UseApi.getDerivedStateFromError (Some e)
  | Host.Raise (Host.NotReady _) | Host.Ready _ => st
  end.

(** One render of the two demo boxes of [App] for the selected user:
    [<Suspense key={key}><ErrorBoundary><UserProfile/></ErrorBoundary></Suspense>]
    first (a boundary that holds an error renders its fallback and not
    [UserProfile]), then [<ConditionalUser/>]. *)
Definition renderDemos (app : App) : ProfileBox * ConditionalView * App :=
  let app0 := remount app in
  let '(box, w1, st1) :=
    match UseApi.render (boundary app0) with
    | UseApi.ErrorFallback e => (BoxFallback e, world app0, boundary app0)
    | UseApi.ChildrenView =>
        let '(r, w) := UserProfile (userId app0) (world app0) in
        (BoxRead r, w, afterRead r (boundary app0))
    end in
  let '(r2, w2) := ConditionalUser (userId app0) (shouldFetch app0) w1 in
  (box, r2,
   {| world := w2; userId := userId app0; theme := theme app0;
      shouldFetch := shouldFetch app0; key := key app0;
      mountedKey := mountedKey app0; boundary := st1 |}).

End UseApiApp.

(** ** src/api/tasks.ts with caching (chapter 11) *)
Module CachedTasksApi.

(** The key of [fetchTask]: [`task-${taskId}`]. *)
Definition taskKey (taskId : string) : string := "task-" +:+ taskId.

(** The key of [fetchTasks]: [`project-${projectId}-tasks`]. *)
Definition projectTasksKey (projectId : string) : string :=
  "project-" +:+ projectId +:+ "-tasks".

(** The producers are [() => fetch(url).then(r => r.json())]: a call returns a
    new pending promise. *)
Definition request : Fetcher := Returns Pending.

(** [export function fetchTask(taskId)] *)
Definition fetchTask (taskId : string) (w : PromiseCache.World)
  : Completion PromiseId * PromiseCache.World :=
  PromiseCache.cachedFetch (taskKey taskId) request w.

(** [export function fetchTasks(projectId)] *)
Definition fetchTasks (projectId : string) (w : PromiseCache.World)
  : Completion PromiseId * PromiseCache.World :=
  PromiseCache.cachedFetch (projectTasksKey projectId) request w.

End CachedTasksApi.

(** ** src/components/ErrorBoundary.tsx (chapter 15) *)
Module BoardBoundary.

(** An element of [resetKeys?: Array<string | number>].  The numbers are the
    integers and [NaN], the one number that is not [===] to itself. *)
Inductive ResetKey :=
| KString (s : string)
| KNumber (n : Z)
| KNaN.

#[global] Instance ResetKey_eq_dec : EqDecision ResetKey.
Proof. solve_decision. Defined.

(** [val === b[idx]]; [None] is the [undefined] of an index out of range. *)
Definition strictEquals (val : ResetKey) (other : option ResetKey) : bool :=
  match val, other with
  | KString s, Some (KString t) => bool_decide (s = t)
  | KNumber n, Some (KNumber m) => bool_decide (n = m)
  | _, _ => false
  end.

(** [a.every((val, idx) => ...)], from index [idx] on. *)
Fixpoint everyFrom (idx : nat) (f : ResetKey -> nat -> bool) (a : list ResetKey) : bool :=
  match a with
  | [] => true
  | val :: rest => f val idx && everyFrom (S idx) f rest
  end.

(** [function arraysEqual(a: any[] = [], b: any[] = [])]:
    [a.length === b.length && a.every((val, idx) => val === b[idx])].
    A missing argument ([None]) takes the default [[]]. *)
Definition arraysEqual (a b : option (list ResetKey)) : bool :=
  let a := default [] a in
  let b := default [] b in
  bool_decide (length a = length b) &&
  everyFrom 0 (fun val idx => strictEquals val (b !! idx)) a.

(** [interface Props]: whether a [fallback] is supplied, and [resetKeys]. *)
Record Props := mkProps {
  hasFallback : bool;
  resetKeys : option (list ResetKey)
}.

(** [this.state = { hasError: false, error: null }] *)
Definition initialState : ErrorBoundaryState :=
  {| hasError := false; error := None |}.

(** [static getDerivedStateFromError(error) { return { hasError: true, error } }] *)
Definition getDerivedStateFromError (err : option JsError) : ErrorBoundaryState :=
  {| hasError := true; error := err |}.

(** [reset = () => { this.setState({ hasError: false, error: null }) }] *)
Definition reset (st : ErrorBoundaryState) : ErrorBoundaryState :=
  {| hasError := false; error := None |}.

(** [componentDidUpdate(prevProps)]:
    [if (this.state.hasError && this.props.resetKeys &&
         !arraysEqual(prevProps.resetKeys, this.props.resetKeys)) this.reset()].
    An array, also the empty one, is truthy; a missing [resetKeys] is not. *)
Definition componentDidUpdate (prevProps props : Props) (st : ErrorBoundaryState)
  : ErrorBoundaryState :=
  if hasError st
     && bool_decide (is_Some (resetKeys props))
     && negb (arraysEqual (resetKeys prevProps) (resetKeys props))
  then reset st
  else st.

Inductive View :=
| CustomFallback (e : JsError)
| DefaultErrorFallback (e : JsError)
| Children.

(** [render()] *)
Definition render (props : Props) (st : ErrorBoundaryState) : View :=
  if hasError st then
    match error st with
    | Some e => if hasFallback props then CustomFallback e else DefaultErrorFallback e
    | None => Children
    end
  else Children.

(** The props [TaskBoard] passes: a [fallback] and [resetKeys={[projectId]}]. *)
Definition TaskBoardProps (projectId : string) : Props :=
  {| hasFallback := true; resetKeys := Some [KString projectId] |}.

(** The props [TaskBoardWithRecovery] passes:
    [resetKeys={[projectId, retryCount]}]. *)
Definition RecoveryProps (projectId : string) (retryCount : Z) : Props :=
  {| hasFallback := true; resetKeys := Some [KString projectId; KNumber retryCount] |}.

End BoardBoundary.

(** ** src/errors/AppError.ts (chapter 15) *)
Module AppErrors.

(** The classes of the error objects that occur: the built-in [Error] and
    [TypeError], any other built-in subclass of [Error] (by name), and the
    five classes of the file. *)
Inductive ErrorClass :=
| Error
| TypeError
| OtherBuiltin (name : string)
| AppError
| NetworkError
| AuthenticationError
| NotFoundError
| ValidationError.

#[global] Instance ErrorClass_eq_dec : EqDecision ErrorClass.
Proof. solve_decision. Defined.

(** What a JSON body offers to [errorData.message]: [null], where the property
    access throws a [TypeError] with the engine's message [accessError], or a
    value whose [message] is a string or is missing. *)
Inductive JsonData :=
| JNull (accessError : string)
| JObject (message : option string).

(** An error object: its class and [message], and the [code], [statusCode] and
    [details] of an [AppError] ([None] is [undefined]). *)
Record ErrorObject := mkError {
  cls : ErrorClass;
  message : string;
  code : option string;
  statusCode : option Z;
  details : option JsonData
}.

(** A thrown value: an error object, or a value that is not an [Error]. *)
Inductive ThrownValue :=
| ThrownError (e : ErrorObject)
| ThrownOther.

(** [class C extends D] *)
Definition superclass (c : ErrorClass) : option ErrorClass :=
  match c with
  | Error => None
  | TypeError | OtherBuiltin _ | AppError => Some Error
  | NetworkError | AuthenticationError | NotFoundError | ValidationError =>
      Some AppError
  end.

(** [error instanceof C]: [C] is on the chain of superclasses, which has at
    most three classes. *)
Definition instanceOf (e : ErrorObject) (c : ErrorClass) : bool :=
  bool_decide (cls e = c) ||
  match superclass (cls e) with
  | Some s =>
      bool_decide (s = c) ||
      match superclass s with
      | Some s' => bool_decide (s' = c)
      | None => false
      end
  | None => false
  end.

(** [new AppError(message, code, statusCode?, details?)] *)
Definition newAppError (message code : string) (statusCode : option Z)
    (details : option JsonData) : ErrorObject :=
  {| cls := AppError; message := message; code := Some code;
     statusCode := statusCode; details := details |}.

(** [new NetworkError()], [new AuthenticationError()], [new NotFoundError()],
    [new ValidationError()], each with its default message. *)
Definition newNetworkError : ErrorObject :=
  {| cls := NetworkError; message := "네트워크 오류가 발생했습니다";
     code := Some "NETWORK_ERROR"; statusCode := Some 0%Z; details := None |}.

Definition newAuthenticationError : ErrorObject :=
  {| cls := AuthenticationError; message := "인증이 필요합니다";
     code := Some "AUTH_ERROR"; statusCode := Some 401%Z; details := None |}.

Definition newNotFoundError : ErrorObject :=
  {| cls := NotFoundError; message := "리소스를 찾을 수 없습니다";
     code := Some "NOT_FOUND"; statusCode := Some 404%Z; details := None |}.

Definition newValidationError : ErrorObject :=
  {| cls := ValidationError; message := "입력값이 올바르지 않습니다";
     code := Some "VALIDATION_ERROR"; statusCode := Some 400%Z; details := None |}.

(** [haystack.includes(needle)] *)
Fixpoint includes (needle haystack : string) : bool :=
  String.prefix needle haystack ||
  match haystack with
  | EmptyString => false
  | String _ rest => includes needle rest
  end.

(** [s || fallback] for a string or [undefined]: the empty string is falsy. *)
Definition orElse (s : option string) (fallback : string) : string :=
  match s with
  | Some m => if decide (m = "") then fallback else m
  | None => fallback
  end.

End AppErrors.

(** ** src/components/ErrorFallback.tsx (chapter 15) *)
Module ErrorFallbackView.
Import AppErrors.

(** What the fallback offers: [reset] (retry) or a link to another page. *)
Inductive Action := Retry | GoToLogin | GoToHome.

(** The five layouts, with the text they show from the error. *)
Inductive View :=
| NetworkView
| AuthView
| NotFoundView (text : string)
| ValidationView (text : string)
| GenericView (text : string).

(** [export function ErrorFallback({ error, reset })] *)
Definition ErrorFallback (error : ErrorObject) : View :=
  if instanceOf error NetworkError then NetworkView
  else if instanceOf error AuthenticationError then AuthView
  else if instanceOf error NotFoundError then NotFoundView (message error)
  else if instanceOf error ValidationError then ValidationView (message error)
  else GenericView (orElse (Some (message error)) "알 수 없는 오류가 발생했습니다").

(** The [onClick] of the button of each layout. *)
Definition action (v : View) : Action :=
  match v with
  | NetworkView => Retry
  | AuthView => GoToLogin
  | NotFoundView _ => GoToHome
  | ValidationView _ => Retry
  | GenericView _ => Retry
  end.

End ErrorFallbackView.

(** ** src/api/tasks.ts (chapter 15) *)
Module TasksApi.
Import AppErrors.

(** How [response.json()] settles. *)
Inductive JsonResult :=
| JsonValue (d : JsonData)
| JsonFails (t : ThrownValue).

(** The fields of a [Response] that the code reads. *)
Record Response := mkResponse {
  ok : bool;
  status : Z;
  json : JsonResult
}.

(** How [fetch(url, ...)] settles. *)
Inductive FetchOutcome :=
| FetchResolves (response : Response)
| FetchRejects (t : ThrownValue).

(** How the promise of the [async function] settles. *)
Inductive AsyncResult :=
| Resolves (d : JsonData)
| Rejects (t : ThrownValue).

(** Where control leaves the [try] block: at [return response.json()], which
    hands the promise of [json()] to the caller without awaiting it, or at a
    [throw] (also one raised by an [await] or by a property access). *)
Inductive TryExit :=
| ReturnsPromise (j : JsonResult)
| ThrowsValue (t : ThrownValue).

(** The [try] block of [fetchWithErrorHandling]. *)
Definition tryBlock (outcome : FetchOutcome) : TryExit :=
  match outcome with
  | FetchRejects t => ThrowsValue t
  | FetchResolves response =>
      if negb (ok response) then
        if bool_decide (status response = 401)%Z then
          ThrowsValue (ThrownError newAuthenticationError)
        else if bool_decide (status response = 404)%Z then
          ThrowsValue (ThrownError newNotFoundError)
        else if bool_decide (status response >= 500)%Z then
          ThrowsValue (ThrownError
                    (newAppError "서버 오류가 발생했습니다" "SERVER_ERROR"
                                 (Some (status response)) None))
        else
          (* [await response.json().catch(() => ({}))] *)
          let errorData :=
            match json response with
            | JsonValue d => d
            | JsonFails _ => JObject None
            end in
          match errorData with
          | JNull accessError =>
              ThrowsValue (ThrownError
                        {| cls := TypeError; message := accessError; code := None;
                           statusCode := None; details := None |})
          | JObject m =>
              ThrowsValue (ThrownError
                        (newAppError (orElse m "요청 처리 중 오류가 발생했습니다")
                                     "API_ERROR" (Some (status response))
                                     (Some errorData)))
          end
      else ReturnsPromise (json response)
  end.

(** The [catch (error)] block. *)
Definition catchBlock (error : ThrownValue) : ThrownValue :=
  match error with
  | ThrownError e =>
      if instanceOf e AppError then error
      else if instanceOf e TypeError && includes "fetch" (message e) then
        ThrownError newNetworkError
      else ThrownError (newAppError (message e) "UNKNOWN_ERROR" None None)
  | ThrownOther =>
      ThrownError (newAppError "알 수 없는 오류" "UNKNOWN_ERROR" None None)
  end.

(** [async function fetchWithErrorHandling<T>(url, options?)], as a function of
    how [fetch] settles: a throw inside [try] goes through [catch]; the promise
    returned from inside [try] settles the result as it settles itself. *)
Definition fetchWithErrorHandling (outcome : FetchOutcome) : AsyncResult :=
  match tryBlock outcome with
  | ThrowsValue t => Rejects (catchBlock t)
  | ReturnsPromise (JsonValue d) => Resolves d
  | ReturnsPromise (JsonFails t) => Rejects t
  end.

End TasksApi.

(** ** src/api/tasks.ts and src/components/TaskBoard.tsx (chapter 15) *)
Module TaskBoard.

(** [const taskCache = new Map<string, Promise<any>>()], the promise heap and
    the URLs that have been requested, oldest first. *)
Record World := mkWorld {
  taskCache : gmap string PromiseId;
  promises : list PromiseState;
  requests : list string
}.

(** The cache keys [`project-${projectId}`], [`tasks-${projectId}`] and
    [`members-${projectId}`], and the URLs of the three requests. *)
Definition projectKey (projectId : string) : string := "project-" +:+ projectId.
Definition tasksKey (projectId : string) : string := "tasks-" +:+ projectId.
Definition membersKey (projectId : string) : string := "members-" +:+ projectId.

Definition projectUrl (projectId : string) : string := "/api/projects/" +:+ projectId.
Definition tasksUrl (projectId : string) : string :=
  "/api/projects/" +:+ projectId +:+ "/tasks".
Definition membersUrl (projectId : string) : string :=
  "/api/projects/" +:+ projectId +:+ "/members".

(** A call [fetchWithErrorHandling(url)]: the [async function] starts the
    request and returns a new pending promise. *)
Definition startRequest (url : string) (w : World) : PromiseId * World :=
  (length (promises w),
   {| taskCache := taskCache w; promises := promises w ++ [Pending];
      requests := requests w ++ [url] |}).

(** The body that [fetchProject], [fetchTasks] and [fetchTeamMembers] share:
    [if (!taskCache.has(cacheKey)) {
       const promise = fetchWithErrorHandling(url);
       taskCache.set(cacheKey, promise);
     }
     return taskCache.get(cacheKey)!] *)
Definition cachedRequest (cacheKey url : string) (w : World) : PromiseId * World :=
  match taskCache w !! cacheKey with
  | Some p => (p, w)
  | None =>
      let '(p, w1) := startRequest url w in
      (p, {| taskCache := <[cacheKey := p]> (taskCache w1);
             promises := promises w1; requests := requests w1 |})
  end.

Definition fetchProject (projectId : string) (w : World) : PromiseId * World :=
  cachedRequest (projectKey projectId) (projectUrl projectId) w.

Definition fetchTasks (projectId : string) (w : World) : PromiseId * World :=
  cachedRequest (tasksKey projectId) (tasksUrl projectId) w.

Definition fetchTeamMembers (projectId : string) (w : World) : PromiseId * World :=
  cachedRequest (membersKey projectId) (membersUrl projectId) w.

(** [export function invalidateProjectCache(projectId)] *)
Definition invalidateProjectCache (projectId : string) (w : World) : World :=
  {| taskCache :=
       delete (membersKey projectId)
         (delete (tasksKey projectId)
            (delete (projectKey projectId) (taskCache w)));
     promises := promises w; requests := requests w |}.

(** A request completes: the pending promise [p] settles. *)
Definition settle (p : PromiseId) (o : Settlement) (w : World) : World :=
  match promises w !! p with
  | Some Pending =>
      {| taskCache := taskCache w;
         promises := <[p := settledState o]> (promises w);
         requests := requests w |}
  | _ => w
  end.

(** What a render of [TaskBoardContent] comes to: the board with the three
    values, or the signal that the first failing [use] raised. *)
Inductive Content :=
| Board (project tasks members : Value)
| Raised (sig : Host.Signal).

(** [function TaskBoardContent({ projectId })]:
    [const project = use(fetchProject(projectId));
     const tasks = use(fetchTasks(projectId));
     const members = use(fetchTeamMembers(projectId))].
    A [use] that throws ends the render before the next statement. *)
Definition TaskBoardContent (projectId : string) (w : World) : Content * World :=
  let '(p1, w1) := fetchProject projectId w in
  match Host.use (promises w1) p1 with
  | Host.Raise sig => (Raised sig, w1)
  | Host.Ready project =>
      let '(p2, w2) := fetchTasks projectId w1 in
      match Host.use (promises w2) p2 with
      | Host.Raise sig => (Raised sig, w2)
      | Host.Ready tasks =>
          let '(p3, w3) := fetchTeamMembers projectId w2 in
          match Host.use (promises w3) p3 with
          | Host.Raise sig => (Raised sig, w3)
          | Host.Ready members => (Board project tasks members, w3)
          end
      end
  end.

(** [handleMouseEnter] of [ProjectLink]:
    [fetchProject(projectId); fetchTasks(projectId)] *)
Definition handleMouseEnter (projectId : string) (w : World) : World :=
  snd (fetchTasks projectId (snd (fetchProject projectId w))).

(** [TaskBoard]: the module state with the state of the [ErrorBoundary] that
    [TaskBoard] puts around [Suspense] and [TaskBoardContent]. *)
Record BoardState := mkBoard {
  world : World;
  boundary : ErrorBoundaryState
}.

Inductive BoardView :=
| FallbackShown (e : JsError)
| SkeletonShown
| BoardShown (project tasks members : Value).

(** One render of [<TaskBoard projectId={projectId} />].  A boundary that holds
    an error renders its fallback and not its children.  Otherwise
    [TaskBoardContent] renders; a promise it throws is caught by [Suspense],
    which shows the skeleton (the chapter's sketch of [Suspense]); an error it
    throws is caught by the boundary ([getDerivedStateFromError]). *)
Definition renderTaskBoard (projectId : string) (b : BoardState) : BoardView * BoardState :=
  match BoardBoundary.render (BoardBoundary.TaskBoardProps projectId) (boundary b) with
  | BoardBoundary.CustomFallback e | BoardBoundary.DefaultErrorFallback e =>
      (FallbackShown e, b)
  | BoardBoundary.Children =>
      let '(c, w1) := TaskBoardContent projectId (world b) in
      match c with
      | Board project tasks members =>
          (BoardShown project tasks members, {| world := w1; boundary := boundary b |})
      | Raised (Host.NotReady _) =>
          (SkeletonShown, {| world := w1; boundary := boundary b |})
      | Raised (Host.OperationFailed e) =>
          (FallbackShown e,
           {| world := w1;
              boundary := BoardBoundary.getDerivedStateFromError (Some e) |})
      end
  end.

(** The fallback's button calls the [reset] of the boundary that the fallback
    was given; the boundary then renders its children again. *)
Definition clickReset (projectId : string) (b : BoardState) : BoardView * BoardState :=
  renderTaskBoard projectId
    {| world := world b; boundary := BoardBoundary.reset (boundary b) |}.

(** [n] clicks on the reset button, each followed by its render. *)
Fixpoint clickResetTimes (n : nat) (projectId : string) (b : BoardState) : BoardState :=
  match n with
  | 0 => b
  | S n' => clickResetTimes n' projectId (snd (clickReset projectId b))
  end.

End TaskBoard.

(** ** src/lib/retry.ts (chapter 15) *)
Module Retry.

Inductive Backoff := linear | exponential.

(** [interface RetryOptions]; [None] is a field left out.  The numbers are
    whole numbers: a [maxAttempts] or [delay] that is fractional, [NaN] or
    infinite is outside this model.  [onRetry] says whether a callback is
    supplied. *)
Record RetryOptions := mkOptions {
  maxAttempts : option Z;
  delay : option Z;
  backoff : option Backoff;
  onRetry : bool
}.

(** What a run does besides settling: how often it calls [fn], the arguments
    of its calls of [onRetry] and the durations of its timers, oldest first. *)
Record Trace := mkTrace {
  calls : nat;
  retried : list (Z * JsError);
  timers : list Z
}.

(** How the promise of [withRetry] settles; it rejects with [lastError], which
    is [undefined] ([None]) until a call of [fn] has failed. *)
Inductive Result :=
| Resolves (v : Value)
| Rejects (lastError : option JsError).

(** [backoff === 'exponential' ? delay * Math.pow(2, attempt - 1) : delay * attempt] *)
Definition waitTime (delay : Z) (backoff : Backoff) (attempt : Z) : Z :=
  match backoff with
  | exponential => (delay * 2 ^ (attempt - 1))%Z
  | linear => (delay * attempt)%Z
  end.

(** The [for] loop from [attempt] on and the [throw lastError!] after it.
    [fn attempt] is how the call of [fn] in that round settles: with a value,
    or with an error value (a [fn] that rejects with [undefined] is outside
    this model).  Each round
    uses one unit of [fuel]; [withRetry] supplies one unit for every round
    the loop condition admits. *)
Fixpoint loop (fuel : nat) (fn : Z -> Completion Value) (maxAttempts delay : Z)
    (backoff : Backoff) (onRetry : bool)
    (attempt : Z) (lastError : option JsError) (tr : Trace) : Result * Trace :=
  match fuel with
  | 0 => (Rejects lastError, tr)
  | S fuel' =>
      if bool_decide (attempt <= maxAttempts)%Z then
        let tr1 :=
          {| calls := S (calls tr); retried := retried tr; timers := timers tr |} in
        match fn attempt with
        | Normal v => (Resolves v, tr1)
        | Throw e =>
            if bool_decide (attempt = maxAttempts) then (Rejects (Some e), tr1)
            else
              loop fuel' fn maxAttempts delay backoff onRetry
                (attempt + 1)%Z (Some e)
                {| calls := calls tr1;
                   retried :=
                     retried tr1 ++ (if onRetry then [(attempt, e)] else []);
                   timers := timers tr1 ++ [waitTime delay backoff attempt] |}
        end
      else (Rejects lastError, tr)
  end.

(** [export async function withRetry<T>(fn, options = {})] with the defaults
    [maxAttempts = 3], [delay = 1000], [backoff = 'exponential']. *)
Definition withRetry (fn : Z -> Completion Value) (options : RetryOptions)
  : Result * Trace :=
  let maxAttempts := default 3%Z (maxAttempts options) in
  let delay := default 1000%Z (delay options) in
  let backoff := default exponential (backoff options) in
  loop (Z.to_nat maxAttempts) fn maxAttempts delay backoff (onRetry options)
       1%Z None {| calls := 0; retried := []; timers := [] |}.


(** [Number.MAX_SAFE_INTEGER]: up to it the whole numbers are doubles, and
    the round counter [attempt++] counts exactly. *)
Definition MAX_SAFE_INTEGER : Z := (2 ^ 53 - 1)%Z.


(** The options of [fetchTasksWithRetry]. *)
Definition fetchTasksOptions : RetryOptions :=
  {| maxAttempts := Some 3%Z; delay := Some 1000%Z; backoff := Some exponential;
     onRetry := true |}.

End Retry.

(** ** components/task/VirtualizedTaskList.tsx (chapter 13) *)
Module VirtualList.

Definition ITEM_HEIGHT : Z := 200.
Definition BUFFER : Z := 3.

(** [Math.ceil(x / d)] for integers [x] and [d]; [x / d] on [Z] is
    [Math.floor(x / d)]. *)
Definition ceilDiv (x d : Z) : Z := (- ((- x) / d))%Z.

(** How [Array.prototype.slice] reads an index: a negative one counts from the
    end, and the result is clamped to the array. *)
Definition relativeIndex (len i : Z) : Z :=
  if bool_decide (i < 0)%Z then Z.max (len + i) 0 else Z.min i len.

(** [array.slice(start, end)] *)
Definition slice {A : Type} (l : list A) (start final : Z) : list A :=
  let len := Z.of_nat (length l) in
  let k := relativeIndex len start in
  let e := relativeIndex len final in
  take (Z.to_nat (e - k)) (drop (Z.to_nat k) l).

(** [const visibleCount = Math.ceil(containerHeight / ITEM_HEIGHT)] *)
Definition visibleCount (containerHeight : Z) : Z := ceilDiv containerHeight ITEM_HEIGHT.

(** [const startIndex = Math.max(0, Math.floor(scrollTop / ITEM_HEIGHT) - BUFFER)] *)
Definition startIndex (scrollTop : Z) : Z :=
  Z.max 0 (scrollTop / ITEM_HEIGHT - BUFFER).

(** [const endIndex = Math.min(tasks.length, startIndex + visibleCount + BUFFER * 2)] *)
Definition endIndex {A : Type} (tasks : list A) (scrollTop containerHeight : Z) : Z :=
  Z.min (Z.of_nat (length tasks))
        (startIndex scrollTop + visibleCount containerHeight + BUFFER * 2).

(** [const visibleTasks = tasks.slice(startIndex, endIndex)] *)
Definition visibleTasks {A : Type} (tasks : list A) (scrollTop containerHeight : Z) : list A :=
  slice tasks (startIndex scrollTop) (endIndex tasks scrollTop containerHeight).

(** [const totalHeight = tasks.length * ITEM_HEIGHT] and
    [const offsetY = startIndex * ITEM_HEIGHT] *)
Definition totalHeight {A : Type} (tasks : list A) : Z :=
  (Z.of_nat (length tasks) * ITEM_HEIGHT)%Z.

Definition offsetY (scrollTop : Z) : Z := (startIndex scrollTop * ITEM_HEIGHT)%Z.

(** Where the [index]-th rendered row begins: the rows follow one another, each
    [ITEM_HEIGHT] high, in the block placed at [top: offsetY]. *)
Definition rowTop (scrollTop : Z) (index : nat) : Z :=
  (offsetY scrollTop + Z.of_nat index * ITEM_HEIGHT)%Z.

End VirtualList.

(** ** The task lists of chapter 11: [use] in a loop and [TaskListParallel] *)
Module TaskLists.
Import CachedTasksApi.

(** [use(fetchTask(taskId))], the read that [TaskItem] and the loop of
    [TaskList] perform. *)
Definition readTask (taskId : string) (w : PromiseCache.World)
  : Host.ReadResult * PromiseCache.World :=
  match fetchTask taskId w with
  | (Normal p, w1) => (Host.use (PromiseCache.promises w1) p, w1)
  | (Throw e, w1) => (Host.Raise (Host.OperationFailed e), w1)
  end.

(** What a render of [TaskList] comes to: the titles of all tasks, or the
    signal that ended the render. *)
Inductive ListView :=
| Titles (tasks : list Value)
| Raised (sig : Host.Signal).

(** [function TaskList({ taskIds })]:
    [taskIds.map(id => { const task = use(fetchTask(id)); ... })].
    The callback runs for one id after the other inside the one component; a
    [use] that throws ends the render. *)
Fixpoint TaskList (taskIds : list string) (w : PromiseCache.World)
  : ListView * PromiseCache.World :=
  match taskIds with
  | [] => (Titles [], w)
  | id :: rest =>
      match readTask id w with
      | (Host.Ready task, w1) =>
          match TaskList rest w1 with
          | (Titles tasks, w2) => (Titles (task :: tasks), w2)
          | (Raised sig, w2) => (Raised sig, w2)
          end
      | (Host.Raise sig, w1) => (Raised sig, w1)
      end
  end.

(** [function TaskListContent({ taskIds })]: every id gets a [TaskItem] in a
    [Suspense] of its own, so every [TaskItem] renders, whatever the others
    raise.  The result lists what each item reads. *)
Fixpoint TaskListContent (taskIds : list string) (w : PromiseCache.World)
  : list Host.ReadResult * PromiseCache.World :=
  match taskIds with
  | [] => ([], w)
  | taskId :: rest =>
      let '(r, w1) := readTask taskId w in
      let '(rs, w2) := TaskListContent rest w1 in
      (r :: rs, w2)
  end.

End TaskLists.

(** ** src/lib/errorLogger.ts (chapter 15) *)
Module ErrorLog.
Import AppErrors.

(** Where a report of an error can go. *)
Inductive Report :=
| ConsoleError      (* [console.error('Error:', error)] *)
| ConsoleContext    (* [console.error('Context:', context)] *)
| Sentry            (* [this.sendToSentry(error, context)] *)
| Analytics         (* [this.sendToAnalytics(error, context)] *)
| OnError.          (* [this.props.onError?.(error, errorInfo)] *)

(** [const ignoredErrors] of [shouldIgnore]. *)
Definition ignoredErrors : list string :=
  [ "ResizeObserver loop limit exceeded";
    "Non-Error promise rejection captured" ].

(** The value a boundary catches, by what [error.message.includes] finds.
    [WithMessage m] is an [Error], or any object whose [message] is the
    string [m].  [WithoutMessage] is a caught value whose [message] is not a
    string and has no [includes] method -- [throw 'oops'], [throw 404],
    [throw null], [throw {}] -- so that [error.message.includes(msg)] throws
    a [TypeError].  (A [message] that is an array or an object with an
    [includes] of its own is outside this model.) *)
Inductive Thrown :=
| WithMessage (message : string)
| WithoutMessage.

(** The [TypeError] of [error.message.includes] on [WithoutMessage]. *)
Definition TypeError : JsError := "TypeError".

(** [shouldIgnore(error)]:
    [ignoredErrors.some(msg => error.message.includes(msg))]; the callback
    runs at least once, for the list is not empty. *)
Definition shouldIgnore (error : Thrown) : Completion bool :=
  match error with
  | WithMessage message =>
      Normal (existsb (fun msg => includes msg message) ignoredErrors)
  | WithoutMessage => Throw TypeError
  end.

(** [log(error, context?)]; [dev] is [import.meta.env.DEV]. *)
Definition log (dev hasContext : bool) : list Report :=
  [ConsoleError] ++ (if hasContext then [ConsoleContext] else []) ++
  (if dev then [] else [Sentry; Analytics]).

(** [export const logError = (error, context?) => { ... }]: the reports it
    makes, and how the call completes. *)
Definition logError (dev hasContext : bool) (error : Thrown)
  : list Report * Completion unit :=
  match shouldIgnore error with
  | Throw e => ([], Throw e)
  | Normal true => ([], Normal tt)
  | Normal false => (log dev hasContext, Normal tt)
  end.

(** [componentDidCatch(error, errorInfo)] of the chapter's [ErrorBoundary]:
    [logError(error, { componentStack, errorBoundary: true });
     this.props.onError?.(error, errorInfo)]; an exception of [logError]
    leaves the method before [onError]. *)
Definition componentDidCatch (dev hasOnError : bool) (error : Thrown)
  : list Report * Completion unit :=
  match logError dev true error with
  | (reports, Throw e) => (reports, Throw e)
  | (reports, Normal _) =>
      (reports ++ (if hasOnError then [OnError] else []), Normal tt)
  end.

End ErrorLog.

(** ** Histories of src/utils/promiseCache.ts (chapter 11) *)
Module CacheHistory.
Import CachedTasksApi.

(** Everything that can happen to the state of src/utils/promiseCache.ts. *)
Inductive Event :=
| ECachedFetch (key : string) (fetcher : Fetcher)
| ESettle (p : PromiseId) (o : Settlement)
| ERunMicrotasks
| EInvalidate (key : string)
| EClear.

Definition step (ev : Event) (w : PromiseCache.World) : PromiseCache.World :=
  match ev with
  | ECachedFetch key fetcher => snd (PromiseCache.cachedFetch key fetcher w)
  | ESettle p o => PromiseCache.settle p o w
  | ERunMicrotasks => PromiseCache.runMicrotasks w
  | EInvalidate key => PromiseCache.invalidateCache key w
  | EClear => PromiseCache.clearCache w
  end.

Definition run (evs : list Event) (w : PromiseCache.World) : PromiseCache.World :=
  foldl (fun w ev => step ev w) w evs.

Definition emptyWorld : PromiseCache.World :=
  PromiseCache.mkWorld ∅ [] [] [] 0.

(** Every cached promise exists; a rejected one has its [cache.delete]
    continuation in the queue, a pending one has it attached. *)
Definition watched (w : PromiseCache.World) : Prop :=
  ∀ k p, PromiseCache.cache w !! k = Some p ->
    p < length (PromiseCache.promises w) ∧
    (∀ e, PromiseCache.promises w !! p = Some (Rejected e) ->
          k ∈ PromiseCache.microtasks w) ∧
    (PromiseCache.promises w !! p = Some Pending ->
     (p, k) ∈ PromiseCache.catchHandlers w).

End CacheHistory.

(** * Supporting lemmas *)

(** ** The promise cache of the Suspense demo *)
Section DemoCache.
Import SuspenseDemo.

Lemma getCachedPromise_hit key f w p :
  cache w !! key = Some p ->
  getCachedPromise key f w = (Normal p, w).
Proof. intros H. unfold getCachedPromise. by rewrite H. Qed.

Lemma getCachedPromise_miss key s w :
  cache w !! key = None ->
  getCachedPromise key (Returns s) w
  = (Normal (length (promises w)),
     mkWorld (<[key := length (promises w)]> (cache w))
             (promises w ++ [s]) (S (fetcherCalls w))).
Proof. intros H. unfold getCachedPromise. by rewrite H. Qed.

Lemma getCachedPromise_miss_throw key e w :
  cache w !! key = None ->
  getCachedPromise key (Throws e) w
  = (Throw e, mkWorld (cache w) (promises w) (S (fetcherCalls w))).
Proof. intros H. unfold getCachedPromise. by rewrite H. Qed.

(** What [getCachedPromise] returns is what the cache holds afterwards. *)
Lemma getCachedPromise_returns_cached key f w p w' :
  getCachedPromise key f w = (Normal p, w') ->
  cache w' !! key = Some p.
Proof.
  unfold getCachedPromise.
  destruct (cache w !! key) as [q|] eqn:Hq.
  - intros [= <- <-]. done.
  - destruct f as [s|e]; simpl; [|done].
    intros [= <- <-]. simpl. by rewrite lookup_insert_eq.
Qed.

(** Deduplication in [getCachedPromise]: two calls for a key before anything
    settles return the same promise, and the producer runs once. *)
Lemma getCachedPromise_deduplicates key s f2 w :
  cache w !! key = None ->
  let '(r1, w1) := getCachedPromise key (Returns s) w in
  let '(r2, w2) := getCachedPromise key f2 w1 in
  r1 = Normal (length (promises w)) ∧ r2 = r1 ∧ w2 = w1 ∧
  fetcherCalls w2 = S (fetcherCalls w).
Proof.
  intros H. rewrite (getCachedPromise_miss _ _ _ H).
  erewrite getCachedPromise_hit; [done|].
  simpl. by rewrite lookup_insert_eq.
Qed.

End DemoCache.

(** ** Settled entries of the demo cache stay as they are *)
Section DemoTrace.
Import SuspenseDemo.

Lemma callFetcher_promises_prefix f w c w' q ps :
  callFetcher f w = (c, w') ->
  promises w !! q = Some ps ->
  promises w' !! q = Some ps.
Proof.
  destruct f as [s|e]; simpl; intros [= <- <-] Hq; simpl; [|done].
  by apply lookup_app_l_Some.
Qed.

Lemma read_keeps_entry key f w k p ps :
  cache w !! k = Some p ->
  promises w !! p = Some ps ->
  cache (snd (read key f w)) !! k = Some p ∧
  promises (snd (read key f w)) !! p = Some ps.
Proof.
  intros Hk Hp. unfold read, getCachedPromise.
  destruct (cache w !! key) as [q|] eqn:Hq; simpl; [done|].
  destruct f as [s|e]; simpl.
  - split; [|by apply lookup_app_l_Some].
    rewrite lookup_insert_ne; [done|]. intros ->. congruence.
  - done.
Qed.

Lemma settle_keeps_settled q o w p ps :
  promises w !! p = Some ps ->
  ps ≠ Pending ->
  promises (settle q o w) !! p = Some ps.
Proof.
  intros Hp Hs. unfold settle.
  destruct (promises w !! q) as [[| |]|] eqn:Hq; simpl; try done.
  destruct (decide (q = p)) as [->|Hne].
  - congruence.
  - by rewrite list_lookup_insert_ne.
Qed.

Lemma settle_cache q o w : cache (settle q o w) = cache w.
Proof. unfold settle. by destruct (promises w !! q) as [[| |]|]. Qed.

Lemma step_keeps_settled_entry ev w k p ps :
  keeps k ev ->
  ps ≠ Pending ->
  cache w !! k = Some p ->
  promises w !! p = Some ps ->
  cache (step ev w) !! k = Some p ∧ promises (step ev w) !! p = Some ps.
Proof.
  intros Hkeep Hs Hk Hp. destruct ev as [key f|q o|key|]; simpl in *.
  - by apply read_keeps_entry.
  - rewrite settle_cache. split; [done|]. by apply settle_keeps_settled.
  - split; [|done]. by rewrite lookup_delete_ne.
  - done.
Qed.

Lemma run_keeps_settled_entry evs w k p ps :
  Forall (keeps k) evs ->
  ps ≠ Pending ->
  cache w !! k = Some p ->
  promises w !! p = Some ps ->
  cache (run evs w) !! k = Some p ∧ promises (run evs w) !! p = Some ps.
Proof.
  intros Hall Hs. revert w. induction Hall as [|ev evs Hev _ IH]; intros w Hk Hp.
  - done.
  - destruct (step_keeps_settled_entry ev w k p ps Hev Hs Hk Hp) as [Hk' Hp'].
    by apply IH.
Qed.

Lemma read_fulfilled key f w p v :
  cache w !! key = Some p ->
  promises w !! p = Some (Fulfilled v) ->
  read key f w = (Host.Ready v, w).
Proof.
  intros Hk Hp. unfold read. rewrite (getCachedPromise_hit _ _ _ _ Hk).
  unfold Host.use. by rewrite Hp.
Qed.

Lemma read_rejected key f w p e :
  cache w !! key = Some p ->
  promises w !! p = Some (Rejected e) ->
  read key f w = (Host.Raise (Host.OperationFailed e), w).
Proof.
  intros Hk Hp. unfold read. rewrite (getCachedPromise_hit _ _ _ _ Hk).
  unfold Host.use. by rewrite Hp.
Qed.

Lemma fulfilled_read_stable (k : string) (p : PromiseId) (v : Value)
    (evs : list Event) (f : Fetcher) (w : World) :
  cache w !! k = Some p ->
  promises w !! p = Some (Fulfilled v) ->
  Forall (keeps k) evs ->
  read k f (run evs w) = (Host.Ready v, run evs w) ∧
  getCachedPromise k f (run evs w) = (Normal p, run evs w).
Proof.
  intros Hk Hp Hall.
  destruct (run_keeps_settled_entry evs w k p (Fulfilled v) Hall) as [Hk' Hp'];
    [done|done|done|].
  split; [by eapply read_fulfilled | by apply getCachedPromise_hit].
Qed.

Lemma rejected_read_stable (k : string) (p : PromiseId) (e : JsError)
    (evs : list Event) (f : Fetcher) (w : World) :
  cache w !! k = Some p ->
  promises w !! p = Some (Rejected e) ->
  Forall (keeps k) evs ->
  read k f (run evs w) = (Host.Raise (Host.OperationFailed e), run evs w).
Proof.
  intros Hk Hp Hall.
  destruct (run_keeps_settled_entry evs w k p (Rejected e) Hall) as [Hk' Hp'];
    [done|done|done|].
  by eapply read_rejected.
Qed.

End DemoTrace.

(** ** What the boundaries render *)
Section BoundaryRender.

Lemma demo_render_fallback_iff (props : SuspenseDemo.ErrorBoundaryProps)
    (st : ErrorBoundaryState) :
  (∃ c e, SuspenseDemo.render props st = SuspenseDemo.FallbackView c e)
  ↔ hasError st = true ∧ error st ≠ None.
Proof.
  unfold SuspenseDemo.render. destruct st as [[|] [e|]]; simpl.
  - split; [done|]. intros _. by eexists _, _.
  - split; [|by intros [_ ?]]. by intros (? & ? & ?).
  - split; [|by intros [? _]]. by intros (? & ? & ?).
  - split; [|by intros [? _]]. by intros (? & ? & ?).
Qed.

Lemma useapi_render_fallback_iff (st : ErrorBoundaryState) :
  (∃ e, UseApi.render st = UseApi.ErrorFallback e)
  ↔ hasError st = true ∧ error st ≠ None.
Proof.
  unfold UseApi.render. destruct st as [[|] [e|]]; simpl.
  - split; [done|]. intros _. by eexists.
  - split; [|by intros [_ ?]]. by intros (? & ?).
  - split; [|by intros [? _]]. by intros (? & ?).
  - split; [|by intros [? _]]. by intros (? & ?).
Qed.

End BoundaryRender.

(** ** Rendering the dashboard *)
Section DashboardRender.
Import SuspenseDemo.

Lemma reset_section_world (self k : string) (fb : option string) (app : App) :
  world (reset self (mkProps fb (Some (handleSectionReset k))) app)
  = cacheDelete k (world app).
Proof. done. Qed.

Lemma reset_section_boundaries (self k : string) (fb : option string) (app : App) :
  boundaries (reset self (mkProps fb (Some (handleSectionReset k))) app)
  = <[self := initialState]> (boundaries app).
Proof. done. Qed.

Lemma renderSection_keeps_entry (sec : DashboardSection) (app : App)
    (k : string) (p : PromiseId) (ps : PromiseState) :
  cache (world app) !! k = Some p ->
  promises (world app) !! p = Some ps ->
  cache (world (snd (renderSection sec app))) !! k = Some p ∧
  promises (world (snd (renderSection sec app))) !! p = Some ps.
Proof.
  intros Hk Hp. unfold renderSection.
  destruct (render (props sec) (boundaryState (sectionKey sec) app)); [done|].
  pose proof (read_keeps_entry (sectionKey sec) (fetcher sec) (world app) k p ps Hk Hp)
    as Hread.
  destruct (read (sectionKey sec) (fetcher sec) (world app)) as [r w1].
  simpl in Hread. destruct r as [v|[q|e]]; simpl; done.
Qed.

Lemma renderSection_other_boundary (sec : DashboardSection) (app : App) (s : string) :
  sectionKey sec ≠ s ->
  boundaries (snd (renderSection sec app)) !! s = boundaries app !! s.
Proof.
  intros Hne. unfold renderSection.
  destruct (render (props sec) (boundaryState (sectionKey sec) app)); [done|].
  destruct (read (sectionKey sec) (fetcher sec) (world app)) as [r w1].
  destruct r as [v|[q|e]]; simpl; try done.
  by rewrite lookup_insert_ne.
Qed.

Lemma renderSection_self_boundary (sec : DashboardSection) (app : App)
    (p : PromiseId) (ps : PromiseState) :
  cache (world app) !! sectionKey sec = Some p ->
  promises (world app) !! p = Some ps ->
  boundaries app !! sectionKey sec = Some initialState ∨
  boundaries app !! sectionKey sec = Some (stateFor ps) ->
  boundaries (snd (renderSection sec app)) !! sectionKey sec = Some (stateFor ps).
Proof.
  intros Hk Hp Hst. unfold renderSection, boundaryState, read.
  rewrite (getCachedPromise_hit _ _ _ _ Hk). unfold Host.use. rewrite Hp.
  destruct Hst as [Hst|Hst]; rewrite Hst; simpl.
  - destruct ps as [|v|e]; simpl; try done. by rewrite lookup_insert_eq.
  - destruct ps as [|v|e]; simpl; done.
Qed.

Lemma renderAll_keeps_entry (secs : list DashboardSection) (app : App)
    (k : string) (p : PromiseId) (ps : PromiseState) :
  cache (world app) !! k = Some p ->
  promises (world app) !! p = Some ps ->
  cache (world (renderAll secs app)) !! k = Some p ∧
  promises (world (renderAll secs app)) !! p = Some ps.
Proof.
  revert app. induction secs as [|sec secs IH]; intros app Hk Hp; [done|].
  simpl. destruct (renderSection_keeps_entry sec app k p ps Hk Hp) as [Hk' Hp'].
  by apply IH.
Qed.

Lemma renderAll_settled_boundary (secs : list DashboardSection) (app : App)
    (s : string) (p : PromiseId) (ps : PromiseState) :
  cache (world app) !! s = Some p ->
  promises (world app) !! p = Some ps ->
  boundaries app !! s = Some (stateFor ps) ->
  boundaries (renderAll secs app) !! s = Some (stateFor ps).
Proof.
  revert app. induction secs as [|sec secs IH]; intros app Hk Hp Hst; [done|].
  simpl. destruct (renderSection_keeps_entry sec app s p ps Hk Hp) as [Hk' Hp'].
  apply IH; [done|done|].
  destruct (decide (sectionKey sec = s)) as [<-|Hne].
  - apply (renderSection_self_boundary sec app p ps); auto.
  - by rewrite renderSection_other_boundary.
Qed.

Lemma renderAll_fresh_boundary (secs : list DashboardSection) (app : App)
    (s : string) (p : PromiseId) (ps : PromiseState) :
  cache (world app) !! s = Some p ->
  promises (world app) !! p = Some ps ->
  boundaries app !! s = Some initialState ->
  s ∈ sectionKey <$> secs ->
  boundaries (renderAll secs app) !! s = Some (stateFor ps).
Proof.
  revert app. induction secs as [|sec secs IH]; intros app Hk Hp Hst Hin.
  - by apply elem_of_nil in Hin.
  - simpl. destruct (renderSection_keeps_entry sec app s p ps Hk Hp) as [Hk' Hp'].
    destruct (decide (sectionKey sec = s)) as [<-|Hne].
    + apply (renderAll_settled_boundary _ _ _ p ps); [done|done|].
      apply (renderSection_self_boundary sec app p ps); auto.
    + apply IH; [done|done| |].
      * by rewrite renderSection_other_boundary.
      * rewrite fmap_cons in Hin. apply elem_of_cons in Hin as [Heq|Hin]; [|done].
        by symmetry in Heq.
Qed.

Lemma renderSection_cold (sec : DashboardSection) (app : App) :
  boundaryState (sectionKey sec) app = initialState ->
  fetcher sec = Returns Pending ->
  cache (world app) !! sectionKey sec = None ->
  renderSection sec app
  = (PlaceholderShown,
     setWorld
       (mkWorld (<[sectionKey sec := length (promises (world app))]> (cache (world app)))
                (promises (world app) ++ [Pending])
                (S (fetcherCalls (world app))))
       app).
Proof.
  intros Hst Hf Hc. unfold renderSection, read. rewrite Hst, Hf. simpl.
  rewrite (getCachedPromise_miss _ _ _ Hc). simpl.
  unfold Host.use. rewrite lookup_app_r by done. rewrite Nat.sub_diag. done.
Qed.

Lemma remount_world (app : App) : world (remount app) = world app.
Proof. unfold remount. by destruct (decide _). Qed.

Lemma remount_boundary (app : App) (s : string) (st : ErrorBoundaryState) :
  boundaries app !! s = Some st ->
  boundaries (remount app) !! s = Some st ∨
  boundaries (remount app) !! s = Some initialState.
Proof.
  intros Hst. unfold remount. destruct (decide _); [by left|right].
  simpl. by rewrite lookup_fmap, Hst.
Qed.

Lemma rerender_restores_boundary (secs : list DashboardSection) (app : App)
    (s : string) (p : PromiseId) (ps : PromiseState) :
  renderedFrom s p ps app ->
  s ∈ sectionKey <$> secs ->
  boundaries (rerender secs app) !! s = Some (stateFor ps).
Proof.
  intros (Hk & Hp & Hst) Hin. unfold rerender.
  destruct (remount_boundary app s _ Hst) as [H|H].
  - apply (renderAll_settled_boundary _ _ _ p ps); by rewrite ?remount_world.
  - apply (renderAll_fresh_boundary _ _ _ p ps); by rewrite ?remount_world.
Qed.

Lemma capture_frame (sB sA : string) (e : JsError) (app : App) :
  sA ≠ sB ->
  boundaries (capture sB e app) !! sA = boundaries app !! sA ∧
  world (capture sB e app) = world app.
Proof. intros Hne. split; [|done]. simpl. by rewrite lookup_insert_ne. Qed.

Lemma reset_frame (sB sA : string) (fb : option string) (app : App) :
  sA ≠ sB ->
  boundaries (reset sB (mkProps fb (Some (handleSectionReset sB))) app) !! sA
    = boundaries app !! sA ∧
  (∀ k, k ≠ sB ->
     cache (world (reset sB (mkProps fb (Some (handleSectionReset sB))) app)) !! k
     = cache (world app) !! k) ∧
  promises (world (reset sB (mkProps fb (Some (handleSectionReset sB))) app))
    = promises (world app).
Proof.
  intros Hne. split; [|split; [|done]].
  - rewrite reset_section_boundaries. by rewrite lookup_insert_ne.
  - intros k Hk. rewrite reset_section_world. simpl. by rewrite lookup_delete_ne.
Qed.

End DashboardRender.

(** ** Signals reach only boundaries of their kind *)
Section SignalRouting.
Import Host.

Variable derive : option JsError -> ErrorBoundaryState.

Lemma pending_skips_recovery (p : PromiseId) (path : list Boundary) :
  filter (fun b => isRecovery b = true) (propagate derive (NotReady p) path)
  = filter (fun b => isRecovery b = true) path.
Proof.
  induction path as [|[w|st] outer IH]; simpl; [done| |].
  - by rewrite !filter_cons_False by (simpl; congruence).
  - rewrite !filter_cons_True by done. by rewrite IH.
Qed.

Lemma failure_skips_suspension (e : JsError) (path : list Boundary) :
  filter (fun b => isSuspension b = true) (propagate derive (OperationFailed e) path)
  = filter (fun b => isSuspension b = true) path.
Proof.
  induction path as [|[w|st] outer IH]; simpl; [done| |].
  - rewrite !filter_cons_True by done. by rewrite IH.
  - by rewrite !filter_cons_False by (simpl; congruence).
Qed.

Lemma interceptor_matches (sig : Signal) (path : list Boundary) :
  match interceptor sig path with
  | Some i => matches sig <$> path !! i = Some true
  | None => Forall (fun b => matches sig b = false) path
  end.
Proof.
  induction path as [|b outer IH]; simpl; [done|].
  destruct (matches sig b) eqn:Hm; simpl; [by rewrite Hm|].
  destruct (interceptor sig outer) as [i|]; simpl; [done|].
  by constructor.
Qed.

Lemma propagate_length (sig : Signal) (path : list Boundary) :
  length (propagate derive sig path) = length path.
Proof.
  induction path as [|[w|st] outer IH]; destruct sig; simpl; auto.
Qed.

End SignalRouting.

(** ** The continuation of [cachedFetch] *)
Section CatchContinuation.

Lemma foldl_delete_lookup (keys : list string) (c : gmap string nat) (k : string) :
  foldl (fun c key => delete key c) c keys !! k
  = if decide (k ∈ keys) then None else c !! k.
Proof.
  revert c. induction keys as [|key keys IH]; intros c; cbn [foldl].
  - case_decide as Hin; [by apply elem_of_nil in Hin|done].
  - rewrite IH.
    destruct (decide (k ∈ keys)) as [Hin|Hin];
      destruct (decide (k ∈ key :: keys)) as [Hin'|Hin']; try done.
    + exfalso. apply Hin'. by apply elem_of_cons; right.
    + apply elem_of_cons in Hin' as [->|?]; [|done]. apply lookup_delete_eq.
    + rewrite lookup_delete_ne; [done|]. intros ->. apply Hin'.
      by apply elem_of_cons; left.
Qed.

Lemma cachedFetch_miss_calls (key : string) (f : Fetcher) (w : PromiseCache.World) :
  PromiseCache.cache w !! key = None ->
  PromiseCache.fetcherCalls (snd (PromiseCache.cachedFetch key f w))
  = S (PromiseCache.fetcherCalls w).
Proof.
  intros H. unfold PromiseCache.cachedFetch. rewrite H.
  destruct f as [s|e]; simpl; [|done].
  unfold PromiseCache.promiseCatch. simpl.
  by destruct ((PromiseCache.promises w ++ [s]) !! length (PromiseCache.promises w))
    as [[| |]|].
Qed.

Lemma cachedFetch_miss_result (key : string) (s : PromiseState) (w : PromiseCache.World) :
  PromiseCache.cache w !! key = None ->
  fst (PromiseCache.cachedFetch key (Returns s) w)
  = Normal (length (PromiseCache.promises w)).
Proof. intros H. unfold PromiseCache.cachedFetch. by rewrite H. Qed.

Lemma cachedFetch_attaches_handler (key : string) (w : PromiseCache.World) :
  PromiseCache.cache w !! key = None ->
  (length (PromiseCache.promises w), key)
    ∈ PromiseCache.catchHandlers (snd (PromiseCache.cachedFetch key (Returns Pending) w)).
Proof.
  intros H. unfold PromiseCache.cachedFetch. rewrite H. simpl.
  unfold PromiseCache.promiseCatch. simpl.
  rewrite lookup_app_r by done. rewrite Nat.sub_diag. simpl.
  apply elem_of_app. right. by apply list_elem_of_singleton.
Qed.

Lemma rejection_removes_entry (key : string) (p : PromiseId) (e : JsError)
    (w : PromiseCache.World) :
  PromiseCache.promises w !! p = Some Pending ->
  (p, key) ∈ PromiseCache.catchHandlers w ->
  PromiseCache.cache
    (PromiseCache.runMicrotasks (PromiseCache.settle p (RejectWith e) w)) !! key = None.
Proof.
  intros Hp Hin. unfold PromiseCache.runMicrotasks, PromiseCache.settle.
  rewrite Hp. simpl. rewrite foldl_delete_lookup. rewrite decide_True; [done|].
  apply elem_of_app. right. unfold PromiseCache.handlersOf.
  apply list_elem_of_fmap. exists (p, key). split; [done|].
  by apply list_elem_of_filter.
Qed.

End CatchContinuation.

(** ** Cache hits and misses of [wrapPromise] *)
Section WrapHits.
Import SuspenseLib.

Lemma truthyKey_Some (k : string) : k ≠ "" -> truthyKey (Some k) = Some k.
Proof. intros H. unfold truthyKey. by rewrite decide_False. Qed.

Lemma truthyKey_inv (ck : option string) (k : string) :
  truthyKey ck = Some k -> ck = Some k ∧ k ≠ "".
Proof.
  destruct ck as [k'|]; simpl; [|done].
  destruct (decide (k' = "")); [done|]. by intros [= ->].
Qed.

Lemma wrapPromise_hit (k : string) (r : ResourceId) (res : SuspenseCache)
    (pr : PromiseId) (w : World) :
  k ≠ "" ->
  cache w !! k = Some r ->
  resources w !! r = Some res ->
  wrapPromise pr (Some k) w
  = (match status res with
     | fulfilled => Return (CachedValueReader r)
     | rejected => Raise (throwError res)
     | pending => Raise (throwPromise res)
     end, w).
Proof.
  intros Hk Hc Hr. unfold wrapPromise.
  rewrite (truthyKey_Some _ Hk). simpl. rewrite Hc, Hr.
  by destruct (status res).
Qed.

Lemma wrapPromise_miss (pr : PromiseId) (ck : option string) (w : World) :
  truthyKey ck ≫= (fun k => cache w !! k) = None ->
  fst (wrapPromise pr ck w) = Return (ResourceReader (length (resources w))) ∧
  cache (snd (wrapPromise pr ck w)) = cache w ∧
  length (resources (snd (wrapPromise pr ck w))) = S (length (resources w)).
Proof.
  intros H. unfold wrapPromise. rewrite H. simpl.
  unfold promiseThen; simpl.
  destruct (promises w !! pr) as [[| |]|]; simpl; rewrite ?length_app; simpl;
    repeat split; try done; lia.
Qed.

Lemma readThrough_fulfilled (k : string) (r : ResourceId) (res : SuspenseCache)
    (v : Value) (pr : PromiseId) (w : World) :
  k ≠ "" ->
  cache w !! k = Some r ->
  resources w !! r = Some res ->
  status res = fulfilled ->
  value res = Some v ->
  readThrough pr (Some k) w = (Return (Some v), w).
Proof.
  intros Hk Hc Hr Hs Hv. unfold readThrough.
  rewrite (wrapPromise_hit k r res pr w Hk Hc Hr), Hs. simpl.
  by rewrite Hr, Hv.
Qed.

Lemma readThrough_rejected (k : string) (r : ResourceId) (res : SuspenseCache)
    (e : JsError) (pr : PromiseId) (w : World) :
  k ≠ "" ->
  cache w !! k = Some r ->
  resources w !! r = Some res ->
  status res = rejected ->
  error res = Some e ->
  readThrough pr (Some k) w = (Raise (ThrownError e), w).
Proof.
  intros Hk Hc Hr Hs He. unfold readThrough.
  rewrite (wrapPromise_hit k r res pr w Hk Hc Hr), Hs.
  unfold throwError. by rewrite He.
Qed.

Lemma renders_constant (o : Outcome (option Value)) (ck : option string)
    (ps : list PromiseId) (w : World) :
  (∀ pr, readThrough pr ck w = (o, w)) ->
  renders ps ck w = (replicate (length ps) o, w).
Proof.
  intros H. induction ps as [|pr ps IH]; simpl; [done|].
  by rewrite H, IH.
Qed.

End WrapHits.

(** ** The invariant of [wrapPromise]'s module state *)
Section WrapInvariant.
Import SuspenseLib.

Lemma Forall_filter_keep {A : Type} (P Q : A -> Prop) `{!∀ x, Decision (Q x)}
    (l : list A) :
  Forall P l -> Forall P (filter Q l).
Proof.
  rewrite !Forall_forall. intros HP x Hx.
  apply list_elem_of_filter in Hx as [_ Hx]. by apply HP.
Qed.

Lemma settleResource_wellFormed (o : Settlement) (res : SuspenseCache) :
  wellFormed (settleResource o res).
Proof. destruct o; unfold wellFormed; simpl; eauto. Qed.

Lemma settleResource_settled (o : Settlement) (res : SuspenseCache) :
  status (settleResource o res) ≠ pending.
Proof. by destruct o. Qed.

Lemma consistent_empty : consistent emptyWorld.
Proof.
  unfold consistent, emptyWorld; simpl.
  repeat split; try constructor. intros k r H. by rewrite lookup_empty in H.
Qed.

Lemma runReaction_consistent (job : Reaction * Settlement) (w : World) :
  target (fst job) < length (resources w) ->
  consistent w ->
  consistent (runReaction job w).
Proof.
  destruct job as [rx o]. simpl. intros Hlt (Hwf & Hrs & Hms & Hc).
  unfold consistent, runReaction; simpl. rewrite length_alter.
  split; [|split; [done|split; [done|]]].
  - apply Forall_alter; [done|]. intros res _ _. apply settleResource_wellFormed.
  - assert (Hkeep : ∀ k r, cache w !! k = Some r ->
              ∃ res, alter (settleResource o) (target rx) (resources w) !! r = Some res
                     ∧ status res ≠ pending).
    { intros k r Hk. destruct (Hc k r Hk) as (res & Hr & Hs).
      destruct (decide (target rx = r)) as [->|Hne].
      - exists (settleResource o res). rewrite list_lookup_alter_eq, Hr.
        split; [done|]. apply settleResource_settled.
      - exists res. by rewrite list_lookup_alter_ne. }
    destruct (truthyKey (reactionKey rx)) as [k'|]; [|done].
    intros k r Hk. destruct (decide (k' = k)) as [->|Hne].
    + rewrite lookup_insert_eq in Hk. injection Hk as <-.
      destruct (lookup_lt_is_Some_2 _ _ Hlt) as [res Hr].
      exists (settleResource o res). rewrite list_lookup_alter_eq, Hr.
      split; [done|]. apply settleResource_settled.
    + rewrite lookup_insert_ne in Hk by done. by eapply Hkeep.
Qed.

Lemma runReaction_resources_length (job : Reaction * Settlement) (w : World) :
  length (resources (runReaction job w)) = length (resources w).
Proof. destruct job as [rx o]. simpl. apply length_alter. Qed.

Lemma runJobs_consistent (jobs : list (Reaction * Settlement)) (w : World) :
  Forall (fun job => target (fst job) < length (resources w)) jobs ->
  consistent w ->
  consistent (runJobs jobs w).
Proof.
  revert w. induction jobs as [|job jobs IH]; intros w Hjobs Hw; [done|].
  apply Forall_cons in Hjobs as [Hj Hjobs]. simpl. apply IH.
  - by rewrite runReaction_resources_length.
  - by apply runReaction_consistent.
Qed.

Lemma runMicrotasks_consistent (w : World) :
  consistent w -> consistent (runMicrotasks w).
Proof.
  intros (Hwf & Hrs & Hms & Hc). unfold runMicrotasks.
  apply runJobs_consistent; [done|].
  unfold consistent; simpl. repeat split; done.
Qed.

Lemma settle_consistent (p : PromiseId) (o : Settlement) (w : World) :
  consistent w -> consistent (settle p o w).
Proof.
  intros (Hwf & Hrs & Hms & Hc). unfold settle.
  destruct (promises w !! p) as [[| |]|]; try done.
  unfold consistent; simpl. split; [done|]. split; [|split; [|done]].
  - by apply Forall_filter_keep.
  - apply Forall_app. split; [done|].
    apply Forall_fmap. unfold reactionsOf. apply Forall_fmap.
    apply Forall_filter_keep. eapply Forall_impl; [exact Hrs|]. by intros [q rx].
Qed.

Lemma promiseThen_consistent (p : PromiseId) (rx : Reaction) (w : World) :
  target rx < length (resources w) ->
  consistent w -> consistent (promiseThen p rx w).
Proof.
  intros Hlt (Hwf & Hrs & Hms & Hc). unfold promiseThen.
  destruct (promises w !! p) as [[| |]|]; try done;
    unfold consistent; simpl; repeat split; try done;
    apply Forall_app; split; try done; by constructor.
Qed.

Lemma wrapPromise_consistent (pr : PromiseId) (ck : option string) (w : World) :
  consistent w -> consistent (snd (wrapPromise pr ck w)).
Proof.
  intros Hw. unfold wrapPromise.
  destruct (truthyKey ck ≫= fun k => cache w !! k) as [r|].
  { destruct (resources w !! r) as [cached|]; [|done]. by destruct (status cached). }
  simpl. apply promiseThen_consistent; simpl.
  { rewrite length_app. simpl. lia. }
  destruct Hw as (Hwf & Hrs & Hms & Hc). unfold consistent; simpl.
  rewrite length_app. simpl. split; [|split; [|split]].
  - apply Forall_app. split; [done|]. constructor; [|done].
    unfold wellFormed. simpl. eauto.
  - eapply Forall_impl; [exact Hrs|]. simpl. intros; lia.
  - eapply Forall_impl; [exact Hms|]. simpl. intros; lia.
  - intros k r Hk. destruct (Hc k r Hk) as (res & Hr & Hs).
    exists res. split; [|done]. by apply lookup_app_l_Some.
Qed.

Lemma step_consistent (ev : Event) (w : World) :
  consistent w -> consistent (step ev w).
Proof.
  intros Hw. destruct ev as [s|pr ck|p o| |key|]; simpl.
  - done.
  - by apply wrapPromise_consistent.
  - by apply settle_consistent.
  - by apply runMicrotasks_consistent.
  - destruct Hw as (Hwf & Hrs & Hms & Hc). unfold consistent; simpl.
    repeat split; try done. intros k r Hk.
    apply lookup_delete_Some in Hk as [_ Hk]. by eapply Hc.
  - destruct Hw as (Hwf & Hrs & Hms & Hc). unfold consistent; simpl.
    repeat split; done.
Qed.

Lemma run_consistent (evs : list Event) (w : World) :
  consistent w -> consistent (run evs w).
Proof.
  revert w. induction evs as [|ev evs IH]; intros w Hw; [done|].
  simpl. apply IH. by apply step_consistent.
Qed.

(** The pending branch of the cache check ([throw cached.promise]) never runs:
    a resource enters the cache only in a settlement continuation. *)
Lemma cached_resource_never_pending (evs : list Event) (k : string) (r : ResourceId) :
  cache (run evs emptyWorld) !! k = Some r ->
  ∃ res, resources (run evs emptyWorld) !! r = Some res ∧ status res ≠ pending.
Proof.
  intros Hk.
  destruct (run_consistent evs emptyWorld consistent_empty) as (_ & _ & _ & Hc).
  by eapply Hc.
Qed.

Lemma readResource_wellFormed (res : SuspenseCache) :
  wellFormed res ->
  (status res = fulfilled ∧ ∃ v, value res = Some v ∧ readResource res = Return (Some v)) ∨
  (status res = rejected ∧ ∃ e, error res = Some e ∧ readResource res = Raise (ThrownError e)) ∨
  (status res = pending ∧ ∃ p, promise res = Some p ∧ readResource res = Raise (ThrownPromise p)).
Proof.
  unfold wellFormed, readResource, throwError, throwPromise.
  destruct res as [[| |] v e p]; simpl; intros [x ->].
  - right. right. eauto.
  - left. eauto.
  - right. left. eauto.
Qed.

End WrapInvariant.

(** ** A settled entry with no other operation in flight stays *)
Section QuietEntry.
Import SuspenseLib.

Variables (k : string) (r : ResourceId) (res : SuspenseCache).

Lemma promiseThen_keeps_quiet_entry (p : PromiseId) (rx : Reaction) (w : World) :
  detached k r rx ->
  quiet k r w ->
  cache (promiseThen p rx w) = cache w ∧
  resources (promiseThen p rx w) = resources w ∧
  quiet k r (promiseThen p rx w).
Proof.
  intros Hrx [Hrs Hms]. unfold promiseThen.
  destruct (promises w !! p) as [[| |]|]; simpl; repeat split; try done;
    apply Forall_app; split; try done; by constructor.
Qed.

Lemma settle_keeps_quiet_entry (p : PromiseId) (o : Settlement) (w : World) :
  quiet k r w ->
  cache (settle p o w) = cache w ∧
  resources (settle p o w) = resources w ∧
  quiet k r (settle p o w).
Proof.
  intros [Hrs Hms]. unfold settle.
  destruct (promises w !! p) as [[| |]|]; simpl; repeat split; try done.
  - by apply Forall_filter_keep.
  - apply Forall_app. split; [done|].
    apply Forall_fmap. unfold reactionsOf. apply Forall_fmap.
    apply Forall_filter_keep. eapply Forall_impl; [exact Hrs|]. by intros [q rx].
Qed.

Lemma runReaction_detached (job : Reaction * Settlement) (w : World) :
  detached k r (fst job) ->
  cache (runReaction job w) !! k = cache w !! k ∧
  resources (runReaction job w) !! r = resources w !! r ∧
  reactions (runReaction job w) = reactions w ∧
  microtasks (runReaction job w) = microtasks w.
Proof.
  destruct job as [rx o]. simpl. intros [Hkey Htarget].
  split; [|split; [|done]].
  - destruct (truthyKey (reactionKey rx)) as [k'|]; [|done].
    rewrite lookup_insert_ne; [done|]. congruence.
  - by rewrite list_lookup_alter_ne.
Qed.

Lemma runJobs_detached (jobs : list (Reaction * Settlement)) (w : World) :
  Forall (fun job => detached k r (fst job)) jobs ->
  cache (runJobs jobs w) !! k = cache w !! k ∧
  resources (runJobs jobs w) !! r = resources w !! r ∧
  reactions (runJobs jobs w) = reactions w ∧
  microtasks (runJobs jobs w) = microtasks w.
Proof.
  revert w. induction jobs as [|job jobs IH]; intros w Hjobs; [done|].
  apply Forall_cons in Hjobs as [Hj Hjobs]. simpl.
  destruct (runReaction_detached job w Hj) as (H1 & H2 & H3 & H4).
  destruct (IH (runReaction job w) Hjobs) as (G1 & G2 & G3 & G4).
  by rewrite G1, G2, G3, G4.
Qed.

Lemma step_keeps_quiet_entry (ev : Event) (w : World) :
  keeps k ev ->
  cache w !! k = Some r ->
  resources w !! r = Some res ->
  quiet k r w ->
  cache (step ev w) !! k = Some r ∧
  resources (step ev w) !! r = Some res ∧
  quiet k r (step ev w).
Proof.
  intros Hkeep Hc Hr Hq. destruct ev as [s|pr ck|p o| |key|]; simpl in *.
  - done.
  - unfold wrapPromise.
    destruct (truthyKey ck ≫= fun k0 => cache w !! k0) as [r'|] eqn:Hhit.
    { destruct (resources w !! r') as [cached|]; [|done]. by destruct (status cached). }
    simpl.
    assert (Hrx : detached k r (mkReaction (length (resources w)) ck)).
    { split; simpl.
      - intros Hck. rewrite Hck in Hhit. simpl in Hhit. congruence.
      - apply lookup_lt_Some in Hr. lia. }
    match goal with
    | |- context [promiseThen pr ?rx ?w1] =>
        destruct (promiseThen_keeps_quiet_entry pr rx w1 Hrx) as (H1 & H2 & H3);
          [by destruct Hq|]; rewrite H1, H2
    end.
    simpl. split; [done|]. split; [by apply lookup_app_l_Some|done].
  - destruct (settle_keeps_quiet_entry p o w Hq) as (H1 & H2 & H3).
    by rewrite H1, H2.
  - destruct Hq as [Hrs Hms]. unfold runMicrotasks.
    match goal with
    | |- context [runJobs ?jobs ?w1] =>
        destruct (runJobs_detached jobs w1 Hms) as (H1 & H2 & H3 & H4)
    end.
    rewrite H1, H2. unfold quiet. rewrite H3, H4. simpl. by repeat split.
  - split; [by rewrite lookup_delete_ne|done].
  - done.
Qed.

Lemma run_keeps_quiet_entry (evs : list Event) (w : World) :
  Forall (keeps k) evs ->
  cache w !! k = Some r ->
  resources w !! r = Some res ->
  quiet k r w ->
  cache (run evs w) !! k = Some r ∧
  resources (run evs w) !! r = Some res ∧
  quiet k r (run evs w).
Proof.
  intros Hall. revert w. induction Hall as [|ev evs Hev _ IH]; intros w Hc Hr Hq.
  - done.
  - destruct (step_keeps_quiet_entry ev w Hev Hc Hr Hq) as (Hc' & Hr' & Hq').
    by apply IH.
Qed.

End QuietEntry.

(** ** What a settlement does to the cache *)
Section SettlementEffect.
Import SuspenseLib.

Lemma runReaction_cache_lookup (job : Reaction * Settlement) (w : World) (k : string) :
  cache (runReaction job w) !! k
  = if decide (truthyKey (reactionKey (fst job)) = Some k)
    then Some (target (fst job)) else cache w !! k.
Proof.
  destruct job as [rx o]. simpl.
  destruct (truthyKey (reactionKey rx)) as [k'|] eqn:Hk'.
  - destruct (decide (Some k' = Some k)) as [[= ->]|Hne].
    + by rewrite lookup_insert_eq.
    + rewrite lookup_insert_ne; [done|]. congruence.
  - by rewrite decide_False.
Qed.

Lemma runJobs_cache_lookup (jobs : list (Reaction * Settlement)) (w : World) (k : string) :
  cache (runJobs jobs w) !! k
  = match last (filter (fun job => truthyKey (reactionKey (fst job)) = Some k) jobs) with
    | Some job => Some (target (fst job))
    | None => cache w !! k
    end.
Proof.
  revert w. induction jobs as [|job jobs IH]; intros w; [done|].
  simpl. rewrite IH, runReaction_cache_lookup, filter_cons.
  destruct (decide (truthyKey (reactionKey (fst job)) = Some k)); [|done].
  rewrite last_cons. by destruct (last _).
Qed.

Lemma filter_jobs_of_reactions (k : string) (o : Settlement) (rxs : list Reaction) :
  filter (fun job : Reaction * Settlement => truthyKey (reactionKey (fst job)) = Some k)
    ((fun rx => (rx, o)) <$> rxs)
  = (fun rx => (rx, o)) <$> filter (fun rx => truthyKey (reactionKey rx) = Some k) rxs.
Proof.
  induction rxs as [|rx rxs IH]; [done|].
  rewrite fmap_cons, !filter_cons. simpl.
  destruct (decide (truthyKey (reactionKey rx) = Some k)); by rewrite IH.
Qed.

Lemma settlement_cache_lookup (p : PromiseId) (o : Settlement) (w : World)
    (k : string) (rx : Reaction) :
  promises w !! p = Some Pending ->
  last (keyedReactions k p w) = Some rx ->
  cache (settlement p o w) !! k = Some (target rx).
Proof.
  intros Hp Hlast. unfold settlement, runMicrotasks, settle. rewrite Hp. simpl.
  rewrite runJobs_cache_lookup, filter_app, last_app.
  rewrite filter_jobs_of_reactions, fmap_last.
  unfold keyedReactions in Hlast. by rewrite Hlast.
Qed.

Lemma settlement_resource_settled (p : PromiseId) (o : Settlement) (w : World)
    (k : string) (r : ResourceId) :
  consistent w ->
  cache (settlement p o w) !! k = Some r ->
  ∃ res, resources (settlement p o w) !! r = Some res ∧ status res ≠ pending.
Proof.
  intros Hw Hk.
  assert (Hc : consistent (settlement p o w)).
  { unfold settlement. by apply runMicrotasks_consistent, settle_consistent. }
  destruct Hc as (_ & _ & _ & Hc). by eapply Hc.
Qed.

End SettlementEffect.

(** * The claims *)

(** ** C1: reads of a key before its operation settles *)
Section PendingReads.
Import SuspenseLib.

(** C1, the code at the failing input.  Two promises are pending.  Two reads
    of the key ["tasks"] before either settles get two different resources
    (indices 0 and 1); the cache holds no entry for ["tasks"] after the first
    read nor after the second; two continuations are waiting, one for each
    resource.  (For [getCachedPromise] see [getCachedPromise_deduplicates].) *)
Theorem wrapPromise_pending_reads_not_shared :
  let w0 := run [ENewPromise Pending; ENewPromise Pending] emptyWorld in
  let w1 := snd (wrapPromise 0 (Some "tasks") w0) in
  let w2 := snd (wrapPromise 1 (Some "tasks") w1) in
  fst (wrapPromise 0 (Some "tasks") w0) = Return (ResourceReader 0) ∧
  fst (wrapPromise 1 (Some "tasks") w1) = Return (ResourceReader 1) ∧
  cache w1 !! "tasks" = None ∧
  cache w2 !! "tasks" = None ∧
  resources w2 = [mkResource pending None None (Some 0);
                  mkResource pending None None (Some 1)] ∧
  reactions w2 = [(0, mkReaction 0 (Some "tasks")); (1, mkReaction 1 (Some "tasks"))] ∧
  fst (wrapPromise 0 (Some "tasks") w1) = Return (ResourceReader 1).
Proof. repeat split; reflexivity. Qed.

End PendingReads.

(** ** C2: reads after a rejection *)
Section RejectedReads.

(** C2, counter-example.  [cachedFetch "task-1"] starts an operation, which
    rejects with ["unavailable"].  The [catch] continuation removes the entry,
    and the next [cachedFetch "task-1"] does not hand back the rejected
    operation: it invokes the producer a second time and returns a new pending
    promise. *)
Lemma cachedFetch_refetches_after_rejection :
  let w0 := PromiseCache.mkWorld ∅ [] [] [] 0 in
  let w1 := snd (PromiseCache.cachedFetch "task-1" (Returns Pending) w0) in
  let w2 := PromiseCache.runMicrotasks (PromiseCache.settle 0 (RejectWith "unavailable") w1) in
  let w3 := snd (PromiseCache.cachedFetch "task-1" (Returns Pending) w2) in
  fst (PromiseCache.cachedFetch "task-1" (Returns Pending) w0) = Normal 0 ∧
  PromiseCache.promises w2 !! 0 = Some (Rejected "unavailable") ∧
  PromiseCache.cache w2 !! "task-1" = None ∧
  fst (PromiseCache.cachedFetch "task-1" (Returns Pending) w2) = Normal 1 ∧
  PromiseCache.promises w3 !! 1 = Some Pending ∧
  PromiseCache.fetcherCalls w2 = 1 ∧
  PromiseCache.fetcherCalls w3 = 2.
Proof. repeat split; reflexivity. Qed.

(** The rejected counterpart of the second operation in flight (the defect of
    C1): two reads of ["stats"] while its operation is pending start the
    operations 0 and 1.  Operation 0 rejects, and the read of the key throws
    its error; operation 1 then fulfils with 2, and the read returns 2. *)
Lemma rejected_read_changes_with_second_operation :
  let w0 := SuspenseLib.run [SuspenseLib.ENewPromise Pending;
                             SuspenseLib.ENewPromise Pending]
                            SuspenseLib.emptyWorld in
  let w1 := snd (SuspenseLib.wrapPromise 0 (Some "stats") w0) in
  let w2 := snd (SuspenseLib.wrapPromise 1 (Some "stats") w1) in
  let w3 := SuspenseLib.settlement 0 (RejectWith "unavailable") w2 in
  let w4 := SuspenseLib.settlement 1 (FulfilWith 2) w3 in
  SuspenseLib.readThrough 9 (Some "stats") w3
    = (SuspenseLib.Raise (SuspenseLib.ThrownError "unavailable"), w3) ∧
  ¬ SuspenseLib.quiet "stats" 0 w3 ∧
  SuspenseLib.readThrough 9 (Some "stats") w4 = (SuspenseLib.Return (Some 2), w4).
Proof.
  split; [reflexivity|]. split; [|reflexivity].
  intros [Hrs _]. apply Forall_cons in Hrs as [[Hkey _] _]. by apply Hkey.
Qed.

(** C2, as amended.  After the operation of a key has rejected with [e]:
    - [wrapPromise]: as long as no other operation of the key is in flight,
      every later read of the key throws [e] and leaves the module's state as
      it is: any number of successive reads do, and so does a read after any
      events that do not invalidate the key (new promises, reads of any key,
      settlements, continuations);
    - the demo's [getCachedPromise]: after any events that do not invalidate
      the key, the read raises the failure [e] and runs no producer;
    - [cachedFetch]: the rejection removes the entry of the key, so the next
      [cachedFetch] for it invokes the producer again and, with an [async]
      producer, returns a promise that did not exist before. *)
Theorem rejected_reads
    (k : string) (r : SuspenseLib.ResourceId) (res : SuspenseLib.SuspenseCache)
    (e : JsError) (ps : list PromiseId) (evs' : list SuspenseLib.Event)
    (u : SuspenseLib.World)
    (k1 : string) (p1 : PromiseId) (evs : list SuspenseDemo.Event) (f1 : Fetcher)
    (w : SuspenseDemo.World)
    (k2 : string) (p2 : PromiseId) (f2 : Fetcher) (c : PromiseCache.World) :
  k ≠ "" ->
  SuspenseLib.cache u !! k = Some r ->
  SuspenseLib.resources u !! r = Some res ->
  SuspenseLib.status res = SuspenseLib.rejected ->
  SuspenseLib.error res = Some e ->
  SuspenseDemo.cache w !! k1 = Some p1 ->
  SuspenseDemo.promises w !! p1 = Some (Rejected e) ->
  Forall (SuspenseDemo.keeps k1) evs ->
  PromiseCache.cache c !! k2 = Some p2 ->
  PromiseCache.promises c !! p2 = Some Pending ->
  (p2, k2) ∈ PromiseCache.catchHandlers c ->
  let c' := PromiseCache.runMicrotasks (PromiseCache.settle p2 (RejectWith e) c) in
  (SuspenseLib.renders ps (Some k) u
     = (replicate (length ps) (SuspenseLib.Raise (SuspenseLib.ThrownError e)), u) ∧
   (SuspenseLib.quiet k r u ->
    Forall (SuspenseLib.keeps k) evs' ->
    ∀ pr, SuspenseLib.readThrough pr (Some k) (SuspenseLib.run evs' u)
          = (SuspenseLib.Raise (SuspenseLib.ThrownError e), SuspenseLib.run evs' u))) ∧
  SuspenseDemo.read k1 f1 (SuspenseDemo.run evs w)
    = (Host.Raise (Host.OperationFailed e), SuspenseDemo.run evs w) ∧
  PromiseCache.promises c' !! p2 = Some (Rejected e) ∧
  PromiseCache.cache c' !! k2 = None ∧
  PromiseCache.fetcherCalls (snd (PromiseCache.cachedFetch k2 f2 c'))
    = S (PromiseCache.fetcherCalls c) ∧
  fst (PromiseCache.cachedFetch k2 (Returns Pending) c')
    = Normal (length (PromiseCache.promises c)).
Proof.
  intros Hk Hc Hr Hs He Hk1 Hp1 Hall Hk2 Hp2 Hin c'.
  assert (Hnone : PromiseCache.cache c' !! k2 = None)
    by by apply rejection_removes_entry.
  assert (Hcalls : PromiseCache.fetcherCalls c' = PromiseCache.fetcherCalls c).
  { subst c'. unfold PromiseCache.runMicrotasks, PromiseCache.settle. by rewrite Hp2. }
  assert (Hproms : PromiseCache.promises c'
                   = <[p2 := Rejected e]> (PromiseCache.promises c)).
  { subst c'. unfold PromiseCache.runMicrotasks, PromiseCache.settle. by rewrite Hp2. }
  split; [split|split; [|split; [|split; [done|split]]]].
  - apply renders_constant. intros pr. by apply (readThrough_rejected k r res).
  - intros Hq Hall' pr.
    destruct (run_keeps_quiet_entry k r res evs' u Hall' Hc Hr Hq) as (Hc' & Hr' & _).
    by apply (readThrough_rejected k r res).
  - by apply (rejected_read_stable k1 p1).
  - rewrite Hproms. apply list_lookup_insert_eq. by eapply lookup_lt_Some.
  - rewrite <- Hcalls. by apply cachedFetch_miss_calls.
  - rewrite (cachedFetch_miss_result _ _ _ Hnone).
    by rewrite Hproms, length_insert.
Qed.

Lemma rejected_reads_witness :
  let res := SuspenseLib.mkResource SuspenseLib.rejected None (Some "unavailable") (Some 0) in
  let u := SuspenseLib.mkWorld {["activities" := 0]} [res] [Rejected "unavailable"] [] [] in
  let evs' := [SuspenseLib.ENewPromise Pending;
               SuspenseLib.EWrap 1 (Some "activities");
               SuspenseLib.EWrap 1 (Some "stats");
               SuspenseLib.ESettle 1 (FulfilWith 7);
               SuspenseLib.ERunMicrotasks] in
  let w := SuspenseDemo.mkWorld {["activities" := 0]} [Rejected "unavailable"] 1 in
  let evs := [SuspenseDemo.ERead "activities" (Returns Pending);
              SuspenseDemo.ERead "stats" (Returns Pending);
              SuspenseDemo.EDelete "stats"] in
  let c := snd (PromiseCache.cachedFetch "activities" (Returns Pending)
                  (PromiseCache.mkWorld ∅ [] [] [] 0)) in
  let c' := PromiseCache.runMicrotasks
              (PromiseCache.settle 0 (RejectWith "unavailable") c) in
  SuspenseLib.renders [4; 5] (Some "activities") u
    = (replicate 2 (SuspenseLib.Raise (SuspenseLib.ThrownError "unavailable")), u) ∧
  SuspenseLib.readThrough 9 (Some "activities") (SuspenseLib.run evs' u)
    = (SuspenseLib.Raise (SuspenseLib.ThrownError "unavailable"), SuspenseLib.run evs' u) ∧
  SuspenseDemo.read "activities" (Returns Pending) (SuspenseDemo.run evs w)
    = (Host.Raise (Host.OperationFailed "unavailable"), SuspenseDemo.run evs w) ∧
  PromiseCache.promises c' !! 0 = Some (Rejected "unavailable") ∧
  PromiseCache.cache c' !! "activities" = None ∧
  PromiseCache.fetcherCalls (snd (PromiseCache.cachedFetch "activities" (Returns Pending) c'))
    = 2 ∧
  fst (PromiseCache.cachedFetch "activities" (Returns Pending) c') = Normal 1.
Proof.
  intros res u evs' w evs c c'.
  assert (Hne : "activities" ≠ "") by discriminate.
  assert (Hall : Forall (SuspenseDemo.keeps "activities") evs)
    by (repeat constructor; discriminate).
  assert (Hall' : Forall (SuspenseLib.keeps "activities") evs')
    by (repeat constructor; discriminate).
  assert (Hq : SuspenseLib.quiet "activities" 0 u) by (split; constructor).
  assert (Hin : (0, "activities") ∈ PromiseCache.catchHandlers c).
  { apply list_elem_of_singleton. reflexivity. }
  destruct (rejected_reads "activities" 0 res "unavailable" [4; 5] evs' u
              "activities" 0 evs (Returns Pending) w
              "activities" 0 (Returns Pending) c
              Hne eq_refl eq_refl eq_refl eq_refl eq_refl eq_refl Hall
              eq_refl eq_refl Hin)
    as ((Hrenders & Hevents) & Hrest).
  split; [exact Hrenders|]. split; [exact (Hevents Hq Hall' 9)|]. exact Hrest.
Defined.

End RejectedReads.

(** ** C3: settlements that arrive after an invalidation *)
Section LateSettlement.
Import SuspenseLib.

(** C3, counter-example.  The original read of ["stats"] wraps promise 0; its
    pending resource 0 is the entry of that read ([wrapPromise] puts a resource
    into the cache only when it settles).  The key is invalidated and a fresh
    read wraps promise 1, which settles with value 2: the cache now holds the
    new resource 1.  Then the original operation settles late with value 1:
    its resource 0 replaces the new entry in the cache, and the next read of
    ["stats"] returns the stale value.
    The cache of [cachedFetch] shows the same with an entry that is in the
    cache when it is invalidated: the late rejection of the removed operation
    deletes the entry that was created after the invalidation. *)
Lemma late_settlement_overwrites_fresh_entry :
  (let w0 := run [ENewPromise Pending; ENewPromise Pending] emptyWorld in
   let w1 := snd (wrapPromise 0 (Some "stats") w0) in
   let w2 := invalidateCache "stats" w1 in
   let w3 := snd (wrapPromise 1 (Some "stats") w2) in
   let w4 := settlement 1 (FulfilWith 2) w3 in
   let w5 := settlement 0 (FulfilWith 1) w4 in
   fst (wrapPromise 0 (Some "stats") w0) = Return (ResourceReader 0) ∧
   fst (wrapPromise 1 (Some "stats") w2) = Return (ResourceReader 1) ∧
   cache w4 !! "stats" = Some 1 ∧
   fst (readThrough 9 (Some "stats") w4) = Return (Some 2) ∧
   cache w5 !! "stats" = Some 0 ∧
   fst (readThrough 9 (Some "stats") w5) = Return (Some 1) ∧
   cache w5 ≠ cache w4) ∧
  (let c0 := PromiseCache.mkWorld ∅ [] [] [] 0 in
   let c1 := snd (PromiseCache.cachedFetch "task-1" (Returns Pending) c0) in
   let c2 := PromiseCache.invalidateCache "task-1" c1 in
   let c3 := snd (PromiseCache.cachedFetch "task-1" (Returns Pending) c2) in
   let c4 := PromiseCache.runMicrotasks (PromiseCache.settle 0 (RejectWith "late") c3) in
   PromiseCache.cache c1 !! "task-1" = Some 0 ∧
   PromiseCache.cache c2 !! "task-1" = None ∧
   PromiseCache.cache c3 !! "task-1" = Some 1 ∧
   PromiseCache.promises c4 !! 1 = Some Pending ∧
   PromiseCache.cache c4 !! "task-1" = None).
Proof.
  split; [|repeat split; reflexivity].
  repeat split; try reflexivity.
  intros H. apply (f_equal (fun c => c !! "stats")) in H.
  vm_compute in H. discriminate H.
Qed.

(** C3, as amended.  [invalidateCache k] removes the entry of [k] and nothing
    else: promises and attached continuations stay.  When a pending operation
    that was wrapped under [k] settles afterwards, the settlement is not
    discarded: the continuation attached last under [k] stores its resource
    under [k], whatever entry [k] had, and in a consistent state that resource
    has settled. *)
Theorem late_settlement_is_applied (w : World) (k : string) (p : PromiseId)
    (o : Settlement) (rx : Reaction) :
  consistent w ->
  promises w !! p = Some Pending ->
  last (keyedReactions k p w) = Some rx ->
  (cache (invalidateCache k w) = delete k (cache w) ∧
   promises (invalidateCache k w) = promises w ∧
   reactions (invalidateCache k w) = reactions w ∧
   resources (invalidateCache k w) = resources w) ∧
  cache (settlement p o w) !! k = Some (target rx) ∧
  cache (settlement p o (invalidateCache k w)) !! k = Some (target rx) ∧
  ∃ res, resources (settlement p o w) !! target rx = Some res ∧ status res ≠ pending.
Proof.
  intros Hw Hp Hlast. split; [done|].
  assert (Hk : cache (settlement p o w) !! k = Some (target rx))
    by by apply settlement_cache_lookup.
  split; [done|]. split; [by apply settlement_cache_lookup|].
  by apply (settlement_resource_settled p o w k).
Qed.

Lemma late_settlement_is_applied_witness :
  let w3 :=
    run [ENewPromise Pending; ENewPromise Pending;
         EWrap 0 (Some "stats"); EInvalidate "stats"; EWrap 1 (Some "stats");
         ESettle 1 (FulfilWith 2); ERunMicrotasks] emptyWorld in
  cache w3 !! "stats" = Some 1 ∧
  promises w3 !! 0 = Some Pending ∧
  last (keyedReactions "stats" 0 w3) = Some (mkReaction 0 (Some "stats")) ∧
  cache (settlement 0 (FulfilWith 1) w3) !! "stats" = Some 0.
Proof.
  intros w3.
  split; [reflexivity|]. split; [reflexivity|]. split; [reflexivity|].
  assert (Hw : consistent w3) by apply run_consistent, consistent_empty.
  assert (Hp : promises w3 !! 0 = Some Pending) by reflexivity.
  assert (Hlast : last (keyedReactions "stats" 0 w3) = Some (mkReaction 0 (Some "stats")))
    by reflexivity.
  exact (proj1 (proj2 (late_settlement_is_applied w3 "stats" 0 (FulfilWith 1)
                         (mkReaction 0 (Some "stats")) Hw Hp Hlast))).
Defined.

End LateSettlement.

(** ** C4: producers that throw synchronously *)
Section SyncThrow.

(** C4, counter-example.  The claim says that [getOrCreate(k, p)] swallows a
    synchronous throw of [p] and records a rejected entry for [k].  With a
    producer that throws ["boom"], [getCachedPromise "stats"] completes by
    throwing ["boom"] and the cache has no entry for ["stats"] afterwards. *)
Lemma sync_throw_not_recorded :
  let w := SuspenseDemo.mkWorld ∅ [] 0 in
  fst (SuspenseDemo.getCachedPromise "stats" (Throws "boom") w) = Throw "boom" ∧
  SuspenseDemo.cache (snd (SuspenseDemo.getCachedPromise "stats" (Throws "boom") w))
    !! "stats" = None ∧
  ¬ (∃ p w', SuspenseDemo.getCachedPromise "stats" (Throws "boom") w = (Normal p, w')
             ∧ SuspenseDemo.cache w' !! "stats" = Some p
             ∧ SuspenseDemo.promises w' !! p = Some (Rejected "boom")).
Proof.
  simpl. split; [reflexivity|]. split; [reflexivity|].
  intros (p & w' & H & _). discriminate H.
Qed.

(** C4, as amended.  For a key without an entry and a producer that throws
    synchronously, [getCachedPromise] and [cachedFetch] complete by throwing
    the producer's error; the producer has run once, and the cache, the
    promise heap and the pending continuations are what they were, so no entry
    is recorded for the key. *)
Theorem sync_throw_propagates (key : string) (e : JsError)
    (w : SuspenseDemo.World) (u : PromiseCache.World) :
  SuspenseDemo.cache w !! key = None ->
  PromiseCache.cache u !! key = None ->
  (SuspenseDemo.getCachedPromise key (Throws e) w
   = (Throw e,
      SuspenseDemo.mkWorld (SuspenseDemo.cache w) (SuspenseDemo.promises w)
        (S (SuspenseDemo.fetcherCalls w)))) ∧
  (PromiseCache.cachedFetch key (Throws e) u
   = (Throw e,
      PromiseCache.mkWorld (PromiseCache.cache u) (PromiseCache.promises u)
        (PromiseCache.catchHandlers u) (PromiseCache.microtasks u)
        (S (PromiseCache.fetcherCalls u)))).
Proof.
  intros Hw Hu. split.
  - by apply getCachedPromise_miss_throw.
  - unfold PromiseCache.cachedFetch. by rewrite Hu.
Qed.

Lemma sync_throw_propagates_witness :
  SuspenseDemo.cache (SuspenseDemo.mkWorld ∅ [] 0) !! "stats" = None ∧
  PromiseCache.cache (PromiseCache.mkWorld ∅ [] [] [] 0) !! "stats" = None ∧
  SuspenseDemo.getCachedPromise "stats" (Throws "boom") (SuspenseDemo.mkWorld ∅ [] 0)
  = (Throw "boom", SuspenseDemo.mkWorld ∅ [] 1) ∧
  PromiseCache.cachedFetch "stats" (Throws "boom") (PromiseCache.mkWorld ∅ [] [] [] 0)
  = (Throw "boom", PromiseCache.mkWorld ∅ [] [] [] 1).
Proof.
  split; [reflexivity|]. split; [reflexivity|].
  apply (sync_throw_propagates "stats" "boom"
           (SuspenseDemo.mkWorld ∅ [] 0) (PromiseCache.mkWorld ∅ [] [] [] 0));
    reflexivity.
Defined.

End SyncThrow.

(** ** C5: the blocking read of [wrapPromise] *)
Section BlockingRead.
Import SuspenseLib.

(** C5.  In every state the module can reach, the reader closure of every
    resource does exactly one of three things, decided by the resource's
    status: a fulfilled resource holds a value and the reader returns it; a
    rejected resource holds an error and the reader throws it; a pending
    resource holds its promise and the reader throws that promise. *)
Theorem blocking_read_three_way (evs : list Event) (r : ResourceId)
    (res : SuspenseCache) :
  resources (run evs emptyWorld) !! r = Some res ->
  (status res = fulfilled ∧
   ∃ v, value res = Some v ∧
        callReader (ResourceReader r) (run evs emptyWorld) = Return (Some v)) ∨
  (status res = rejected ∧
   ∃ e, error res = Some e ∧
        callReader (ResourceReader r) (run evs emptyWorld) = Raise (ThrownError e)) ∨
  (status res = pending ∧
   ∃ p, promise res = Some p ∧
        callReader (ResourceReader r) (run evs emptyWorld) = Raise (ThrownPromise p)).
Proof.
  intros Hr. simpl. rewrite Hr.
  apply readResource_wellFormed.
  destruct (run_consistent evs emptyWorld consistent_empty) as (Hwf & _).
  by eapply Forall_lookup_1.
Qed.

Lemma blocking_read_three_way_witness :
  let evs := [ENewPromise Pending; ENewPromise Pending; ENewPromise Pending;
              EWrap 0 (Some "stats"); EWrap 1 (Some "tasks"); EWrap 2 (Some "activities");
              ESettle 0 (FulfilWith 48); ESettle 1 (RejectWith "unavailable");
              ERunMicrotasks] in
  let w := run evs emptyWorld in
  callReader (ResourceReader 0) w = Return (Some 48) ∧
  callReader (ResourceReader 1) w = Raise (ThrownError "unavailable") ∧
  callReader (ResourceReader 2) w = Raise (ThrownPromise 2) ∧
  ((status (mkResource fulfilled (Some 48) None (Some 0)) = fulfilled ∧
    ∃ v, value (mkResource fulfilled (Some 48) None (Some 0)) = Some v ∧
         callReader (ResourceReader 0) w = Return (Some v)) ∨
   (status (mkResource fulfilled (Some 48) None (Some 0)) = rejected ∧
    ∃ e, error (mkResource fulfilled (Some 48) None (Some 0)) = Some e ∧
         callReader (ResourceReader 0) w = Raise (ThrownError e)) ∨
   (status (mkResource fulfilled (Some 48) None (Some 0)) = pending ∧
    ∃ p, promise (mkResource fulfilled (Some 48) None (Some 0)) = Some p ∧
         callReader (ResourceReader 0) w = Raise (ThrownPromise p))).
Proof.
  intros evs w.
  split; [reflexivity|]. split; [reflexivity|]. split; [reflexivity|].
  apply (blocking_read_three_way evs 0 (mkResource fulfilled (Some 48) None (Some 0))).
  reflexivity.
Defined.

End BlockingRead.

(** ** C6: reset of a Recovery Boundary *)
Section BoundaryReset.
Import SuspenseDemo.

(** C6.  For a boundary whose [onReset] is [handleSectionReset k] (the
    boundary owns key [k]): after [reset()] the cache has no entry for [k], the
    boundary's state is [{ hasError: false, error: null }] and [resetKey] has
    grown by one.  The next [getCachedPromise(k, f)] then invokes [f], whatever
    [f] is; with one of the sample's [async] producers it returns a promise
    that did not exist before, stores it under [k], the promise is pending, and
    the read [use(...)] raises the not-ready signal on it.
    The read itself, [use(getCachedPromise(k, f))], invokes [f] once, whatever
    [f] is; with an [async] producer it leaves exactly this world: the new
    promise [fresh] stored under [k], pending, at the end of the promises, and
    one producer call more.
    The render pass that follows the reset finds the boundary without an
    error, whether or not the changed [key] re-creates it, and the cache as
    the reset left it; the section of key [k] then renders its component,
    which performs that read, and shows the placeholder. *)
Theorem reset_then_read_refetches (app : App) (self k : string)
    (fb : option string) (f : Fetcher) :
  let app' := reset self (mkProps fb (Some (handleSectionReset k))) app in
  let fresh := length (promises (world app)) in
  let refetched :=
    mkWorld (<[k := fresh]> (delete k (cache (world app))))
            (promises (world app) ++ [Pending])
            (S (fetcherCalls (world app))) in
  cache (world app') !! k = None ∧
  boundaries app' !! self = Some (mkEBState false None) ∧
  resetKey app' = S (resetKey app) ∧
  fetcherCalls (snd (getCachedPromise k f (world app')))
    = S (fetcherCalls (world app)) ∧
  fst (getCachedPromise k api_fetch (world app')) = Normal fresh ∧
  promises (world app) !! fresh = None ∧
  cache (snd (getCachedPromise k api_fetch (world app'))) !! k = Some fresh ∧
  promises (snd (getCachedPromise k api_fetch (world app'))) !! fresh = Some Pending ∧
  fst (read k api_fetch (world app')) = Host.Raise (Host.NotReady fresh) ∧
  fetcherCalls (snd (read k f (world app'))) = S (fetcherCalls (world app)) ∧
  read k api_fetch (world app') = (Host.Raise (Host.NotReady fresh), refetched) ∧
  cache refetched !! k = Some fresh ∧
  promises refetched !! fresh = Some Pending ∧
  boundaries (remount app') !! self = Some initialState ∧
  world (remount app') = world app' ∧
  (∀ sec, sectionKey sec = k -> self = k -> fetcher sec = api_fetch ->
     renderSection sec (remount app')
     = (PlaceholderShown, setWorld refetched (remount app'))).
Proof.
  intros app' fresh refetched.
  assert (Hnone : cache (world app') !! k = None).
  { subst app'. rewrite reset_section_world. simpl. apply lookup_delete_eq. }
  assert (Hlen : promises (world app') = promises (world app)) by done.
  assert (Hfresh : (promises (world app) ++ [Pending]) !! fresh = Some Pending).
  { subst fresh. rewrite lookup_app_r; [|done]. by rewrite Nat.sub_diag. }
  assert (Hself : boundaries app' !! self = Some initialState).
  { subst app'. rewrite reset_section_boundaries. apply lookup_insert_eq. }
  assert (Hremount : boundaries (remount app') !! self = Some initialState).
  { by destruct (remount_boundary app' self _ Hself). }
  assert (Hread : read k api_fetch (world app')
                  = (Host.Raise (Host.NotReady fresh), refetched)).
  { unfold read, api_fetch. rewrite (getCachedPromise_miss _ _ _ Hnone), Hlen. simpl.
    unfold Host.use. fold fresh. by rewrite Hfresh. }
  assert (Hmiss : getCachedPromise k api_fetch (world app')
                  = (Normal fresh,
                     setCache (<[k := fresh]> (cache (world app')))
                       (mkWorld (cache (world app')) (promises (world app) ++ [Pending])
                                (S (fetcherCalls (world app)))))).
  { unfold api_fetch. by rewrite (getCachedPromise_miss _ _ _ Hnone), Hlen. }
  split; [done|]. split; [done|].
  split; [done|]. split.
  { unfold getCachedPromise. rewrite Hnone. by destruct f. }
  rewrite Hmiss, Hread. simpl.
  split; [done|].
  split; [by apply lookup_ge_None|].
  split; [by rewrite lookup_insert_eq|].
  split; [done|].
  split; [done|]. split.
  { unfold read, getCachedPromise. simpl. rewrite lookup_delete_eq. by destruct f. }
  split; [done|]. split; [apply lookup_insert_eq|]. split; [done|].
  split; [done|]. split; [apply remount_world|].
  intros sec Hkey -> Hf.
  rewrite (renderSection_cold sec (remount app')).
  - by rewrite remount_world, Hkey.
  - unfold boundaryState. by rewrite Hkey, Hremount.
  - done.
  - by rewrite remount_world, Hkey.
Qed.

End BoundaryReset.

(** ** C7: isolation of sibling boundaries *)
Section Isolation.
Import SuspenseDemo.

(** C7, counter-example.  The mounted dashboard: section ["stats"] has its
    operation fulfilled in the cache and its boundary holds an error that a
    render of its component raised; section ["tasks"] has a rejected operation.
    The boundary of ["tasks"] captures that failure, which leaves the boundary
    of ["stats"] as it is.  Then the boundary of ["tasks"] is reset:
    [handleSectionReset] changes [resetKey], the [key] of [<main>], so the
    render pass that follows re-creates every boundary, and the boundary of
    ["stats"] ends without its error.  In the second dashboard the operation
    of ["stats"] has been rejected and its boundary holds that error: the
    reset of ["tasks"] re-creates this boundary as well, without an error, and
    it holds the error again only because the render that follows reads the
    rejected promise and the new boundary captures it once more. *)
Lemma sibling_reset_recreates_boundary :
  let propsB :=
    mkProps (Some "CustomErrorFallback") (Some (handleSectionReset "tasks")) in
  let app :=
    mkApp (mkWorld {["stats" := 0; "tasks" := 1]} [Fulfilled 4; Rejected "t"] 2)
          0 0
          {["stats" := mkEBState true (Some "render bug");
            "tasks" := mkEBState false None;
            "activities" := mkEBState false None]} in
  let captured := capture "tasks" "t" app in
  let afterReset := reset "tasks" propsB captured in
  let rerendered := rerender dashboard afterReset in
  let app2 :=
    mkApp (mkWorld {["stats" := 0; "tasks" := 1]} [Rejected "s"; Rejected "t"] 2)
          0 0
          {["stats" := mkEBState true (Some "s");
            "tasks" := mkEBState false None;
            "activities" := mkEBState false None]} in
  let afterReset2 := reset "tasks" propsB (capture "tasks" "t" app2) in
  boundaries app !! "stats" = Some (mkEBState true (Some "render bug")) ∧
  boundaries captured !! "stats" = Some (mkEBState true (Some "render bug")) ∧
  boundaries afterReset !! "stats" = Some (mkEBState true (Some "render bug")) ∧
  resetKey afterReset ≠ mountedKey afterReset ∧
  boundaries (remount afterReset) !! "stats" = Some (mkEBState false None) ∧
  boundaries rerendered !! "stats" = Some (mkEBState false None) ∧
  boundaries rerendered !! "stats" ≠ boundaries app !! "stats" ∧
  cache (world rerendered) !! "stats" = Some 0 ∧
  promises (world rerendered) !! 0 = Some (Fulfilled 4) ∧
  boundaries afterReset2 !! "stats" = Some (mkEBState true (Some "s")) ∧
  boundaries (remount afterReset2) !! "stats" = Some (mkEBState false None) ∧
  boundaries (remount afterReset2) !! "stats" ≠ boundaries app2 !! "stats" ∧
  boundaries (rerender dashboard afterReset2) !! "stats"
    = Some (mkEBState true (Some "s")).
Proof. repeat split; try reflexivity; vm_compute; discriminate. Qed.

(** C7, as amended.  Two sibling sections [sA] and [sB] of the dashboard,
    each boundary owning the cache key of its section.  [sA]'s boundary is
    mounted, in state [st], and [sA] has an operation in the cache.
    - When [sB]'s boundary captures a failure, [sA]'s boundary state and the
      whole cache are unchanged.
    - [sB]'s [reset()] (with its [onReset], [handleSectionReset sB]) leaves
      [sA]'s boundary state, every cache entry of a key other than [sB] and
      every promise unchanged.
    - The render pass that follows re-creates the boundaries, because the
      reset has changed the [key] of the dashboard, and renders the sections
      again.  In the mounted dashboard [sA]'s boundary then holds the state
      derived from [sA]'s cached operation, whatever it held before; so it
      ends in the state it had when it was rendered from that operation (a
      failed sibling captures the same error again from its still-cached
      rejected promise).  Every existing cache entry of a key other than [sB]
      still holds the same operation in the same state. *)
Theorem sibling_boundary_isolated (secs : list DashboardSection) (app : App)
    (sA sB : string) (fbB : option string) (e : JsError)
    (p : PromiseId) (ps : PromiseState) (st : ErrorBoundaryState) :
  sA ≠ sB ->
  cache (world app) !! sA = Some p ->
  promises (world app) !! p = Some ps ->
  boundaries app !! sA = Some st ->
  sA ∈ sectionKey <$> secs ->
  let propsB := mkProps fbB (Some (handleSectionReset sB)) in
  let captured := capture sB e app in
  let afterReset := reset sB propsB captured in
  let rerendered := rerender secs afterReset in
  (boundaries captured !! sA = boundaries app !! sA ∧
   world captured = world app) ∧
  (boundaries afterReset !! sA = boundaries app !! sA ∧
   (∀ k, k ≠ sB -> cache (world afterReset) !! k = cache (world app) !! k) ∧
   promises (world afterReset) = promises (world app)) ∧
  ((mountedKey app = resetKey app ->
    boundaries rerendered !! sA = Some (stateFor ps)) ∧
   (renderedFrom sA p ps app ->
    boundaries rerendered !! sA = boundaries app !! sA) ∧
   ∀ k q qs, k ≠ sB ->
     cache (world app) !! k = Some q ->
     promises (world app) !! q = Some qs ->
     cache (world rerendered) !! k = Some q ∧
     promises (world rerendered) !! q = Some qs).
Proof.
  intros Hne Hk Hp Hst Hin propsB captured afterReset rerendered.
  subst propsB captured afterReset rerendered.
  destruct (capture_frame sB sA e app Hne) as [Hc1 Hc2].
  destruct (reset_frame sB sA fbB (capture sB e app) Hne) as (Hr1 & Hr2 & Hr3).
  assert (Hk' : cache (world (reset sB (mkProps fbB (Some (handleSectionReset sB)))
                                (capture sB e app))) !! sA = Some p).
  { rewrite (Hr2 sA Hne). by rewrite Hc2. }
  assert (Hp' : promises (world (reset sB (mkProps fbB (Some (handleSectionReset sB)))
                                   (capture sB e app))) !! p = Some ps).
  { rewrite Hr3. by rewrite Hc2. }
  split; [done|]. split.
  { split; [by rewrite Hr1|]. split; [|by rewrite Hr3, Hc2].
    intros k Hkne. rewrite (Hr2 k Hkne). by rewrite Hc2. }
  split; [|split].
  - intros Hm. unfold rerender.
    apply (renderAll_fresh_boundary _ _ _ p ps); rewrite ?remount_world; try done.
    unfold remount. rewrite decide_False by (simpl; lia).
    simpl. rewrite lookup_fmap.
    rewrite lookup_insert_ne by done. rewrite lookup_insert_ne by done.
    by rewrite Hst.
  - intros (_ & _ & Hst'). rewrite Hst'.
    apply (rerender_restores_boundary secs _ sA p ps); [|done].
    split; [done|]. split; [done|]. by rewrite Hr1, Hc1.
  - intros k q qs Hkne Hkq Hq. unfold rerender.
    apply renderAll_keeps_entry; rewrite remount_world.
    + rewrite (Hr2 k Hkne). by rewrite Hc2.
    + rewrite Hr3. by rewrite Hc2.
Qed.

Lemma sibling_boundary_isolated_witness :
  let app :=
    mkApp (mkWorld {["stats" := 0; "tasks" := 1; "activities" := 2]}
                   [Rejected "s"; Rejected "t"; Pending] 3)
          0 0
          {["stats" := mkEBState true (Some "s");
            "tasks" := mkEBState false None;
            "activities" := mkEBState false None]} in
  let afterReset :=
    reset "tasks" (mkProps (Some "CustomErrorFallback") (Some (handleSectionReset "tasks")))
      (capture "tasks" "t" app) in
  renderedFrom "stats" 0 (Rejected "s") app ∧
  mountedKey app = resetKey app ∧
  boundaries (remount afterReset) !! "stats" = Some (mkEBState false None) ∧
  boundaries (rerender dashboard afterReset) !! "stats" = Some (mkEBState true (Some "s")) ∧
  boundaries (rerender dashboard afterReset) !! "stats" = boundaries app !! "stats" ∧
  cache (world (rerender dashboard afterReset)) !! "stats" = Some 0.
Proof.
  intros app afterReset.
  assert (Hne : "stats" ≠ "tasks") by discriminate.
  assert (Hrend : renderedFrom "stats" 0 (Rejected "s") app).
  { repeat split; vm_compute; reflexivity. }
  assert (Hin : "stats" ∈ sectionKey <$> dashboard).
  { simpl. apply elem_of_cons. left. reflexivity. }
  pose proof (sibling_boundary_isolated dashboard app "stats" "tasks"
                (Some "CustomErrorFallback") "t" 0 (Rejected "s")
                (mkEBState true (Some "s")) Hne eq_refl eq_refl eq_refl Hin)
    as (_ & _ & Hderived & Hsame & Hc).
  split; [exact Hrend|]. split; [reflexivity|]. split; [vm_compute; reflexivity|].
  split; [exact (Hderived eq_refl)|]. split; [exact (Hsame Hrend)|].
  apply (Hc "stats" 0 (Rejected "s") Hne); vm_compute; reflexivity.
Defined.

End Isolation.

(** ** C8: signals and boundary kinds *)
Section BoundaryKinds.

(** C8.  On every path of nested boundaries (innermost first) and with the
    [getDerivedStateFromError] of [ErrorBoundaryClass]:
    - a not-ready signal leaves every Recovery Boundary of the path as it is,
      and the boundary that intercepts it, if any, is a Suspension Boundary;
    - a failure signal leaves every Suspension Boundary of the path as it is,
      and the boundary that intercepts it, if any, is a Recovery Boundary;
    - on the path of the use-API sample, where the [ErrorBoundary] sits inside
      the [Suspense], a not-ready signal passes the [ErrorBoundary] unchanged
      and suspends the [Suspense], and a failure stops at the [ErrorBoundary];
    - on the path of a dashboard section of the Suspense demo, where the
      [Suspense] sits inside the [ErrorBoundary], a not-ready signal stops at
      the [Suspense] and a failure passes it and reaches the [ErrorBoundary];
    - under a lone [Suspense], as in the test of chapter 17, nobody intercepts
      a failure. *)
Theorem signals_reach_matching_boundaries :
  (∀ p path,
     filter (fun b => Host.isRecovery b = true)
       (Host.propagate UseApi.getDerivedStateFromError (Host.NotReady p) path)
     = filter (fun b => Host.isRecovery b = true) path ∧
     match Host.interceptor (Host.NotReady p) path with
     | Some i => Host.isSuspension <$> path !! i = Some true
     | None => True
     end) ∧
  (∀ e path,
     filter (fun b => Host.isSuspension b = true)
       (Host.propagate UseApi.getDerivedStateFromError (Host.OperationFailed e) path)
     = filter (fun b => Host.isSuspension b = true) path ∧
     match Host.interceptor (Host.OperationFailed e) path with
     | Some i => Host.isRecovery <$> path !! i = Some true
     | None => True
     end) ∧
  (∀ p st,
     Host.propagate UseApi.getDerivedStateFromError (Host.NotReady p)
       (UseApi.userProfilePath st)
     = [Host.Recovery st; Host.Suspension (Some p)]) ∧
  (∀ e st,
     Host.propagate UseApi.getDerivedStateFromError (Host.OperationFailed e)
       (UseApi.userProfilePath st)
     = [Host.Recovery (mkEBState true (Some e)); Host.Suspension None]) ∧
  (∀ p st,
     Host.propagate SuspenseDemo.getDerivedStateFromError (Host.NotReady p)
       (SuspenseDemo.sectionPath st)
     = [Host.Suspension (Some p); Host.Recovery st]) ∧
  (∀ e st,
     Host.propagate SuspenseDemo.getDerivedStateFromError (Host.OperationFailed e)
       (SuspenseDemo.sectionPath st)
     = [Host.Suspension None; Host.Recovery (mkEBState true (Some e))]) ∧
  (∀ e, Host.interceptor (Host.OperationFailed e) [Host.Suspension None] = None).
Proof.
  split; [|split; [|repeat split; done]].
  - intros p path. split; [apply pending_skips_recovery|].
    pose proof (interceptor_matches (Host.NotReady p) path) as H.
    destruct (Host.interceptor (Host.NotReady p) path) as [i|]; [|done].
    destruct (path !! i) as [[w|st]|]; simpl in *; done.
  - intros e path. split; [apply failure_skips_suspension|].
    pose proof (interceptor_matches (Host.OperationFailed e) path) as H.
    destruct (Host.interceptor (Host.OperationFailed e) path) as [i|]; [|done].
    destruct (path !! i) as [[w|st]|]; simpl in *; done.
Qed.

End BoundaryKinds.

(** ** C9: idempotence of fulfilled reads *)
Section FulfilledReads.

(** C9, counter-example.  The key ["stats"] is read through [wrapPromise]
    and its operation 0 is pending; the key is invalidated and read again,
    which starts operation 1.  Operation 1 fulfils with 2: the entry of the
    key is fulfilled with 2 and two successive reads return 2.  Nothing is
    invalidated from here on.  Then operation 0, wrapped before the
    invalidation, fulfils with 1: its continuation stores its own resource
    under the key, and the next read of the key returns 1. *)
Lemma late_settlement_changes_fulfilled_read :
  let w0 := SuspenseLib.run [SuspenseLib.ENewPromise Pending;
                             SuspenseLib.ENewPromise Pending]
                            SuspenseLib.emptyWorld in
  let w1 := snd (SuspenseLib.wrapPromise 0 (Some "stats") w0) in
  let w2 := SuspenseLib.invalidateCache "stats" w1 in
  let w3 := snd (SuspenseLib.wrapPromise 1 (Some "stats") w2) in
  let w4 := SuspenseLib.settlement 1 (FulfilWith 2) w3 in
  let w5 := SuspenseLib.settlement 0 (FulfilWith 1) w4 in
  SuspenseLib.cache w4 !! "stats" = Some 1 ∧
  SuspenseLib.resources w4 !! 1
    = Some (SuspenseLib.mkResource SuspenseLib.fulfilled (Some 2) None (Some 1)) ∧
  SuspenseLib.renders [7; 8] (Some "stats") w4
    = ([SuspenseLib.Return (Some 2); SuspenseLib.Return (Some 2)], w4) ∧
  ¬ SuspenseLib.quiet "stats" 1 w4 ∧
  SuspenseLib.cache w5 !! "stats" = Some 0 ∧
  SuspenseLib.readThrough 9 (Some "stats") w5 = (SuspenseLib.Return (Some 1), w5) ∧
  SuspenseLib.readThrough 9 (Some "stats") w5 ≠ (SuspenseLib.Return (Some 2), w5).
Proof.
  repeat split; try reflexivity; try discriminate.
  intros [Hrs _]. apply Forall_cons in Hrs as [[Hkey _] _]. by apply Hkey.
Qed.

(** C9, as amended.  Once the entry of a key has settled to fulfilled with
    value [v], a later read of the key returns [v] and runs no producer:
    - Demo cache: after any events that do not invalidate [k] (reads of any
      key with any producer, settlements, deletions of other keys), the read
      [use(getCachedPromise(k, f))] returns [v], [getCachedPromise] returns the
      same promise, and both leave the world, and so the count of producer
      calls, as it is.
    - [wrapPromise]: any number of successive reads [wrapPromise(_, k')()] of
      a key whose cached resource is fulfilled with [v] return [v] and leave
      the module's state as it is.  As long as no other operation of [k'] is
      in flight, the same holds after any events that do not invalidate [k']
      (new promises, reads of any key, settlements, continuations). *)
Theorem fulfilled_reads_idempotent
    (k : string) (p : PromiseId) (v : Value) (evs : list SuspenseDemo.Event)
    (f : Fetcher) (w : SuspenseDemo.World)
    (k' : string) (r : SuspenseLib.ResourceId) (res : SuspenseLib.SuspenseCache)
    (ps : list PromiseId) (evs' : list SuspenseLib.Event) (u : SuspenseLib.World) :
  SuspenseDemo.cache w !! k = Some p ->
  SuspenseDemo.promises w !! p = Some (Fulfilled v) ->
  Forall (SuspenseDemo.keeps k) evs ->
  k' ≠ "" ->
  SuspenseLib.cache u !! k' = Some r ->
  SuspenseLib.resources u !! r = Some res ->
  SuspenseLib.status res = SuspenseLib.fulfilled ->
  SuspenseLib.value res = Some v ->
  (SuspenseDemo.read k f (SuspenseDemo.run evs w)
     = (Host.Ready v, SuspenseDemo.run evs w) ∧
   SuspenseDemo.getCachedPromise k f (SuspenseDemo.run evs w)
     = (Normal p, SuspenseDemo.run evs w)) ∧
  SuspenseLib.renders ps (Some k') u
    = (replicate (length ps) (SuspenseLib.Return (Some v)), u) ∧
  (SuspenseLib.quiet k' r u ->
   Forall (SuspenseLib.keeps k') evs' ->
   ∀ pr, SuspenseLib.readThrough pr (Some k') (SuspenseLib.run evs' u)
         = (SuspenseLib.Return (Some v), SuspenseLib.run evs' u)).
Proof.
  intros Hk Hp Hall Hk' Hc Hr Hs Hv. split; [|split].
  - by apply fulfilled_read_stable.
  - apply renders_constant. intros pr.
    by apply (readThrough_fulfilled k' r res).
  - intros Hq Hall' pr.
    destruct (run_keeps_quiet_entry k' r res evs' u Hall' Hc Hr Hq) as (Hc' & Hr' & _).
    by apply (readThrough_fulfilled k' r res).
Qed.

Lemma fulfilled_reads_idempotent_witness :
  let w := SuspenseDemo.mkWorld {["stats" := 0]} [Fulfilled 48] 1 in
  let evs := [SuspenseDemo.ERead "stats" (Returns Pending);
              SuspenseDemo.ERead "tasks" (Returns Pending);
              SuspenseDemo.ESettle 1 (RejectWith "x");
              SuspenseDemo.ESettle 0 (RejectWith "y");
              SuspenseDemo.EDelete "tasks"] in
  let res := SuspenseLib.mkResource SuspenseLib.fulfilled (Some 48) None (Some 0) in
  let u := SuspenseLib.mkWorld {["stats" := 0]} [res] [Fulfilled 48] [] [] in
  let evs' := [SuspenseLib.ENewPromise Pending;
               SuspenseLib.EWrap 1 (Some "stats");
               SuspenseLib.EWrap 1 (Some "tasks");
               SuspenseLib.ESettle 1 (FulfilWith 7);
               SuspenseLib.ERunMicrotasks;
               SuspenseLib.EInvalidate "tasks"] in
  (SuspenseDemo.read "stats" (Returns Pending) (SuspenseDemo.run evs w)
     = (Host.Ready 48, SuspenseDemo.run evs w) ∧
   SuspenseDemo.getCachedPromise "stats" (Returns Pending) (SuspenseDemo.run evs w)
     = (Normal 0, SuspenseDemo.run evs w)) ∧
  SuspenseLib.renders [5; 6; 7] (Some "stats") u
    = (replicate 3 (SuspenseLib.Return (Some 48)), u) ∧
  SuspenseLib.readThrough 9 (Some "stats") (SuspenseLib.run evs' u)
    = (SuspenseLib.Return (Some 48), SuspenseLib.run evs' u).
Proof.
  intros w evs res u evs'.
  assert (H : SuspenseDemo.cache w !! "stats" = Some 0 ∧
              SuspenseDemo.promises w !! 0 = Some (Fulfilled 48) ∧
              "stats" ≠ "" ∧
              SuspenseLib.cache u !! "stats" = Some 0 ∧
              SuspenseLib.resources u !! 0 = Some res).
  { repeat split; try reflexivity. discriminate. }
  destruct H as (H1 & H2 & H3 & H4 & H5).
  assert (Hall : Forall (SuspenseDemo.keeps "stats") evs)
    by (repeat constructor; discriminate).
  assert (Hall' : Forall (SuspenseLib.keeps "stats") evs')
    by (repeat constructor; discriminate).
  assert (Hq : SuspenseLib.quiet "stats" 0 u) by (split; constructor).
  destruct (fulfilled_reads_idempotent "stats" 0 48 evs (Returns Pending) w
              "stats" 0 res [5; 6; 7] evs' u H1 H2 Hall H3 H4 H5 eq_refl eq_refl)
    as (Hdemo & Hrenders & Hevents).
  split; [exact Hdemo|]. split; [exact Hrenders|].
  exact (Hevents Hq Hall' 9).
Defined.

(** The fulfilled counterpart of the second operation in flight (the defect
    of C1).  Two renders read the key ["stats"]
    through [wrapPromise] while its operation is pending, passing the promises
    0 and 1; both miss the cache (the pending resource is never stored), so two
    operations of the key are in flight.  Promise 0 fulfils with 1: the key's
    entry is fulfilled and two successive reads return 1.  Then promise 1
    fulfils with 2: its continuation stores its own resource under the key, and
    the next read returns 2.  Nothing was invalidated in between.  The demo's
    [getCachedPromise] in the same story hands the second read the promise of
    the first, and its fulfilled reads do not change. *)
Lemma fulfilled_read_changes_with_second_operation :
  let w0 := SuspenseLib.run [SuspenseLib.ENewPromise Pending;
                             SuspenseLib.ENewPromise Pending]
                            SuspenseLib.emptyWorld in
  let w1 := snd (SuspenseLib.wrapPromise 0 (Some "stats") w0) in
  let w2 := snd (SuspenseLib.wrapPromise 1 (Some "stats") w1) in
  let w3 := SuspenseLib.settlement 0 (FulfilWith 1) w2 in
  let w4 := SuspenseLib.settlement 1 (FulfilWith 2) w3 in
  let d1 := snd (SuspenseDemo.read "stats" (Returns Pending)
                   (SuspenseDemo.mkWorld ∅ [] 0)) in
  let d2 := snd (SuspenseDemo.read "stats" (Returns Pending) d1) in
  let d3 := SuspenseDemo.settle 0 (FulfilWith 1) d2 in
  fst (SuspenseLib.wrapPromise 0 (Some "stats") w0)
    = SuspenseLib.Return (SuspenseLib.ResourceReader 0) ∧
  fst (SuspenseLib.wrapPromise 1 (Some "stats") w1)
    = SuspenseLib.Return (SuspenseLib.ResourceReader 1) ∧
  SuspenseLib.cache w3 !! "stats" = Some 0 ∧
  SuspenseLib.resources w3 !! 0
    = Some (SuspenseLib.mkResource SuspenseLib.fulfilled (Some 1) None (Some 0)) ∧
  SuspenseLib.renders [7; 8] (Some "stats") w3
    = ([SuspenseLib.Return (Some 1); SuspenseLib.Return (Some 1)], w3) ∧
  SuspenseLib.cache w4 !! "stats" = Some 1 ∧
  SuspenseLib.readThrough 9 (Some "stats") w4 = (SuspenseLib.Return (Some 2), w4) ∧
  SuspenseLib.readThrough 9 (Some "stats") w4 ≠ (SuspenseLib.Return (Some 1), w4) ∧
  d2 = d1 ∧
  SuspenseDemo.fetcherCalls d3 = 1 ∧
  SuspenseDemo.read "stats" (Returns Pending) d3 = (Host.Ready 1, d3).
Proof. repeat split; try reflexivity. discriminate. Qed.

End FulfilledReads.

(** ** C10: a boundary that holds no error object *)
Section NullError.

(** C10.  A boundary that captures a null error records [hasError = true]
    and [error = null]; its [render] then returns the children.  Both
    [ErrorBoundary.render] (Suspense demo) and [ErrorBoundaryClass.render]
    (use-API sample) show the fallback exactly when the flag is set and the
    stored error is not null. *)
Theorem null_error_renders_children :
  (∀ props,
     SuspenseDemo.getDerivedStateFromError None = mkEBState true None ∧
     SuspenseDemo.render props (SuspenseDemo.getDerivedStateFromError None)
       = SuspenseDemo.ChildrenView) ∧
  (UseApi.getDerivedStateFromError None = mkEBState true None ∧
   UseApi.render (UseApi.getDerivedStateFromError None) = UseApi.ChildrenView) ∧
  (∀ props st,
     (∃ c e, SuspenseDemo.render props st = SuspenseDemo.FallbackView c e)
     ↔ hasError st = true ∧ error st ≠ None) ∧
  (∀ st,
     (∃ e, UseApi.render st = UseApi.ErrorFallback e)
     ↔ hasError st = true ∧ error st ≠ None).
Proof.
  split; [done|]. split; [done|]. split.
  - apply demo_render_fallback_iff.
  - apply useapi_render_fallback_iff.
Qed.

End NullError.

(** * Further properties of the samples *)

(** ** [formatTime] of the activity feed *)
Section FormatTime.
Import ActivityFeed.

(** X1.  For a timestamp that is not in the future and at most 2^53 ms old
    (both time values being those of valid dates), [formatTime] shows the
    number of whole units that have passed, in the largest of the units
    minute, hour and day that has begun: minutes below one hour (0 to 59),
    hours below one day (1 to 23), days from then on. *)
Theorem formatTime_whole_units (now date : Z) :
  exactRange now date ->
  (date ≤ now)%Z ->
  ∃ shown, formatTime now date = Some shown ∧
    match shown with
    | MinutesAgo n =>
        (0 ≤ n < 60 ∧ n * 60000 ≤ now - date < (n + 1) * 60000)%Z
    | HoursAgo n =>
        (1 ≤ n < 24 ∧ n * 3600000 ≤ now - date < (n + 1) * 3600000)%Z
    | DaysAgo n =>
        (1 ≤ n ∧ n * 86400000 ≤ now - date < (n + 1) * 86400000)%Z
    end.
Proof.
  intros Hrange Hle. unfold formatTime. rewrite decide_True by done.
  clear Hrange. change (1000 * 60)%Z with 60000%Z.
  case_bool_decide as Hm; [eexists; split; [done|]; simpl; Z.div_mod_to_equations; lia|].
  case_bool_decide as Hh; (eexists; split; [done|]); simpl.
  - rewrite Z.div_div in * by lia. change (60000 * 60)%Z with 3600000%Z in *.
    Z.div_mod_to_equations. lia.
  - rewrite !Z.div_div in * by lia.
    change (60000 * 60)%Z with 3600000%Z in *.
    change (3600000 * 24)%Z with 86400000%Z in *.
    Z.div_mod_to_equations. lia.
Qed.

Lemma formatTime_whole_units_witness :
  exactRange 86400000 82000000 ∧
  formatTime 86400000 82000000 = Some (HoursAgo 1) ∧
  ∃ shown, formatTime 86400000 82000000 = Some shown ∧
    match shown with
    | MinutesAgo n =>
        (0 ≤ n < 60 ∧ n * 60000 ≤ 86400000 - 82000000 < (n + 1) * 60000)%Z
    | HoursAgo n =>
        (1 ≤ n < 24 ∧ n * 3600000 ≤ 86400000 - 82000000 < (n + 1) * 3600000)%Z
    | DaysAgo n =>
        (1 ≤ n ∧ n * 86400000 ≤ 86400000 - 82000000 < (n + 1) * 86400000)%Z
    end.
Proof.
  assert (Hrange : exactRange 86400000 82000000).
  { unfold exactRange, maxTimeValue. lia. }
  split; [exact Hrange|]. split; [reflexivity|].
  apply (formatTime_whole_units 86400000 82000000 Hrange). lia.
Defined.

(** X2.  For a timestamp in the future, less than 2^53 ms ahead (both time
    values being those of valid dates), [formatTime] never reaches the hour
    or day branch: it shows a negative number of minutes, the elapsed time
    rounded down. *)
Theorem formatTime_future_is_negative_minutes (now date : Z) :
  exactRange now date ->
  (now < date)%Z ->
  formatTime now date = Some (MinutesAgo ((now - date) / 60000)%Z) ∧
  ((now - date) / 60000 < 0)%Z.
Proof.
  intros Hrange Hlt. unfold formatTime. rewrite decide_True by done.
  change (1000 * 60)%Z with 60000%Z.
  assert (H : ((now - date) / 60000 < 0)%Z) by (Z.div_mod_to_equations; lia).
  rewrite bool_decide_true by lia. done.
Qed.

Lemma formatTime_future_is_negative_minutes_witness :
  exactRange 0 1 ∧ formatTime 0 1 = Some (MinutesAgo (-1)%Z) ∧ (-1 < 0)%Z.
Proof.
  assert (Hrange : exactRange 0 1) by (unfold exactRange, maxTimeValue; lia).
  split; [exact Hrange|].
  exact (formatTime_future_is_negative_minutes 0 1 Hrange ltac:(lia)).
Defined.

End FormatTime.

(** ** The global reset of the dashboard *)
Section GlobalReset.
Import SuspenseDemo.

Lemma renderSection_pending (sec : DashboardSection) (app : App) (p : PromiseId) :
  boundaryState (sectionKey sec) app = initialState ->
  cache (world app) !! sectionKey sec = Some p ->
  promises (world app) !! p = Some Pending ->
  renderSection sec app = (PlaceholderShown, setWorld (world app) app).
Proof.
  intros Hst Hc Hp. unfold renderSection, read. rewrite Hst. simpl.
  rewrite (getCachedPromise_hit _ _ _ _ Hc). unfold Host.use. rewrite Hp. done.
Qed.

Lemma boundaryState_remounted (s : string) (w : World) (k m : nat)
    (b : gmap string ErrorBoundaryState) :
  boundaryState s (mkApp w k m ((fun _ => initialState) <$> b)) = initialState.
Proof.
  unfold boundaryState. simpl. rewrite lookup_fmap. by destruct (b !! s).
Qed.

(** X3.  The global reset ([handleGlobalReset]) in a mounted dashboard, with
    the render pass that follows: every boundary starts again without an
    error, each of the three sections invokes its producer exactly once, the
    cache holds exactly the three new pending promises, none of the promises
    that existed before, and every section shows its placeholder. *)
Theorem global_reset_refetches_every_section (app : App) :
  mountedKey app = resetKey app ->
  let app' := rerender dashboard (handleGlobalReset app) in
  let n := length (promises (world app)) in
  cache (world app')
    = <["activities" := S (S n)]> (<["tasks" := S n]> (<["stats" := n]> ∅)) ∧
  promises (world app') = promises (world app) ++ [Pending; Pending; Pending] ∧
  fetcherCalls (world app') = S (S (S (fetcherCalls (world app)))) ∧
  resetKey app' = S (resetKey app) ∧
  (∀ s, boundaryState s app' = initialState) ∧
  Forall (fun sec => fst (renderSection sec app') = PlaceholderShown) dashboard.
Proof.
  intros Hm app' n.
  assert (Happ' : app'
    = mkApp (mkWorld (<["activities" := S (S n)]> (<["tasks" := S n]> (<["stats" := n]> ∅)))
                     (promises (world app) ++ [Pending; Pending; Pending])
                     (S (S (S (fetcherCalls (world app))))))
            (S (resetKey app)) (S (resetKey app))
            ((fun _ => initialState) <$> boundaries app)).
  { subst app' n. unfold rerender, remount, handleGlobalReset. simpl.
    rewrite decide_False by lia. unfold dashboard, renderAll. simpl foldl.
    do 3 (match goal with
          | |- context [renderSection ?sec (mkApp ?w ?k ?m ?b)] =>
              rewrite (renderSection_cold sec (mkApp w k m b));
                [|apply boundaryState_remounted|done|done]
          end; unfold setWorld; cbn -[renderSection]).
    rewrite !length_app. simpl. rewrite <- !app_assoc. simpl.
    by rewrite !Nat.add_1_r. }
  rewrite Happ'. simpl. repeat split; try done.
  - intros s. apply boundaryState_remounted.
  - assert (Hlook : ∀ i, i < 3 ->
              (promises (world app) ++ [Pending; Pending; Pending]) !! (n + i)
              = Some Pending).
    { intros i Hi. subst n. rewrite lookup_app_r by lia.
      replace (length (promises (world app)) + i - length (promises (world app))) with i by lia.
      destruct i as [|[|[|i]]]; simpl; try done; lia. }
    repeat constructor.
    + rewrite (renderSection_pending _ _ n);
        [done|apply boundaryState_remounted| |simpl];
        [simpl; rewrite ?lookup_insert_ne by discriminate; apply lookup_insert_eq|].
      replace n with (n + 0) by lia. apply Hlook; lia.
    + rewrite (renderSection_pending _ _ (S n));
        [done|apply boundaryState_remounted| |simpl];
        [simpl; rewrite ?lookup_insert_ne by discriminate; apply lookup_insert_eq|].
      replace (S n) with (n + 1) by lia. apply Hlook; lia.
    + rewrite (renderSection_pending _ _ (S (S n)));
        [done|apply boundaryState_remounted| |simpl];
        [simpl; rewrite ?lookup_insert_ne by discriminate; apply lookup_insert_eq|].
      replace (S (S n)) with (n + 2) by lia. apply Hlook; lia.
Qed.

Lemma global_reset_refetches_every_section_witness :
  let app :=
    mkApp (mkWorld {["stats" := 0; "tasks" := 1; "activities" := 2]}
                   [Rejected "s"; Fulfilled 4; Pending] 3)
          5 5
          {["stats" := mkEBState true (Some "s")]} in
  let app' := rerender dashboard (handleGlobalReset app) in
  cache (world app') !! "stats" = Some 3 ∧
  fetcherCalls (world app') = 6 ∧
  boundaryState "stats" app' = initialState.
Proof.
  intros app app'.
  destruct (global_reset_refetches_every_section app eq_refl)
    as (Hc & _ & Hf & _ & Hb & _).
  split; [|split; [exact Hf|exact (Hb "stats")]].
  fold app' in Hc. rewrite Hc. reflexivity.
Defined.

End GlobalReset.

(** ** The user cache of the use-API sample *)
Section UserCache.
Import UseApiApp.

(** X4.  [fetchUser] never resolves to [undefined]: for every id it yields a
    user of the list, the one with that id when the id is 1, 2 or 3, and the
    first user (id 1) for every other id. *)
Theorem selectUser_falls_back_to_first (uid : Z) :
  ∃ u, selectUser uid = Some u ∧
       u ∈ users ∧
       id u = (if bool_decide (1 ≤ uid ≤ 3)%Z then uid else 1%Z).
Proof.
  unfold selectUser, users. simpl.
  destruct (decide (uid = 1%Z)) as [->|H1];
    [eexists; split; [done|]; split; [set_solver|done]|].
  rewrite (bool_decide_false (1%Z = uid)) by done.
  destruct (decide (uid = 2%Z)) as [->|H2];
    [eexists; split; [done|]; split; [set_solver|done]|].
  rewrite (bool_decide_false (2%Z = uid)) by done.
  destruct (decide (uid = 3%Z)) as [->|H3];
    [eexists; split; [done|]; split; [set_solver|done]|].
  rewrite (bool_decide_false (3%Z = uid)) by done.
  simpl. eexists. split; [done|]. split; [set_solver|].
  rewrite bool_decide_false by lia. done.
Qed.

Lemma getUserPromise_hit (uid : Z) (p : PromiseId) (w : World) :
  promiseCache w !! uid = Some p ->
  getUserPromise uid w = (p, w).
Proof. intros H. unfold getUserPromise. by rewrite H. Qed.

Lemma getUserPromise_miss (uid : Z) (w : World) :
  promiseCache w !! uid = None ->
  getUserPromise uid w
  = (length (promises w),
     mkWorld (<[uid := length (promises w)]> (promiseCache w))
             (promises w ++ [Pending]) (fetched w ++ [uid])).
Proof. intros H. unfold getUserPromise. by rewrite H. Qed.

Lemma remount_fields (app : App) :
  world (remount app) = world app ∧ userId (remount app) = userId app ∧
  shouldFetch (remount app) = shouldFetch app ∧ key (remount app) = key app.
Proof. unfold remount. by case_decide. Qed.

(** X5.  One render of the two demo boxes calls [fetchUser] at most once,
    and only for the selected user and only when the cache has no entry for
    that user.  [ConditionalUser] shows the prompt and reads nothing when
    [shouldFetch] is off; when both components read, they get the same
    result from the same promise. *)
Theorem render_fetches_selected_user_at_most_once (app : App) :
  match renderDemos app with
  | (box, cond, app') =>
      (fetched (world app') = fetched (world app) ∨
       (promiseCache (world app) !! userId app = None ∧
        fetched (world app') = fetched (world app) ++ [userId app])) ∧
      (cond = Prompt ↔ shouldFetch app = false) ∧
      match box, cond with
      | BoxRead r, Loaded r' => r' = r
      | _, _ => True
      end
  end.
Proof.
  unfold renderDemos, UserProfile, ConditionalUser.
  destruct (remount_fields app) as (-> & -> & -> & _).
  destruct (UseApi.render (boundary (remount app))) as [e|];
    destruct (shouldFetch app);
    destruct (promiseCache (world app) !! userId app) as [p|] eqn:Hc; simpl;
    rewrite ?(getUserPromise_hit _ _ _ Hc), ?(getUserPromise_miss _ _ Hc); simpl;
    rewrite ?(getUserPromise_hit _ (length (promises (world app))))
      by (simpl; apply lookup_insert_eq);
    simpl; repeat split; auto; try done.
Qed.

(** X6.  Every reset path of the mounted use-API sample (choosing a user with
    [handleUserChange], the reset handler [handleReset], the boundary's
    [reset]) empties the whole user cache and advances [key].  The render
    that follows mounts a boundary without an error, so it shows no fallback:
    [UserProfile] calls [fetchUser] once for the selected user, also when
    that user was loaded before, and suspends on the new promise. *)
Theorem useapi_resets_refetch_selected_user (app : App) (newUserId : Z) :
  mountedKey app = key app ->
  Forall
    (fun app' =>
       promiseCache (world app') = ∅ ∧
       key app' = S (key app) ∧
       match renderDemos app' with
       | (box, _, app'') =>
           box = BoxRead (Host.Raise (Host.NotReady (length (promises (world app))))) ∧
           fetched (world app'') = fetched (world app) ++ [userId app'] ∧
           promises (world app'') = promises (world app) ++ [Pending] ∧
           promiseCache (world app'') !! userId app'
           = Some (length (promises (world app))) ∧
           boundary app'' = UseApi.initialState
       end)
    [handleUserChange newUserId app; handleReset app; reset app] ∧
  userId (handleUserChange newUserId app) = newUserId ∧
  userId (handleReset app) = userId app ∧
  userId (reset app) = userId app.
Proof.
  intros Hm.
  assert (Hread : (promises (world app) ++ [Pending]) !! length (promises (world app))
                  = Some Pending).
  { rewrite lookup_app_r by lia. by rewrite Nat.sub_diag. }
  split; [|done].
  repeat (apply Forall_cons; split); [| | |by apply Forall_nil].
  all: (split; [done|]; split; [done|]).
  all: unfold renderDemos, remount, UserProfile, ConditionalUser; simpl.
  all: rewrite decide_False by lia; simpl.
  all: rewrite getUserPromise_miss by done; simpl.
  all: unfold Host.use; rewrite Hread; simpl.
  all: destruct (shouldFetch app); simpl.
  all: rewrite ?(getUserPromise_hit _ (length (promises (world app))))
      by (simpl; apply lookup_insert_eq); simpl.
  all: repeat split; try done; apply lookup_insert_eq.
Qed.

Lemma useapi_resets_refetch_selected_user_witness :
  let app := mkApp (mkWorld {[1%Z := 0]} [Rejected "failed"] [1%Z]) 1 light true 4 4
                   (UseApi.getDerivedStateFromError (Some "failed")) in
  mountedKey app = key app ∧
  fst (fst (renderDemos app)) = BoxFallback "failed" ∧
  fst (fst (renderDemos (reset app))) = BoxRead (Host.Raise (Host.NotReady 1)) ∧
  fetched (world (snd (renderDemos (reset app)))) = [1%Z; 1%Z].
Proof.
  intros app.
  pose proof (useapi_resets_refetch_selected_user app 2 eq_refl) as [H _].
  split; [reflexivity|]. split; [reflexivity|].
  apply Forall_cons in H as [_ H]. apply Forall_cons in H as [_ H].
  apply Forall_cons in H as [(_ & _ & H) _].
  destruct (renderDemos (reset app)) as [[box cond] app''].
  destruct H as (Hb & Hf & _). simpl. split; [exact Hb|exact Hf].
Defined.

End UserCache.

(** ** The cache keys of the task API *)
Section TaskKeys.
Import CachedTasksApi.

Lemma list_ascii_of_string_app (s1 s2 : string) :
  String.list_ascii_of_string (s1 +:+ s2)
  = String.list_ascii_of_string s1 ++ String.list_ascii_of_string s2.
Proof. induction s1 as [|a s1 IH]; simpl; [done|]. by rewrite IH. Qed.

Lemma string_app_inv_tail (s1 s2 t : string) :
  s1 +:+ t = s2 +:+ t -> s1 = s2.
Proof.
  intros H. apply (f_equal String.list_ascii_of_string) in H.
  rewrite !list_ascii_of_string_app in H. apply app_inv_tail in H.
  rewrite <- (String.string_of_list_ascii_of_string s1),
          <- (String.string_of_list_ascii_of_string s2).
  by rewrite H.
Qed.

(** X7.  The cache keys of [fetchTask] and [fetchTasks] never collide: a
    task key is never a project key, and different ids give different keys.
    So after [fetchTask t] the first [fetchTasks p] still starts its own
    request and gets its own promise. *)
Theorem task_and_project_keys_are_separate :
  (∀ t p, taskKey t ≠ projectTasksKey p) ∧
  (∀ t t', taskKey t = taskKey t' -> t = t') ∧
  (∀ p p', projectTasksKey p = projectTasksKey p' -> p = p') ∧
  (∀ t p w,
     PromiseCache.cache w !! projectTasksKey p = None ->
     PromiseCache.cache (snd (fetchTask t w)) !! projectTasksKey p = None ∧
     PromiseCache.fetcherCalls (snd (fetchTasks p (snd (fetchTask t w))))
     = S (PromiseCache.fetcherCalls (snd (fetchTask t w)))).
Proof.
  assert (Hsep : ∀ t p, taskKey t ≠ projectTasksKey p) by (intros t p; discriminate).
  split; [done|]. split; [|split].
  - intros t t' H. by injection H.
  - intros p p' H. unfold projectTasksKey in H. simpl in H.
    injection H as H. change (p +:+ "-tasks" = p' +:+ "-tasks") in H.
    by apply string_app_inv_tail in H.
  - intros t p w Hp.
    assert (Hnone : PromiseCache.cache (snd (fetchTask t w)) !! projectTasksKey p = None).
    { unfold fetchTask, PromiseCache.cachedFetch.
      destruct (PromiseCache.cache w !! taskKey t); [done|].
      unfold request, PromiseCache.promiseCatch. simpl.
      destruct ((PromiseCache.promises w ++ [Pending]) !! length (PromiseCache.promises w))
        as [[| |]|]; simpl; rewrite lookup_insert_ne; try done; apply Hsep. }
    split; [done|]. by apply cachedFetch_miss_calls.
Qed.

End TaskKeys.

(** ** The [resetKeys] of the chapter 15 boundary *)
Section ResetKeys.
Import BoardBoundary.

Lemma strictEquals_true (val : ResetKey) (other : option ResetKey) :
  strictEquals val other = true ↔ other = Some val ∧ val ≠ KNaN.
Proof.
  destruct val as [s|n|], other as [[t|m|]|]; simpl;
    rewrite ?bool_decide_eq_true;
    (split; [intros ?|intros [? ?]]); simplify_eq; done.
Qed.

Lemma everyFrom_lookup (pre b a : list ResetKey) :
  everyFrom (length pre) (fun val idx => strictEquals val ((pre ++ b) !! idx)) a = true
  ∧ length a = length b
  ↔ a = b ∧ KNaN ∉ a.
Proof.
  revert pre b. induction a as [|val a IH]; intros pre b.
  - simpl. split.
    + intros [_ Hlen]. destruct b; [|done]. split; [done|]. apply not_elem_of_nil.
    + by intros [<- _].
  - cbn [everyFrom]. rewrite andb_true_iff, strictEquals_true.
    rewrite lookup_app_r by lia. rewrite Nat.sub_diag.
    destruct b as [|y b].
    { split; [by intros [_ ?]|by intros [? _]]. }
    specialize (IH (pre ++ [y]) b).
    rewrite length_app, <- app_assoc in IH. simpl in IH.
    rewrite Nat.add_1_r in IH. simpl.
    rewrite not_elem_of_cons. split.
    + intros [[[[= ->] Hnan] Hev] Hlen].
      destruct IH as [IH _]. destruct IH as [-> Hnot]; [split; [done|lia]|].
      split; [done|]. split; [congruence|done].
    + intros [[= -> ->] [Hnan Hnot]].
      destruct IH as [_ IH]. destruct IH as [Hev Hlen]; [done|].
      split; [|lia]. split; [|done]. split; [done|congruence].
Qed.

Lemma arraysEqual_true (a b : option (list ResetKey)) :
  arraysEqual a b = true ↔ default [] a = default [] b ∧ KNaN ∉ default [] a.
Proof.
  unfold arraysEqual.
  pose proof (everyFrom_lookup [] (default [] b) (default [] a)) as H.
  simpl in H. rewrite <- H, andb_true_iff, bool_decide_eq_true. tauto.
Qed.

(** X8.  [arraysEqual] says yes exactly when the two arrays (a missing one
    counts as empty) have the same elements in the same order and none of
    them is [NaN].  So it is symmetric, but an array is equal to itself only
    when it holds no [NaN]. *)
Theorem arraysEqual_iff_same_without_NaN (a b : option (list ResetKey)) :
  (arraysEqual a b = true ↔ default [] a = default [] b ∧ KNaN ∉ default [] a) ∧
  arraysEqual a b = arraysEqual b a ∧
  (arraysEqual a a = true ↔ KNaN ∉ default [] a).
Proof.
  split; [apply arraysEqual_true|]. split.
  - destruct (arraysEqual a b) eqn:Hab, (arraysEqual b a) eqn:Hba; try done.
    + apply arraysEqual_true in Hab as [Heq Hnan].
      assert (arraysEqual b a = true); [|congruence].
      apply arraysEqual_true. by rewrite <- Heq.
    + apply arraysEqual_true in Hba as [Heq Hnan].
      assert (arraysEqual a b = true); [|congruence].
      apply arraysEqual_true. by rewrite <- Heq.
  - rewrite arraysEqual_true. tauto.
Qed.

(** X9.  A boundary that holds an error is reset by an update exactly when
    [resetKeys] is supplied and differs from the previous one (a missing
    previous one counts as empty) or holds [NaN]; otherwise the update leaves
    the state as it is, so taking the [resetKeys] prop away never resets.
    For [TaskBoard], whose key is [[projectId]], the error is cleared exactly
    when the project changes; for [TaskBoardWithRecovery] also when the retry
    count changes. *)
Theorem resetKeys_change_clears_error (prevProps props : Props) (st : ErrorBoundaryState) :
  hasError st = true ->
  (componentDidUpdate prevProps props st = initialState ↔
   ∃ ks, resetKeys props = Some ks ∧
         (default [] (resetKeys prevProps) ≠ ks ∨ KNaN ∈ ks)) ∧
  (componentDidUpdate prevProps props st = initialState ∨
   componentDidUpdate prevProps props st = st) ∧
  (∀ p q, componentDidUpdate (TaskBoardProps p) (TaskBoardProps q) st
          = if decide (p = q) then st else initialState) ∧
  (∀ p q m n, componentDidUpdate (RecoveryProps p m) (RecoveryProps q n) st
              = if decide (p = q ∧ m = n) then st else initialState).
Proof.
  intros Herr.
  assert (Hne : st ≠ initialState) by (intros ->; done).
  assert (Hgen : ∀ prev cur,
    componentDidUpdate prev cur st
    = if bool_decide (is_Some (resetKeys cur))
         && negb (arraysEqual (resetKeys prev) (resetKeys cur))
      then initialState else st).
  { intros prev cur. unfold componentDidUpdate. by rewrite Herr. }
  split; [|split; [|split]].
  - rewrite Hgen.
    destruct (resetKeys props) as [ks|] eqn:Hks; simpl.
    + destruct (arraysEqual (resetKeys prevProps) (Some ks)) eqn:Heq; simpl.
      * apply arraysEqual_true in Heq as [Heq Hnan]. simpl in Heq.
        split; [done|]. intros (ks' & [= <-] & [H|H]); [done|].
        by rewrite Heq in Hnan.
      * split; [|done]. intros _. exists ks. split; [done|].
        destruct (decide (default [] (resetKeys prevProps) = ks)) as [Heq'|]; [|by left].
        right. destruct (decide (KNaN ∈ ks)) as [|Hnot]; [done|].
        assert (arraysEqual (resetKeys prevProps) (Some ks) = true); [|congruence].
        apply arraysEqual_true. simpl. by rewrite Heq'.
    + split; [done|]. by intros (ks & ? & _).
  - rewrite Hgen. destruct (_ && _); [by left|by right].
  - intros p q. rewrite Hgen. simpl. unfold arraysEqual. simpl.
    rewrite andb_true_r. destruct (decide (p = q)) as [->|Hpq].
    + by rewrite bool_decide_true.
    + by rewrite bool_decide_false.
  - intros p q m n. rewrite Hgen. simpl. unfold arraysEqual. simpl.
    rewrite andb_true_r.
    destruct (decide (p = q ∧ m = n)) as [[-> ->]|Hpq].
    + by rewrite !bool_decide_true.
    + destruct (decide (p = q)) as [->|?]; [|by rewrite bool_decide_false].
      rewrite bool_decide_true by done.
      rewrite bool_decide_false; [done|]. intros ->. by apply Hpq.
Qed.

Lemma resetKeys_change_clears_error_witness :
  let st := getDerivedStateFromError (Some "failed") in
  hasError st = true ∧
  componentDidUpdate (TaskBoardProps "p1") (TaskBoardProps "p2") st = initialState ∧
  componentDidUpdate (TaskBoardProps "p1") (TaskBoardProps "p1") st = st ∧
  (componentDidUpdate (mkProps true (Some [KNaN])) (mkProps true (Some [KNaN])) st
   = initialState ∨
   componentDidUpdate (mkProps true (Some [KNaN])) (mkProps true (Some [KNaN])) st = st).
Proof.
  intros st.
  pose proof (resetKeys_change_clears_error
                (mkProps true (Some [KNaN])) (mkProps true (Some [KNaN])) st eq_refl)
    as (_ & H & Hboard & _).
  split; [reflexivity|]. split; [exact (Hboard "p1" "p2")|].
  split; [exact (Hboard "p1" "p1")|exact H].
Defined.

End ResetKeys.

(** ** The errors of [fetchWithErrorHandling] and what [ErrorFallback] shows *)
Section FetchErrors.
Import AppErrors ErrorFallbackView TasksApi.

Lemma prefix_app (needle post : string) : String.prefix needle (needle +:+ post) = true.
Proof.
  induction needle as [|a needle IH]; simpl; [by destruct post|].
  by destruct (Ascii.ascii_dec a a).
Qed.

Lemma prefix_inv (needle haystack : string) :
  String.prefix needle haystack = true -> ∃ post, haystack = needle +:+ post.
Proof.
  revert haystack. induction needle as [|a needle IH]; intros haystack H.
  - by exists haystack.
  - destruct haystack as [|b haystack]; [done|]. simpl in H.
    destruct (Ascii.ascii_dec a b) as [->|]; [|done].
    destruct (IH _ H) as [post ->]. by exists post.
Qed.

Lemma includes_iff (needle haystack : string) :
  includes needle haystack = true ↔ ∃ pre post, haystack = pre +:+ needle +:+ post.
Proof.
  induction haystack as [|b haystack IH]; cbn [includes].
  - rewrite orb_false_r. split.
    + intros H. destruct (prefix_inv _ _ H) as [post ->]. by exists "", post.
    + intros (pre & post & H). destruct pre as [|c pre]; [|done].
      by destruct needle.
  - rewrite orb_true_iff, IH. split.
    + intros [H|(pre & post & ->)].
      * destruct (prefix_inv _ _ H) as [post ->]. by exists "", post.
      * by exists (String b pre), post.
    + intros (pre & post & H). destruct pre as [|c pre].
      * left. change (String b haystack = needle +:+ post) in H.
        rewrite H. apply prefix_app.
      * right. change (String b haystack = String c (pre +:+ needle +:+ post)) in H.
        injection H as -> ->. by exists pre, post.
Qed.

(** X10.  A response that is not ok always rejects, with an error that is an
    [AppError]: an [AuthenticationError] exactly for status 401, a
    [NotFoundError] exactly for 404, and never a [ValidationError], also not
    for status 400.  Unless the body of a status below 500 is JSON [null], the
    error carries the status of the response as its [statusCode].  So
    [ErrorFallback] never shows the validation layout for a failed response;
    its button leads to the login page for 401, to the home page for 404. *)
Theorem failed_response_rejects_by_status (response : Response) :
  ok response = false ->
  ∃ e, fetchWithErrorHandling (FetchResolves response) = Rejects (ThrownError e) ∧
       instanceOf e AppError = true ∧
       cls e ≠ ValidationError ∧
       (cls e = AuthenticationError ↔ status response = 401%Z) ∧
       (cls e = NotFoundError ↔ status response = 404%Z) ∧
       ((∀ m, json response ≠ JsonValue (JNull m)) ∨
        (500 ≤ status response)%Z ∨ status response = 401%Z ∨ status response = 404%Z ->
        statusCode e = Some (status response) ∧
        action (ErrorFallback e)
        = (if decide (status response = 401%Z) then GoToLogin
           else if decide (status response = 404%Z) then GoToHome
           else Retry)) ∧
       (∀ text, ErrorFallback e ≠ ValidationView text).
Proof.
  intros Hok. unfold fetchWithErrorHandling, tryBlock. rewrite Hok. simpl.
  destruct (decide (status response = 401%Z)) as [H401|H401].
  { rewrite bool_decide_true by done. eexists. split; [done|].
    rewrite H401. repeat split; try done. }
  rewrite bool_decide_false by done.
  destruct (decide (status response = 404%Z)) as [H404|H404].
  { rewrite bool_decide_true by done. eexists. split; [done|].
    rewrite H404. repeat split; try done. }
  rewrite bool_decide_false by done.
  destruct (decide (status response >= 500)%Z) as [H500|H500].
  { rewrite bool_decide_true by done. eexists. split; [done|].
    rewrite ?decide_False by done.
    repeat split; try done. }
  rewrite bool_decide_false by done.
  destruct (json response) as [[msg|m]|t] eqn:Hjson; simpl.
  - destruct (includes "fetch" msg) eqn:Hinc; simpl;
      (eexists; split; [done|]); repeat split; try done;
      destruct H as [H|[H|[H|H]]]; try lia; try done; by destruct (H msg).
  - eexists. split; [done|]. rewrite ?decide_False by done. repeat split; try done.
  - eexists. split; [done|]. rewrite ?decide_False by done. repeat split; try done.
Qed.

Lemma failed_response_rejects_by_status_witness :
  let response := mkResponse false 400 (JsonValue (JObject (Some "title is required"))) in
  ok response = false ∧
  ∃ e, fetchWithErrorHandling (FetchResolves response) = Rejects (ThrownError e) ∧
       cls e = AppError ∧ statusCode e = Some 400%Z ∧
       ErrorFallback e = GenericView "title is required".
Proof.
  intros response. split; [reflexivity|].
  destruct (failed_response_rejects_by_status response eq_refl) as (e & He & _).
  exists e. split; [exact He|].
  injection He as <-. repeat split; reflexivity.
Defined.

(** X11.  Whatever [fetchWithErrorHandling] rejects with is an [AppError],
    with one exception: when the response is ok and reading its body fails,
    the error of [response.json()] reaches the caller as it is, past the
    [catch] block, because the promise is returned without [await]. *)
Theorem rejections_are_AppErrors_except_body_of_ok_response :
  (∀ outcome t,
     fetchWithErrorHandling outcome = Rejects t ->
     (∃ e, t = ThrownError e ∧ instanceOf e AppError = true) ∨
     (∃ response, outcome = FetchResolves response ∧ ok response = true ∧
                  json response = JsonFails t)) ∧
  (∀ response t,
     ok response = true -> json response = JsonFails t ->
     fetchWithErrorHandling (FetchResolves response) = Rejects t) ∧
  (∀ outcome d,
     fetchWithErrorHandling outcome = Resolves d ->
     ∃ response, outcome = FetchResolves response ∧ ok response = true ∧
                 json response = JsonValue d).
Proof.
  assert (Hcatch : ∀ t, ∃ e, catchBlock t = ThrownError e ∧ instanceOf e AppError = true).
  { intros [e|]; simpl; [|by eexists].
    destruct (instanceOf e AppError) eqn:Happ; [by eexists|].
    destruct (_ && _); by eexists. }
  split; [|split].
  - intros outcome t. unfold fetchWithErrorHandling.
    destruct (tryBlock outcome) as [j|t0] eqn:Htry.
    + destruct j as [d|t1]; [done|]. intros [= ->]. right.
      destruct outcome as [response|t0]; [|done]. simpl in Htry.
      destruct (ok response) eqn:Hok; simpl in Htry.
      * injection Htry as Hj. by exists response.
      * repeat case_bool_decide; try done.
        by destruct (json response) as [[?|?]|?].
    + intros [= <-]. left. apply Hcatch.
  - intros response t Hok Hj. unfold fetchWithErrorHandling, tryBlock.
    by rewrite Hok, Hj.
  - intros outcome d. unfold fetchWithErrorHandling.
    destruct (tryBlock outcome) as [j|t0] eqn:Htry; [|done].
    destruct j as [d'|t1]; [|done]. intros [= ->].
    destruct outcome as [response|t0]; [|done]. simpl in Htry.
    destruct (ok response) eqn:Hok; simpl in Htry.
    + injection Htry as Hj. by exists response.
    + repeat case_bool_decide; try done.
      by destruct (json response) as [[?|?]|?].
Qed.

Lemma rejections_are_AppErrors_except_body_of_ok_response_witness :
  let syntaxError := ThrownError (mkError (OtherBuiltin "SyntaxError")
                                          "Unexpected token < in JSON" None None None) in
  let response := mkResponse true 200 (JsonFails syntaxError) in
  fetchWithErrorHandling (FetchResolves response) = Rejects syntaxError ∧
  instanceOf (mkError (OtherBuiltin "SyntaxError") "Unexpected token < in JSON"
                      None None None) AppError = false.
Proof.
  intros syntaxError response. split; [|reflexivity].
  destruct rejections_are_AppErrors_except_body_of_ok_response as (_ & H & _).
  exact (H response syntaxError eq_refl eq_refl).
Defined.

(** X12.  When [fetch] itself fails with an error that is not an [AppError],
    the result is a [NetworkError] exactly when the error is a [TypeError]
    whose message contains the lower-case text ["fetch"] somewhere; any other
    failure becomes an [AppError] with code [UNKNOWN_ERROR], no [statusCode]
    and the message of the original error, and [ErrorFallback] shows it in the
    generic layout, not in the network layout. *)
Theorem fetch_failure_is_network_error_iff (e0 : ErrorObject) :
  instanceOf e0 AppError = false ->
  ∃ e, fetchWithErrorHandling (FetchRejects (ThrownError e0)) = Rejects (ThrownError e) ∧
       (cls e = NetworkError ↔
        cls e0 = TypeError ∧ ∃ pre post, message e0 = pre +:+ "fetch" +:+ post) ∧
       (ErrorFallback e = NetworkView ↔ cls e = NetworkError) ∧
       (cls e ≠ NetworkError ->
        e = newAppError (message e0) "UNKNOWN_ERROR" None None ∧
        ErrorFallback e
        = GenericView (orElse (Some (message e0)) "알 수 없는 오류가 발생했습니다")).
Proof.
  intros Happ. unfold fetchWithErrorHandling. simpl. rewrite Happ.
  assert (Hty : instanceOf e0 TypeError = true ↔ cls e0 = TypeError).
  { unfold instanceOf. destruct (cls e0); simpl; split; done. }
  destruct (instanceOf e0 TypeError && includes "fetch" (message e0)) eqn:Hnet.
  - apply andb_true_iff in Hnet as [Hc Hi].
    apply Hty in Hc. apply includes_iff in Hi.
    eexists. split; [done|]. repeat split; try done.
  - eexists. split; [done|]. simpl.
    split; [|split; [split; done|done]].
    split; [done|]. intros [Hc Hi].
    apply Hty in Hc. apply includes_iff in Hi. by rewrite Hc, Hi in Hnet.
Qed.

Lemma fetch_failure_is_network_error_iff_witness :
  let loadFailed := mkError TypeError "Load failed" None None None in
  instanceOf loadFailed AppError = false ∧
  fetchWithErrorHandling (FetchRejects (ThrownError loadFailed))
  = Rejects (ThrownError (newAppError "Load failed" "UNKNOWN_ERROR" None None)) ∧
  fetchWithErrorHandling
    (FetchRejects (ThrownError (mkError TypeError "Failed to fetch" None None None)))
  = Rejects (ThrownError newNetworkError).
Proof.
  intros loadFailed. split; [reflexivity|].
  destruct (fetch_failure_is_network_error_iff loadFailed eq_refl) as (e & He & _).
  split; [|reflexivity]. rewrite He. vm_compute in He. by injection He as <-.
Defined.

End FetchErrors.

(** ** The task board of chapter 15: its cache and its requests *)
Section BoardRequests.
Import TaskBoard.

Lemma use_fresh (ps : list PromiseState) :
  Host.use (ps ++ [Pending]) (length ps) = Host.Raise (Host.NotReady (length ps)).
Proof.
  unfold Host.use. rewrite lookup_app_r by lia. by rewrite Nat.sub_diag.
Qed.

Lemma cachedRequest_hit (k url : string) (p : PromiseId) (w : World) :
  taskCache w !! k = Some p -> cachedRequest k url w = (p, w).
Proof. intros H. unfold cachedRequest. by rewrite H. Qed.

Lemma cachedRequest_miss (k url : string) (w : World) :
  taskCache w !! k = None ->
  cachedRequest k url w
  = (length (promises w),
     mkWorld (<[k := length (promises w)]> (taskCache w))
             (promises w ++ [Pending]) (requests w ++ [url])).
Proof. intros H. unfold cachedRequest. by rewrite H. Qed.

Lemma board_keys_of_one_project (p q : string) :
  projectKey p ≠ tasksKey q ∧ projectKey p ≠ membersKey q ∧ tasksKey p ≠ membersKey q.
Proof. repeat split; discriminate. Qed.

Lemma board_keys_injective (p q : string) :
  (projectKey p = projectKey q -> p = q) ∧
  (tasksKey p = tasksKey q -> p = q) ∧
  (membersKey p = membersKey q -> p = q).
Proof. repeat split; intros H; by injection H. Qed.

(** X13.  One render of [TaskBoardContent] starts at most one request, and
    when it starts one it suspends on the promise of that request.  The three
    [use] calls are therefore not parallel: a request is started only in a
    render in which every read before it has returned a value. *)
Theorem board_render_starts_at_most_one_request (projectId : string) (w : World) :
  match TaskBoardContent projectId w with
  | (c, w') =>
      promises w' = promises w ∧ requests w' = requests w ∨
      (∃ url, url ∈ [projectUrl projectId; tasksUrl projectId; membersUrl projectId] ∧
              requests w' = requests w ++ [url] ∧
              promises w' = promises w ++ [Pending] ∧
              c = Raised (Host.NotReady (length (promises w))))
  end.
Proof.
  unfold TaskBoardContent, fetchProject, fetchTasks, fetchTeamMembers.
  destruct (taskCache w !! projectKey projectId) as [p1|] eqn:H1.
  2:{ rewrite (cachedRequest_miss _ _ _ H1). simpl. rewrite use_fresh.
      right. eexists. split; [|done]. set_solver. }
  rewrite (cachedRequest_hit _ _ _ _ H1).
  destruct (Host.use (promises w) p1) as [project|sig]; [|by left].
  destruct (taskCache w !! tasksKey projectId) as [p2|] eqn:H2.
  2:{ rewrite (cachedRequest_miss _ _ _ H2). simpl. rewrite use_fresh.
      right. eexists. split; [|done]. set_solver. }
  rewrite (cachedRequest_hit _ _ _ _ H2).
  destruct (Host.use (promises w) p2) as [tasks|sig]; [|by left].
  destruct (taskCache w !! membersKey projectId) as [p3|] eqn:H3.
  2:{ rewrite (cachedRequest_miss _ _ _ H3). simpl. rewrite use_fresh.
      right. eexists. split; [|done]. set_solver. }
  rewrite (cachedRequest_hit _ _ _ _ H3).
  destruct (Host.use (promises w) p3) as [members|sig]; by left.
Qed.

End BoardRequests.

(** ** A cold start of the task board, with and without preloading *)
Section BoardColdStart.
Import TaskBoard.

Lemma settle_last (ps : list PromiseState) (o : Settlement) (c : gmap string PromiseId)
    (rq : list string) :
  settle (length ps) o (mkWorld c (ps ++ [Pending]) rq)
  = mkWorld c (ps ++ [settledState o]) rq.
Proof.
  unfold settle. simpl. rewrite lookup_app_r by lia. rewrite Nat.sub_diag. simpl.
  f_equal. rewrite insert_app_r_alt by lia. by rewrite Nat.sub_diag.
Qed.

Lemma use_app_l (ps qs : list PromiseState) (p : PromiseId) (v : Value) :
  Host.use ps p = Host.Ready v -> Host.use (ps ++ qs) p = Host.Ready v.
Proof.
  unfold Host.use. destruct (ps !! p) as [[|v'|e]|] eqn:Hp; try done.
  intros [= ->]. by rewrite (lookup_app_l_Some _ _ _ _ Hp).
Qed.

Lemma use_last_fulfilled (ps : list PromiseState) (v : Value) :
  Host.use (ps ++ [Fulfilled v]) (length ps) = Host.Ready v.
Proof.
  unfold Host.use. rewrite lookup_app_r by lia. by rewrite Nat.sub_diag.
Qed.

(** X14.  From a cache without entries for a project, the board needs four
    renders: the first requests the project only, the second (once the
    project has arrived) the tasks only, the third (once the tasks have
    arrived) the members only, and the fourth shows the board.  The three
    requests go out one after the other, not at the same time. *)
Theorem board_cold_start_is_sequential
    (projectId : string) (v1 v2 v3 : Value) (w : World) :
  taskCache w !! projectKey projectId = None ->
  taskCache w !! tasksKey projectId = None ->
  taskCache w !! membersKey projectId = None ->
  let n := length (promises w) in
  let r1 := TaskBoardContent projectId w in
  let r2 := TaskBoardContent projectId (settle n (FulfilWith v1) (snd r1)) in
  let r3 := TaskBoardContent projectId (settle (S n) (FulfilWith v2) (snd r2)) in
  let r4 := TaskBoardContent projectId (settle (S (S n)) (FulfilWith v3) (snd r3)) in
  fst r1 = Raised (Host.NotReady n) ∧
  requests (snd r1) = requests w ++ [projectUrl projectId] ∧
  fst r2 = Raised (Host.NotReady (S n)) ∧
  requests (snd r2) = requests w ++ [projectUrl projectId; tasksUrl projectId] ∧
  fst r3 = Raised (Host.NotReady (S (S n))) ∧
  requests (snd r3)
  = requests w ++ [projectUrl projectId; tasksUrl projectId; membersUrl projectId] ∧
  fst r4 = Board v1 v2 v3 ∧
  requests (snd r4) = requests (snd r3).
Proof.
  intros Hp Ht Hm n r1 r2 r3 r4.
  destruct (board_keys_of_one_project projectId projectId) as (Hpt & Hpm & Htm).
  set (c1 := <[projectKey projectId := n]> (taskCache w)).
  set (c2 := <[tasksKey projectId := S n]> c1).
  set (c3 := <[membersKey projectId := S (S n)]> c2).
  assert (Hlen1 : length (promises w ++ [Fulfilled v1]) = S n)
    by (subst n; rewrite length_app; simpl; lia).
  assert (Hlen2 : length ((promises w ++ [Fulfilled v1]) ++ [Fulfilled v2]) = S (S n))
    by (subst n; rewrite !length_app; simpl; lia).
  assert (H1 : r1 = (Raised (Host.NotReady n),
                     mkWorld c1 (promises w ++ [Pending])
                             (requests w ++ [projectUrl projectId]))).
  { subst r1. unfold TaskBoardContent, fetchProject.
    rewrite (cachedRequest_miss _ _ _ Hp). simpl. by rewrite use_fresh. }
  assert (H2 : r2 = (Raised (Host.NotReady (S n)),
                     mkWorld c2 ((promises w ++ [Fulfilled v1]) ++ [Pending])
                             (requests w ++ [projectUrl projectId; tasksUrl projectId]))).
  { subst r2. rewrite H1. simpl. unfold n at 1. rewrite settle_last. simpl.
    unfold TaskBoardContent, fetchProject, fetchTasks.
    rewrite (cachedRequest_hit _ _ n) by (simpl; apply lookup_insert_eq).
    simpl. unfold n at 1. rewrite use_last_fulfilled.
    rewrite cachedRequest_miss
      by (simpl; unfold c1; rewrite lookup_insert_ne by done; exact Ht).
    simpl. rewrite use_fresh, Hlen1. by rewrite <- (app_assoc (requests w)). }
  assert (H3 : r3 = (Raised (Host.NotReady (S (S n))),
                     mkWorld c3
                       (((promises w ++ [Fulfilled v1]) ++ [Fulfilled v2]) ++ [Pending])
                       (requests w ++ [projectUrl projectId; tasksUrl projectId;
                                       membersUrl projectId]))).
  { subst r3. rewrite H2. simpl.
    rewrite <- Hlen1 at 1. rewrite settle_last. simpl.
    unfold TaskBoardContent, fetchProject, fetchTasks, fetchTeamMembers.
    rewrite (cachedRequest_hit _ _ n)
      by (simpl; unfold c2, c1; rewrite lookup_insert_ne by done; apply lookup_insert_eq).
    simpl.
    rewrite (use_app_l _ _ _ v1) by apply use_last_fulfilled.
    rewrite (cachedRequest_hit _ _ (S n)) by (simpl; unfold c2; apply lookup_insert_eq).
    simpl. rewrite <- Hlen1 at 1. rewrite use_last_fulfilled.
    rewrite cachedRequest_miss
      by (simpl; unfold c2, c1; rewrite !lookup_insert_ne by done; exact Hm).
    simpl. rewrite use_fresh, Hlen2. by rewrite <- (app_assoc (requests w)). }
  assert (H4 : r4 = (Board v1 v2 v3,
                     mkWorld c3
                       (((promises w ++ [Fulfilled v1]) ++ [Fulfilled v2]) ++ [Fulfilled v3])
                       (requests w ++ [projectUrl projectId; tasksUrl projectId;
                                       membersUrl projectId]))).
  { subst r4. rewrite H3. simpl.
    rewrite <- Hlen2 at 1. rewrite settle_last. simpl.
    unfold TaskBoardContent, fetchProject, fetchTasks, fetchTeamMembers.
    rewrite (cachedRequest_hit _ _ n)
      by (simpl; unfold c3, c2, c1; rewrite !lookup_insert_ne by done;
          apply lookup_insert_eq).
    simpl.
    rewrite (use_app_l _ _ _ v1) by (apply use_app_l; apply use_last_fulfilled).
    rewrite (cachedRequest_hit _ _ (S n))
      by (simpl; unfold c3, c2; rewrite lookup_insert_ne by done; apply lookup_insert_eq).
    simpl.
    rewrite (use_app_l _ _ _ v2) by (rewrite <- Hlen1; apply use_last_fulfilled).
    rewrite (cachedRequest_hit _ _ (S (S n))) by (simpl; unfold c3; apply lookup_insert_eq).
    simpl. rewrite <- Hlen2. by rewrite use_last_fulfilled. }
  rewrite H4, H3, H2, H1. simpl. repeat split; try done.
Qed.

Lemma board_cold_start_is_sequential_witness :
  let w := mkWorld {[projectKey "p2" := 0]} [Fulfilled 7] [projectUrl "p2"] in
  taskCache w !! projectKey "p1" = None ∧
  taskCache w !! tasksKey "p1" = None ∧
  taskCache w !! membersKey "p1" = None ∧
  requests (snd (TaskBoardContent "p1" w)) = [projectUrl "p2"; projectUrl "p1"] ∧
  fst (TaskBoardContent "p1" w) = Raised (Host.NotReady 1).
Proof.
  intros w.
  assert (Hp : taskCache w !! projectKey "p1" = None) by reflexivity.
  assert (Ht : taskCache w !! tasksKey "p1" = None) by reflexivity.
  assert (Hm : taskCache w !! membersKey "p1" = None) by reflexivity.
  pose proof (board_cold_start_is_sequential "p1" 1 2 3 w Hp Ht Hm) as (H1 & H2 & _).
  split; [exact Hp|]. split; [exact Ht|]. split; [exact Hm|].
  split; [exact H2|exact H1].
Defined.

(** X15.  Preloading ([handleMouseEnter] of [ProjectLink]) on a cache without
    entries for the project starts the project request and the tasks request
    together.  The board that renders afterwards starts no request while it
    waits for the project, and a second [handleMouseEnter] changes nothing. *)
Theorem preload_starts_project_and_tasks_together (projectId : string) (w : World) :
  taskCache w !! projectKey projectId = None ->
  taskCache w !! tasksKey projectId = None ->
  let n := length (promises w) in
  let w1 := handleMouseEnter projectId w in
  requests w1 = requests w ++ [projectUrl projectId; tasksUrl projectId] ∧
  promises w1 = promises w ++ [Pending; Pending] ∧
  taskCache w1 !! projectKey projectId = Some n ∧
  taskCache w1 !! tasksKey projectId = Some (S n) ∧
  handleMouseEnter projectId w1 = w1 ∧
  TaskBoardContent projectId w1 = (Raised (Host.NotReady n), w1).
Proof.
  intros Hp Ht n w1.
  destruct (board_keys_of_one_project projectId projectId) as (Hpt & Hpm & Htm).
  assert (H1 : w1 = mkWorld (<[tasksKey projectId := S n]>
                               (<[projectKey projectId := n]> (taskCache w)))
                            (promises w ++ [Pending; Pending])
                            (requests w ++ [projectUrl projectId; tasksUrl projectId])).
  { subst w1. unfold handleMouseEnter, fetchProject, fetchTasks.
    rewrite (cachedRequest_miss _ _ _ Hp). simpl.
    rewrite cachedRequest_miss by (simpl; by rewrite lookup_insert_ne).
    simpl. rewrite length_app. simpl. rewrite Nat.add_1_r.
    by rewrite <- !app_assoc. }
  assert (Hcp : taskCache w1 !! projectKey projectId = Some n).
  { rewrite H1. simpl. rewrite lookup_insert_ne by done. apply lookup_insert_eq. }
  assert (Hct : taskCache w1 !! tasksKey projectId = Some (S n)).
  { rewrite H1. simpl. apply lookup_insert_eq. }
  split; [by rewrite H1|]. split; [by rewrite H1|].
  split; [done|]. split; [done|]. split.
  - unfold handleMouseEnter, fetchProject, fetchTasks.
    rewrite (cachedRequest_hit _ _ _ _ Hcp). simpl.
    by rewrite (cachedRequest_hit _ _ _ _ Hct).
  - unfold TaskBoardContent, fetchProject.
    rewrite (cachedRequest_hit _ _ _ _ Hcp).
    assert (Hu : Host.use (promises w1) n = Host.Raise (Host.NotReady n)).
    { rewrite H1. simpl. unfold Host.use. subst n.
      rewrite lookup_app_r by lia. by rewrite Nat.sub_diag. }
    by rewrite Hu.
Qed.

Lemma preload_starts_project_and_tasks_together_witness :
  let w := mkWorld ∅ [] [] in
  taskCache w !! projectKey "p1" = None ∧
  taskCache w !! tasksKey "p1" = None ∧
  requests (handleMouseEnter "p1" w) = [projectUrl "p1"; tasksUrl "p1"].
Proof.
  intros w.
  pose proof (preload_starts_project_and_tasks_together "p1" w eq_refl eq_refl)
    as (H & _).
  split; [reflexivity|]. split; [reflexivity|]. exact H.
Defined.

End BoardColdStart.

(** ** Errors of the task board: reset and invalidation *)
Section BoardReset.
Import TaskBoard.

Lemma TaskBoardContent_failure_keeps_world (projectId : string) (e : JsError) (w : World) :
  fst (TaskBoardContent projectId w) = Raised (Host.OperationFailed e) ->
  snd (TaskBoardContent projectId w) = w.
Proof.
  unfold TaskBoardContent, fetchProject, fetchTasks, fetchTeamMembers.
  destruct (taskCache w !! projectKey projectId) as [p1|] eqn:H1.
  2:{ rewrite (cachedRequest_miss _ _ _ H1). simpl. by rewrite use_fresh. }
  rewrite (cachedRequest_hit _ _ _ _ H1).
  destruct (Host.use (promises w) p1) as [project|sig]; [|done].
  destruct (taskCache w !! tasksKey projectId) as [p2|] eqn:H2.
  2:{ rewrite (cachedRequest_miss _ _ _ H2). simpl. by rewrite use_fresh. }
  rewrite (cachedRequest_hit _ _ _ _ H2).
  destruct (Host.use (promises w) p2) as [tasks|sig]; [|done].
  destruct (taskCache w !! membersKey projectId) as [p3|] eqn:H3.
  2:{ rewrite (cachedRequest_miss _ _ _ H3). simpl. by rewrite use_fresh. }
  rewrite (cachedRequest_hit _ _ _ _ H3).
  by destruct (Host.use (promises w) p3) as [members|sig].
Qed.

Lemma clickReset_failure (projectId : string) (e : JsError) (b : BoardState) :
  fst (TaskBoardContent projectId (world b)) = Raised (Host.OperationFailed e) ->
  clickReset projectId b
  = (FallbackShown e,
     mkBoard (world b) (BoardBoundary.getDerivedStateFromError (Some e))).
Proof.
  intros H. pose proof (TaskBoardContent_failure_keeps_world _ _ _ H) as Hw.
  unfold clickReset, renderTaskBoard. simpl.
  destruct (TaskBoardContent projectId (world b)) as [c w1]. simpl in *.
  by subst.
Qed.

(** X16.  The reset button of the board's fallback never starts a request.
    When a render of the board fails with an error, every click on the
    button renders the children again, they read the same rejected promise
    from [taskCache], and the same error comes back: after any number of
    clicks the cache, the promises and the list of requests are what they
    were, and the fallback shows the same error. *)
Theorem reset_button_never_refetches
    (n : nat) (projectId : string) (e : JsError) (b : BoardState) :
  fst (TaskBoardContent projectId (world b)) = Raised (Host.OperationFailed e) ->
  world (clickResetTimes n projectId b) = world b ∧
  clickReset projectId (clickResetTimes n projectId b)
  = (FallbackShown e,
     mkBoard (world b) (BoardBoundary.getDerivedStateFromError (Some e))).
Proof.
  revert b. induction n as [|n IH]; intros b H.
  - split; [done|]. by apply clickReset_failure.
  - simpl. rewrite (clickReset_failure _ _ _ H). simpl.
    destruct (IH (mkBoard (world b) (BoardBoundary.getDerivedStateFromError (Some e))) H)
      as [IH1 IH2].
    split; [exact IH1|exact IH2].
Qed.

Lemma reset_button_never_refetches_witness :
  let b := mkBoard (mkWorld {[projectKey "p1" := 0]} [Rejected "not found"]
                            [projectUrl "p1"])
                   (BoardBoundary.getDerivedStateFromError (Some "not found")) in
  fst (TaskBoardContent "p1" (world b)) = Raised (Host.OperationFailed "not found") ∧
  requests (world (clickResetTimes 3 "p1" b)) = [projectUrl "p1"] ∧
  fst (clickReset "p1" (clickResetTimes 3 "p1" b)) = FallbackShown "not found".
Proof.
  intros b.
  destruct (reset_button_never_refetches 3 "p1" "not found" b eq_refl) as [Hw Hv].
  split; [reflexivity|]. split; [by rewrite Hw|by rewrite Hv].
Defined.

(** X17.  [invalidateProjectCache] removes the three entries of its project
    and nothing else: the entries of every other project, the promises and
    the requests stay as they are.  It is what makes the reset button fetch
    again: after it, a click on the button shows the skeleton and starts the
    project request anew. *)
Theorem invalidateProjectCache_only_that_project (p : string) (w : World) :
  let w' := invalidateProjectCache p w in
  Forall (fun k => taskCache w' !! k = None) [projectKey p; tasksKey p; membersKey p] ∧
  (∀ k, k ∉ [projectKey p; tasksKey p; membersKey p] ->
        taskCache w' !! k = taskCache w !! k) ∧
  (∀ q, q ≠ p ->
        Forall (fun k => taskCache w' !! k = taskCache w !! k)
               [projectKey q; tasksKey q; membersKey q]) ∧
  promises w' = promises w ∧
  requests w' = requests w ∧
  (∀ st, clickReset p (mkBoard w' st)
         = (SkeletonShown,
            mkBoard (mkWorld (<[projectKey p := length (promises w)]> (taskCache w'))
                             (promises w ++ [Pending])
                             (requests w ++ [projectUrl p]))
                    BoardBoundary.initialState)).
Proof.
  intros w'.
  destruct (board_keys_of_one_project p p) as (Hpt & Hpm & Htm).
  assert (Hframe : ∀ k, k ∉ [projectKey p; tasksKey p; membersKey p] ->
                        taskCache w' !! k = taskCache w !! k).
  { intros k Hk. subst w'. unfold invalidateProjectCache. simpl.
    rewrite !not_elem_of_cons in Hk. destruct Hk as (H1 & H2 & H3 & _).
    by rewrite !lookup_delete_ne. }
  assert (Hnone : taskCache w' !! projectKey p = None).
  { subst w'. unfold invalidateProjectCache. simpl.
    rewrite !lookup_delete_ne by done. apply lookup_delete_eq. }
  split; [|split; [done|split; [|split; [done|split; [done|]]]]].
  - subst w'. unfold invalidateProjectCache. simpl. repeat constructor.
    + done.
    + rewrite lookup_delete_ne by done. apply lookup_delete_eq.
    + apply lookup_delete_eq.
  - intros q Hq.
    destruct (board_keys_injective q p) as (Ip & It & Im).
    destruct (board_keys_of_one_project q p) as (Hqpt & Hqpm & Hqtm).
    destruct (board_keys_of_one_project p q) as (Hpqt & Hpqm & Hptqm).
    repeat constructor; apply Hframe; rewrite !not_elem_of_cons;
      repeat split; try done; try (by apply not_elem_of_nil);
      try (intros Heq; apply Hq; auto); by intros Heq; symmetry in Heq.
  - intros st. unfold clickReset, renderTaskBoard. simpl.
    unfold TaskBoardContent, fetchProject.
    rewrite (cachedRequest_miss _ _ _ Hnone). simpl.
    by rewrite use_fresh.
Qed.

End BoardReset.

(** ** [withRetry] *)
Section WithRetry.
Import Retry.


(** The loop gives the same result with any fuel that covers the rounds the
    loop condition admits. *)
Lemma loop_fuel_enough (fn : Z -> Completion Value) (m d : Z) (bo : Backoff) (cb : bool)
    (fuel1 fuel2 : nat) (a : Z) (last : option JsError) (tr : Trace) :
  (Z.to_nat (m - a + 1) ≤ fuel1)%nat ->
  (Z.to_nat (m - a + 1) ≤ fuel2)%nat ->
  loop fuel1 fn m d bo cb a last tr = loop fuel2 fn m d bo cb a last tr.
Proof.
  revert fuel2 a last tr. induction fuel1 as [|fuel1 IH]; intros fuel2 a last tr H1 H2.
  - destruct fuel2 as [|fuel2]; [done|]. simpl.
    rewrite bool_decide_false by lia. done.
  - destruct fuel2 as [|fuel2]; simpl.
    + rewrite bool_decide_false by lia. done.
    + case_bool_decide as Hle; [|done].
      destruct (fn a) as [v|e]; [done|].
      case_bool_decide as Heq; [done|].
      apply IH; lia.
Qed.






Lemma loop_bounds (fn : Z -> Completion Value) (m d : Z) (bo : Backoff) (cb : bool)
    (fuel : nat) :
  ∀ (a : Z) (last : option JsError) (tr : Trace),
    (Z.to_nat (m - a + 1) ≤ fuel)%nat ->
    let r := loop fuel fn m d bo cb a last tr in
    ((m < a)%Z ∧ snd r = tr ∧ fst r = Rejects last) ∨
    ((a <= m)%Z ∧
     calls tr < calls (snd r) ≤ calls tr + Z.to_nat (m - a + 1) ∧
     length (timers (snd r)) + 1 + calls tr = length (timers tr) + calls (snd r) ∧
     fst r ≠ Rejects None).
Proof.
  induction fuel as [|fuel IH]; intros a last tr Hfuel; simpl.
  { left. split; [lia|done]. }
  case_bool_decide as Hle; [|left; split; [lia|done]].
  right. split; [done|].
  destruct (fn a) as [v|e]; [simpl; repeat split; try done; lia|].
  case_bool_decide as Heq; [simpl; repeat split; try done; lia|].
  match goal with
  | |- context [loop fuel fn m d bo cb ?a' ?l' ?t'] =>
      destruct (IH a' l' t') as [(Hc & _)|(_ & Hc & Ht & Hr)]; [lia|lia|]
  end; simpl in *.
  rewrite length_app in Ht. simpl in Ht. repeat split; try done; lia.
Qed.





(** X20.  For a whole number [maxAttempts] up to [Number.MAX_SAFE_INTEGER]
    and a [fn] whose failures carry an error value: [withRetry] never calls
    [fn] more than [maxAttempts] times, and it sets one timer less than it
    makes calls.  With [maxAttempts] of zero or less it calls nothing and
    rejects with [undefined]; for such a [fn] this is the only case in which
    it rejects with [undefined]. *)
Theorem withRetry_call_and_timer_bounds
    (fn : Z -> Completion Value) (options : RetryOptions) :
  let m := default 3%Z (maxAttempts options) in
  let r := withRetry fn options in
  (m <= MAX_SAFE_INTEGER)%Z ->
  calls (snd r) ≤ Z.to_nat m ∧
  length (timers (snd r)) = pred (calls (snd r)) ∧
  (fst r = Rejects None ↔ (m <= 0)%Z) ∧
  (calls (snd r) = 0 ↔ (m <= 0)%Z).
Proof.
  intros m r _. subst r. unfold withRetry. fold m.
  match goal with
  | |- context [loop ?fuel fn m ?d ?bo ?cb ?a ?l ?t] =>
      pose proof (loop_bounds fn m d bo cb fuel a l t ltac:(lia)) as H;
      set (r := loop fuel fn m d bo cb a l t) in *
  end.
  simpl in H. destruct H as [(Hm & -> & ->)|(Hm & Hc & Ht & Hr)]; simpl in *.
  - repeat split; try done; lia.
  - repeat split; try done; lia.
Qed.

Lemma withRetry_call_and_timer_bounds_witness :
  let fn := fun i : Z => if bool_decide (i < 2)%Z then Throw "busy" else Normal 7 in
  let r := withRetry fn fetchTasksOptions in
  (3 <= MAX_SAFE_INTEGER)%Z ∧
  calls (snd r) = 2 ∧ timers (snd r) = [1000%Z] ∧
  calls (snd r) ≤ 3 ∧
  length (timers (snd r)) = pred (calls (snd r)) ∧
  (fst r = Rejects None ↔ (3 <= 0)%Z) ∧
  (calls (snd r) = 0 ↔ (3 <= 0)%Z).
Proof.
  intros fn r.
  assert (Hsafe : (3 <= MAX_SAFE_INTEGER)%Z).
  { unfold MAX_SAFE_INTEGER. simpl. lia. }
  split; [exact Hsafe|]. split; [reflexivity|]. split; [reflexivity|].
  exact (withRetry_call_and_timer_bounds fn fetchTasksOptions Hsafe).
Defined.

End WithRetry.

(** ** The window of [VirtualizedTaskList] *)
Section VirtualWindow.
Import VirtualList.

Lemma slice_lookup {A : Type} (l : list A) (s e : Z) (j : nat) :
  (0 <= s)%Z -> (0 <= e <= Z.of_nat (length l))%Z -> (s + Z.of_nat j < e)%Z ->
  slice l s e !! j = l !! (Z.to_nat s + j).
Proof.
  intros Hs He Hj. unfold slice, relativeIndex.
  rewrite !bool_decide_false by lia.
  rewrite (Z.min_l s) by lia. rewrite (Z.min_l e) by lia.
  rewrite lookup_take_lt by lia. by rewrite lookup_drop.
Qed.

Lemma slice_length {A : Type} (l : list A) (s e : Z) :
  (0 <= s)%Z -> (0 <= e)%Z -> length (slice l s e) ≤ Z.to_nat (e - s).
Proof.
  intros Hs He. unfold slice, relativeIndex.
  rewrite !bool_decide_false by lia.
  rewrite length_take, length_drop. lia.
Qed.

(** X21.  Every task whose row lies at least partly inside the viewport is
    rendered, and at the place of its row: if row [i] (from [i * 200] to
    [(i + 1) * 200]) meets the visible range from [scrollTop] to
    [scrollTop + containerHeight], then the task is one of [visibleTasks],
    and the rendered row that holds it begins at [i * 200]. *)
Theorem viewport_rows_are_rendered {A : Type}
    (tasks : list A) (scrollTop containerHeight : Z) (i : nat) (t : A) :
  tasks !! i = Some t ->
  (Z.of_nat i * ITEM_HEIGHT < scrollTop + containerHeight)%Z ->
  (scrollTop < (Z.of_nat i + 1) * ITEM_HEIGHT)%Z ->
  ∃ j : nat,
    visibleTasks tasks scrollTop containerHeight !! j = Some t ∧
    rowTop scrollTop j = (Z.of_nat i * ITEM_HEIGHT)%Z.
Proof.
  intros Ht Hlow Hhigh.
  pose proof (lookup_lt_Some _ _ _ Ht) as Hlen.
  unfold visibleTasks, rowTop, offsetY, endIndex, startIndex, visibleCount,
    ceilDiv, ITEM_HEIGHT, BUFFER in *.
  set (f := (scrollTop / 200)%Z).
  set (c := (- (- containerHeight / 200))%Z).
  assert (Hf : (f <= Z.of_nat i)%Z) by (subst f; Z.div_mod_to_equations; lia).
  assert (Hc : (Z.of_nat i <= f + c)%Z) by (subst f c; Z.div_mod_to_equations; lia).
  set (s := Z.max 0 (f - 3)).
  assert (Hs : (0 <= s <= Z.of_nat i)%Z) by (subst s; lia).
  exists (Z.to_nat (Z.of_nat i - s)). split.
  - rewrite slice_lookup; [|lia|lia|subst s; lia].
    rewrite <- Ht. f_equal. lia.
  - lia.
Qed.

Lemma viewport_rows_are_rendered_witness :
  ∃ j : nat,
    visibleTasks (seq 0 100) 5000 450 !! j = Some 27 ∧
    rowTop 5000 j = (27 * ITEM_HEIGHT)%Z.
Proof.
  exact (viewport_rows_are_rendered (seq 0 100) 5000 450 27 27
           eq_refl ltac:(unfold ITEM_HEIGHT; lia) ltac:(unfold ITEM_HEIGHT; lia)).
Defined.

(** X22.  However long the list is, at most [visibleCount + 2 * BUFFER] rows
    are rendered: the rows that fit the container and six more.  The first
    rendered row begins at or above the top of the viewport whenever
    the list has been scrolled down. *)
Theorem rendered_rows_are_bounded {A : Type} (tasks : list A) (scrollTop containerHeight : Z) :
  (0 <= containerHeight)%Z ->
  length (visibleTasks tasks scrollTop containerHeight)
  ≤ Z.to_nat (visibleCount containerHeight + BUFFER * 2) ∧
  (visibleCount containerHeight * ITEM_HEIGHT < containerHeight + ITEM_HEIGHT)%Z ∧
  ((0 <= scrollTop)%Z -> (rowTop scrollTop 0 <= scrollTop)%Z).
Proof.
  intros Hh.
  unfold visibleTasks, rowTop, offsetY, endIndex, startIndex, visibleCount,
    ceilDiv, ITEM_HEIGHT, BUFFER in *.
  set (f := (scrollTop / 200)%Z).
  set (c := (- (- containerHeight / 200))%Z).
  assert (Hc : (0 <= c ∧ c * 200 < containerHeight + 200)%Z)
    by (subst c; Z.div_mod_to_equations; lia).
  split; [|split].
  - etrans; [apply slice_length; lia|]. lia.
  - lia.
  - intros Hs. assert (0 <= f ∧ f * 200 <= scrollTop)%Z
      by (subst f; Z.div_mod_to_equations; lia). lia.
Qed.

Lemma rendered_rows_are_bounded_witness :
  length (visibleTasks (seq 0 1000) 5000 450) ≤ Z.to_nat (visibleCount 450 + BUFFER * 2) ∧
  visibleCount 450 = 3%Z.
Proof.
  split; [|reflexivity].
  exact (proj1 (rendered_rows_are_bounded (seq 0 1000) 5000 450 ltac:(lia))).
Defined.

End VirtualWindow.

(** ** Sequential and parallel loading of a task list (chapter 11) *)
Section TaskListLoading.
Import CachedTasksApi TaskLists.

Lemma taskKey_inj (t t' : string) : taskKey t = taskKey t' -> t = t'.
Proof. intros H. by injection H. Qed.

Lemma readTask_hit (taskId : string) (p : PromiseId) (w : PromiseCache.World) :
  PromiseCache.cache w !! taskKey taskId = Some p ->
  readTask taskId w = (Host.use (PromiseCache.promises w) p, w).
Proof.
  intros H. unfold readTask, fetchTask, PromiseCache.cachedFetch. by rewrite H.
Qed.

Lemma readTask_miss (taskId : string) (w : PromiseCache.World) :
  PromiseCache.cache w !! taskKey taskId = None ->
  readTask taskId w
  = (Host.Raise (Host.NotReady (length (PromiseCache.promises w))),
     PromiseCache.mkWorld
       (<[taskKey taskId := length (PromiseCache.promises w)]> (PromiseCache.cache w))
       (PromiseCache.promises w ++ [Pending])
       (PromiseCache.catchHandlers w
          ++ [(length (PromiseCache.promises w), taskKey taskId)])
       (PromiseCache.microtasks w)
       (S (PromiseCache.fetcherCalls w))).
Proof.
  intros H.
  unfold readTask, fetchTask, PromiseCache.cachedFetch, request. rewrite H. simpl.
  unfold PromiseCache.promiseCatch. simpl.
  assert (Hl : (PromiseCache.promises w ++ [Pending]) !! length (PromiseCache.promises w)
               = Some Pending).
  { rewrite lookup_app_r by lia. by rewrite Nat.sub_diag. }
  rewrite Hl. simpl. unfold Host.use. by rewrite Hl.
Qed.

(** X23.  A render of [TaskList], which calls [use] in a loop inside one
    component, starts at most one request: the loop ends at the first task
    that is not there yet.  So the tasks of a list are requested one after
    the other, one per render. *)
Theorem loop_render_starts_at_most_one_request
    (taskIds : list string) (w : PromiseCache.World) :
  PromiseCache.fetcherCalls (snd (TaskList taskIds w)) = PromiseCache.fetcherCalls w ∨
  (PromiseCache.fetcherCalls (snd (TaskList taskIds w))
   = S (PromiseCache.fetcherCalls w) ∧
   fst (TaskList taskIds w)
   = Raised (Host.NotReady (length (PromiseCache.promises w)))).
Proof.
  induction taskIds as [|id rest IH]; simpl; [by left|].
  destruct (PromiseCache.cache w !! taskKey id) as [p|] eqn:Hc.
  - rewrite (readTask_hit _ _ _ Hc).
    destruct (Host.use (PromiseCache.promises w) p) as [task|sig]; [|by left].
    destruct (TaskList rest w) as [[tasks|sig] w2]; simpl in *; [|exact IH].
    destruct IH as [IH|[_ IH]]; [by left|done].
  - rewrite (readTask_miss _ _ Hc). simpl. by right.
Qed.

(** X24.  One render pass of [TaskListContent], where every item has a
    [Suspense] of its own, starts the requests of all tasks at once: for a
    list of different ids that are not cached, it calls the producer once per
    id and every item suspends on its own promise.  A second pass starts no
    request. *)
Theorem parallel_pass_starts_every_request
    (taskIds : list string) (w : PromiseCache.World) :
  NoDup taskIds ->
  Forall (fun id => PromiseCache.cache w !! taskKey id = None) taskIds ->
  let n := length (PromiseCache.promises w) in
  let pass := TaskListContent taskIds w in
  fst pass = (fun i => Host.Raise (Host.NotReady (n + i))) <$> seq 0 (length taskIds) ∧
  PromiseCache.fetcherCalls (snd pass)
  = PromiseCache.fetcherCalls w + length taskIds ∧
  PromiseCache.promises (snd pass)
  = PromiseCache.promises w ++ replicate (length taskIds) Pending ∧
  fst (TaskListContent taskIds (snd pass)) = fst pass ∧
  PromiseCache.fetcherCalls (snd (TaskListContent taskIds (snd pass)))
  = PromiseCache.fetcherCalls (snd pass).
Proof.
  intros Hnd Hcold n pass. subst n pass.
  assert (Hfirst : ∀ ids w,
    NoDup ids ->
    Forall (fun id => PromiseCache.cache w !! taskKey id = None) ids ->
    fst (TaskListContent ids w)
    = (fun i => Host.Raise (Host.NotReady (length (PromiseCache.promises w) + i)))
        <$> seq 0 (length ids) ∧
    PromiseCache.fetcherCalls (snd (TaskListContent ids w))
    = PromiseCache.fetcherCalls w + length ids ∧
    PromiseCache.promises (snd (TaskListContent ids w))
    = PromiseCache.promises w ++ replicate (length ids) Pending ∧
    (∀ k, PromiseCache.cache (snd (TaskListContent ids w)) !! k
          = match list_find (fun id => taskKey id = k) ids with
            | Some (i, _) => Some (length (PromiseCache.promises w) + i)
            | None => PromiseCache.cache w !! k
            end)).
  { clear. intros ids. induction ids as [|id rest IH]; intros w Hnd Hcold.
    - simpl. rewrite app_nil_r, Nat.add_0_r. done.
    - apply NoDup_cons in Hnd as [Hnotin Hnd].
      apply Forall_cons in Hcold as [Hid Hrest].
      simpl. rewrite (readTask_miss _ _ Hid).
      set (w1 := PromiseCache.mkWorld _ _ _ _ _).
      assert (Hcold1 : Forall (fun id' => PromiseCache.cache w1 !! taskKey id' = None) rest).
      { apply Forall_forall. intros id' Hin. subst w1. simpl.
        rewrite lookup_insert_ne.
        - by eapply Forall_forall in Hrest.
        - intros Heq. apply taskKey_inj in Heq. by subst. }
      destruct (IH w1 Hnd Hcold1) as (Hr & Hcalls & Hps & Hcache).
      destruct (TaskListContent rest w1) as [rs w2]. simpl in *.
      rewrite length_app in *. simpl in *.
      split; [|split; [|split]].
      + rewrite Hr, Nat.add_0_r. f_equal.
        rewrite <- (fmap_S_seq 0), <- list_fmap_compose.
        apply list_fmap_ext. intros i x _. simpl. f_equal. f_equal. lia.
      + rewrite Hcalls. lia.
      + rewrite Hps, <- app_assoc. done.
      + intros k. rewrite Hcache.
        destruct (decide (taskKey id = k)) as [Hk|Hk]; simpl.
        * destruct (list_find _ rest) as [[i id']|] eqn:Hfind.
          { apply list_find_Some in Hfind as (Hl & Heq & _).
            rewrite <- Hk in Heq. apply taskKey_inj in Heq. subst id'.
            exfalso. apply Hnotin. by eapply list_elem_of_lookup_2. }
          simpl. subst k. rewrite lookup_insert_eq. f_equal. lia.
        * destruct (list_find _ rest) as [[i id']|] eqn:Hfind; simpl.
          { f_equal. lia. }
          by rewrite lookup_insert_ne. }
  assert (Hsecond : ∀ ids w,
    Forall (fun id => ∃ p, PromiseCache.cache w !! taskKey id = Some p) ids ->
    TaskListContent ids w
    = ((fun id => match PromiseCache.cache w !! taskKey id with
                  | Some p => Host.use (PromiseCache.promises w) p
                  | None => Host.Raise (Host.NotReady 0)
                  end) <$> ids, w)).
  { clear. intros ids w. induction ids as [|id rest IH]; intros Hall; [done|].
    apply Forall_cons in Hall as [[p Hp] Hrest]. simpl.
    rewrite (readTask_hit _ _ _ Hp), (IH Hrest). simpl. by rewrite Hp. }
  destruct (Hfirst taskIds w Hnd Hcold) as (Hr & Hcalls & Hps & Hcache).
  split; [done|]. split; [done|]. split; [done|].
  rewrite Hsecond.
  2:{ apply Forall_forall. intros id Hin. rewrite Hcache.
      destruct (list_find _ taskIds) as [[i id']|] eqn:Hfind; [by eexists|].
      exfalso. eapply list_find_None in Hfind.
      eapply Forall_forall in Hfind; [|exact Hin]. by apply Hfind. }
  simpl. split; [|done]. rewrite Hr.
  apply list_eq. intros i. rewrite !list_lookup_fmap.
  destruct (taskIds !! i) as [id|] eqn:Hi; simpl.
  - rewrite lookup_seq_lt by (by eapply lookup_lt_Some). simpl.
    rewrite Hcache.
    assert (Hfind : list_find (fun id' => taskKey id' = taskKey id) taskIds = Some (i, id)).
    { apply list_find_Some. split; [done|]. split; [done|].
      intros j y Hj Hlt Heq. apply taskKey_inj in Heq. subst y.
      pose proof (NoDup_lookup _ _ _ _ Hnd Hi Hj). lia. }
    rewrite Hfind. unfold Host.use. rewrite Hps.
    rewrite lookup_app_r by lia.
    replace (length (PromiseCache.promises w) + i - length (PromiseCache.promises w))
      with i by lia.
    rewrite lookup_replicate_2 by (by eapply lookup_lt_Some). done.
  - rewrite lookup_seq_ge; [done|]. by apply lookup_ge_None.
Qed.

Lemma parallel_pass_starts_every_request_witness :
  let w := PromiseCache.mkWorld ∅ [] [] [] 0 in
  NoDup ["1"; "2"; "3"] ∧
  PromiseCache.fetcherCalls (snd (TaskListContent ["1"; "2"; "3"] w)) = 3 ∧
  PromiseCache.fetcherCalls (snd (TaskList ["1"; "2"; "3"] w)) = 1.
Proof.
  intros w.
  assert (Hnd : NoDup ["1"; "2"; "3"])
    by (apply (bool_decide_unpack (NoDup ["1"; "2"; "3"])); vm_compute; exact I).
  assert (Hcold : Forall (fun id => PromiseCache.cache w !! taskKey id = None)
                         ["1"; "2"; "3"]) by (repeat constructor).
  destruct (parallel_pass_starts_every_request ["1"; "2"; "3"] w Hnd Hcold)
    as (_ & Hcalls & _).
  split; [exact Hnd|]. split; [exact Hcalls|reflexivity].
Defined.

End TaskListLoading.

(** ** A wrapped promise from its creation to its settlement *)
Section WrapRoundTrip.
Import SuspenseLib.

Lemma runJobs_other_targets (r : ResourceId) (jobs : list (Reaction * Settlement))
    (w : World) :
  Forall (fun job => target (fst job) ≠ r) jobs ->
  resources (runJobs jobs w) !! r = resources w !! r.
Proof.
  revert w. induction jobs as [|[rx o] jobs IH]; intros w Hjobs; [done|].
  apply Forall_cons in Hjobs as [Hj Hjobs]. simpl in *.
  rewrite (IH _ Hjobs). simpl. by rewrite list_lookup_alter_ne.
Qed.

Lemma runJobs_snoc (jobs : list (Reaction * Settlement)) (job : Reaction * Settlement)
    (w : World) :
  runJobs (jobs ++ [job]) w = runReaction job (runJobs jobs w).
Proof. unfold runJobs. by rewrite foldl_app. Qed.

Lemma reactionsOf_snoc (p : PromiseId) (rs : list (PromiseId * Reaction)) (rx : Reaction) :
  reactionsOf p (rs ++ [(p, rx)]) = reactionsOf p rs ++ [rx].
Proof.
  unfold reactionsOf. rewrite filter_app, fmap_app. f_equal.
  rewrite filter_cons_True by done. done.
Qed.

Lemma runJobs_queues (jobs : list (Reaction * Settlement)) (w : World) :
  reactions (runJobs jobs w) = reactions w ∧
  microtasks (runJobs jobs w) = microtasks w.
Proof.
  revert w. induction jobs as [|job jobs IH]; intros w; [done|].
  simpl. destruct (IH (runReaction job w)) as [-> ->]. by destruct job.
Qed.

(** X25.  The reader that [wrapPromise] returns on a cache miss follows its
    promise.  While the promise is pending the reader throws that promise;
    once the promise has settled and its continuations have run, the reader
    returns the value or throws the error.  With a cache key, the settled
    resource is then the cache entry of that key, and a read of the key in
    that state gives the same outcome without changing the module's state.
    When no operation of the key is waiting on another promise, no other
    operation of the key is in flight after the settlement, and then every
    later read of the key gives that outcome and changes nothing, after any
    events that do not invalidate the key. *)
Theorem wrapped_reader_follows_its_promise
    (p : PromiseId) (ck : option string) (o : Settlement) (w : World) :
  consistent w ->
  promises w !! p = Some Pending ->
  truthyKey ck ≫= (fun k => cache w !! k) = None ->
  let r := length (resources w) in
  let w1 := snd (wrapPromise p ck w) in
  let w2 := settlement p o w1 in
  let settled :=
    match o with
    | FulfilWith v => Return (Some v)
    | RejectWith e => Raise (ThrownError e)
    end in
  fst (wrapPromise p ck w) = Return (ResourceReader r) ∧
  callReader (ResourceReader r) w1 = Raise (ThrownPromise p) ∧
  callReader (ResourceReader r) w2 = settled ∧
  (∀ k q, truthyKey ck = Some k ->
          cache w2 !! k = Some r ∧ readThrough q ck w2 = (settled, w2)) ∧
  (∀ k, truthyKey ck = Some k ->
        (∀ p', p' ≠ p -> keyedReactions k p' w = []) ->
        quiet k r w2 ∧
        ∀ evs q, Forall (keeps k) evs ->
                 readThrough q ck (run evs w2) = (settled, run evs w2)).
Proof.
  intros (Hwf & Hrs & Hms & Hcache) Hp Hmiss r w1 w2 settled.
  set (res0 := mkResource pending None None (Some p)).
  assert (Hw1 : wrapPromise p ck w
    = (Return (ResourceReader r),
       {| cache := cache w; resources := resources w ++ [res0];
          promises := promises w;
          reactions := reactions w ++ [(p, mkReaction r ck)];
          microtasks := microtasks w |})).
  { unfold wrapPromise. rewrite Hmiss. simpl. unfold promiseThen. simpl.
    by rewrite Hp. }
  subst w1. rewrite Hw1. simpl.
  assert (Hres1 : (resources w ++ [res0]) !! r = Some res0).
  { subst r. rewrite lookup_app_r by lia. by rewrite Nat.sub_diag. }
  set (old := microtasks w ++ ((fun rx => (rx, o)) <$> reactionsOf p (reactions w))).
  assert (Hold : Forall (fun job : Reaction * Settlement => target (fst job) ≠ r) old).
  { subst old. apply Forall_app. split.
    - eapply Forall_impl; [exact Hms|]. intros job Hjob. simpl in *. subst r. lia.
    - apply Forall_fmap. unfold reactionsOf. apply Forall_fmap.
      apply Forall_filter_keep.
      eapply Forall_impl; [exact Hrs|]. intros [q rx] Hrx. simpl in *. subst r. lia. }
  assert (Hw2 : w2 = runReaction (mkReaction r ck, o)
                       (runJobs old
                          {| cache := cache w; resources := resources w ++ [res0];
                             promises := <[p := settledState o]> (promises w);
                             reactions :=
                               filter (fun rx => fst rx ≠ p)
                                      (reactions w ++ [(p, mkReaction r ck)]);
                             microtasks := [] |})).
  { subst w2. rewrite Hw1. unfold settlement, runMicrotasks, settle. simpl.
    rewrite Hp. simpl. rewrite reactionsOf_snoc, fmap_app, app_assoc. simpl.
    by rewrite runJobs_snoc. }
  set (w' := runJobs old _) in Hw2.
  assert (Hres' : resources w' !! r = Some res0).
  { subst w'. by rewrite (runJobs_other_targets r old _ Hold). }
  assert (Hres2 : resources w2 !! r = Some (settleResource o res0)).
  { rewrite Hw2. simpl. rewrite list_lookup_alter_eq, Hres'. done. }
  assert (Hck : ∀ k, truthyKey ck = Some k -> cache w2 !! k = Some r).
  { intros k Hk. rewrite Hw2. simpl. rewrite Hk. apply lookup_insert_eq. }
  split; [done|]. split; [by rewrite Hres1|]. split; [|split].
  - rewrite Hres2. by destruct o.
  - intros k q Hk. split; [by apply Hck|].
    pose proof (Hck k Hk) as Hc.
    apply truthyKey_inv in Hk as [-> Hne].
    destruct o as [v|e]; subst settled.
    + by apply (readThrough_fulfilled k r (settleResource (FulfilWith v) res0)).
    + by apply (readThrough_rejected k r (settleResource (RejectWith e) res0)).
  - intros k Hk Hothers.
    assert (Hquiet : quiet k r w2).
    { rewrite Hw2. unfold quiet. simpl. subst w'.
      destruct (runJobs_queues old
        {| cache := cache w; resources := resources w ++ [res0];
           promises := <[p := settledState o]> (promises w);
           reactions :=
             filter (fun rx => fst rx ≠ p) (reactions w ++ [(p, mkReaction r ck)]);
           microtasks := [] |}) as [-> ->].
      simpl. split; [|by apply Forall_nil].
      rewrite filter_app, (filter_cons_False _ (p, mkReaction r ck)), app_nil_r
        by (simpl; tauto).
      apply Forall_forall. intros [p' rx] Hin.
      apply list_elem_of_filter in Hin as [Hp' Hin]. simpl in Hp'.
      split; simpl.
      - intros Hkey.
        assert (Hrx : rx ∈ keyedReactions k p' w).
        { unfold keyedReactions, reactionsOf.
          apply list_elem_of_filter. split; [done|].
          apply list_elem_of_fmap. exists (p', rx). split; [done|].
          by apply list_elem_of_filter. }
        rewrite (Hothers p' Hp') in Hrx. by apply elem_of_nil in Hrx.
      - rewrite Forall_forall in Hrs. specialize (Hrs _ Hin). simpl in Hrs.
        subst r. lia. }
    split; [exact Hquiet|]. intros evs q Hevs.
    destruct (run_keeps_quiet_entry k r (settleResource o res0) evs w2
                Hevs (Hck k Hk) Hres2 Hquiet) as (Hc' & Hr' & _).
    apply truthyKey_inv in Hk as [-> Hne].
    destruct o as [v|e]; subst settled.
    + by apply (readThrough_fulfilled k r (settleResource (FulfilWith v) res0)).
    + by apply (readThrough_rejected k r (settleResource (RejectWith e) res0)).
Qed.

Lemma wrapped_reader_follows_its_promise_witness :
  let w := run [ENewPromise Pending] emptyWorld in
  let w1 := snd (wrapPromise 0 (Some "project") w) in
  let w2 := settlement 0 (FulfilWith 5) w1 in
  consistent w ∧
  promises w !! 0 = Some Pending ∧
  callReader (ResourceReader 0) w1 = Raise (ThrownPromise 0) ∧
  callReader (ResourceReader 0) w2 = Return (Some 5) ∧
  readThrough 1 (Some "project") w2 = (Return (Some 5), w2) ∧
  (let later := run [ENewPromise Pending; EWrap 1 (Some "tasks");
                     ESettle 1 (FulfilWith 6)] w2 in
   readThrough 2 (Some "project") later = (Return (Some 5), later)).
Proof.
  intros w w1 w2.
  assert (Hw : consistent w) by (apply run_consistent, consistent_empty).
  destruct (wrapped_reader_follows_its_promise 0 (Some "project") (FulfilWith 5) w
              Hw eq_refl eq_refl) as (_ & Hpending & Hsettled & Hkey & Hlater).
  split; [exact Hw|]. split; [reflexivity|].
  split; [exact Hpending|]. split; [exact Hsettled|].
  split; [exact (proj2 (Hkey "project" 1 eq_refl))|].
  apply (proj2 (Hlater "project" eq_refl ltac:(by intros p' _))).
  repeat (apply Forall_cons; split; [exact I|]). by apply Forall_nil.
Defined.

End WrapRoundTrip.

(** ** Which errors are logged *)
Section ErrorLogging.
Import AppErrors ErrorLog.

(** X26.  For an error whose message is a string, [logError] reports
    nothing exactly when the message contains one of the two ignored phrases
    somewhere, also as part of a longer message.  Every other such error goes
    to the console once, with its context when there is one, and to Sentry
    and the analytics only outside development; and the boundary's [onError]
    callback is called for every such caught error, ignored or not.  For a
    caught value without a string message ([throw 'oops'], [throw null])
    [shouldIgnore] throws a [TypeError]: [logError] reports nothing and throws,
    and [componentDidCatch] throws before it reaches [onError]. *)
Theorem logError_drops_exactly_the_ignored_phrases
    (dev hasContext hasOnError : bool) (message : string) :
  (logError dev hasContext (WithMessage message) = ([], Normal tt) ↔
   ∃ phrase pre post, phrase ∈ ignoredErrors ∧ message = pre +:+ phrase +:+ post) ∧
  (logError dev hasContext (WithMessage message) = ([], Normal tt) ∨
   logError dev hasContext (WithMessage message)
   = (ConsoleError :: (if hasContext then [ConsoleContext] else [])
        ++ (if dev then [] else [Sentry; Analytics]), Normal tt)) ∧
  snd (componentDidCatch dev hasOnError (WithMessage message)) = Normal tt ∧
  (OnError ∈ fst (componentDidCatch dev hasOnError (WithMessage message))
   ↔ hasOnError = true) ∧
  shouldIgnore WithoutMessage = Throw TypeError ∧
  logError dev hasContext WithoutMessage = ([], Throw TypeError) ∧
  componentDidCatch dev hasOnError WithoutMessage = ([], Throw TypeError).
Proof.
  set (ignored := existsb (fun msg => includes msg message) ignoredErrors).
  assert (Hign : ignored = true ↔
    ∃ phrase pre post, phrase ∈ ignoredErrors ∧ message = pre +:+ phrase +:+ post).
  { unfold ignored. rewrite existsb_exists. split.
    - intros (phrase & Hin & Hinc). apply includes_iff in Hinc as (pre & post & ->).
      exists phrase, pre, post. split; [|done]. by apply list_elem_of_In.
    - intros (phrase & pre & post & Hin & ->). exists phrase.
      split; [by apply list_elem_of_In|]. apply includes_iff. by exists pre, post. }
  assert (Hlog : logError dev hasContext (WithMessage message)
                 = if ignored then ([], Normal tt) else (log dev hasContext, Normal tt)).
  { unfold logError, shouldIgnore. fold ignored. by destruct ignored. }
  assert (Hcatch : componentDidCatch dev hasOnError (WithMessage message)
                   = ((if ignored then [] else log dev true)
                        ++ (if hasOnError then [OnError] else []), Normal tt)).
  { unfold componentDidCatch, logError, shouldIgnore. fold ignored.
    by destruct ignored. }
  rewrite Hlog, Hcatch.
  split; [|split; [|split; [|split]]].
  - destruct ignored.
    + split; [intros _; by apply Hign|done].
    + split; [|intros H; apply Hign in H; done].
      unfold log. intros H. discriminate H.
  - destruct ignored; [by left|by right].
  - done.
  - unfold log. simpl.
    destruct ignored, dev, hasOnError; simpl;
      rewrite ?elem_of_cons, ?elem_of_nil; intuition congruence.
  - done.
Qed.

End ErrorLogging.

(** ** Failed requests do not stay in the cache of [cachedFetch] *)
Section RejectedEntries.
Import CachedTasksApi CacheHistory.

Lemma watched_empty : watched emptyWorld.
Proof. intros k p H. done. Qed.

Lemma cachedFetch_watched (key : string) (f : Fetcher) (w : PromiseCache.World) :
  watched w -> watched (snd (PromiseCache.cachedFetch key f w)).
Proof.
  intros Hw. unfold PromiseCache.cachedFetch.
  destruct (PromiseCache.cache w !! key) as [p0|] eqn:Hc; [done|].
  destruct f as [s|e]; simpl; [|done].
  unfold PromiseCache.promiseCatch. simpl.
  assert (Hnew : (PromiseCache.promises w ++ [s]) !! length (PromiseCache.promises w)
                 = Some s).
  { rewrite lookup_app_r by lia. by rewrite Nat.sub_diag. }
  rewrite Hnew.
  assert (Hgen : ∀ hs ms,
    (∀ h, h ∈ PromiseCache.catchHandlers w -> h ∈ hs) ->
    (∀ m, m ∈ PromiseCache.microtasks w -> m ∈ ms) ->
    (s = Pending -> (length (PromiseCache.promises w), key) ∈ hs) ->
    (∀ e, s = Rejected e -> key ∈ ms) ->
    watched (PromiseCache.mkWorld
               (<[key := length (PromiseCache.promises w)]> (PromiseCache.cache w))
               (PromiseCache.promises w ++ [s]) hs ms
               (S (PromiseCache.fetcherCalls w)))).
  { intros hs ms Hhs Hms Hpend Hrej k p. simpl. rewrite length_app. simpl.
    destruct (decide (k = key)) as [->|Hne].
    - rewrite lookup_insert_eq. intros [= <-]. rewrite Hnew.
      split; [lia|]. split.
      + intros e [= ->]. by eapply Hrej.
      + intros [= ->]. by apply Hpend.
    - rewrite lookup_insert_ne by done. intros Hk.
      destruct (Hw k p Hk) as (Hlt & Hr & Hp).
      rewrite lookup_app_l by done.
      split; [lia|]. split.
      + intros e He. apply Hms. by eapply Hr.
      + intros Hpe. apply Hhs. by apply Hp. }
  destruct s as [|v|e]; simpl; apply Hgen; try done.
  - intros h Hh. apply elem_of_app. by left.
  - intros _. apply elem_of_app. right. by apply list_elem_of_singleton.
  - intros m Hm. apply elem_of_app. by left.
  - intros e' _. apply elem_of_app. right. by apply list_elem_of_singleton.
Qed.

Lemma settle_watched (q : PromiseId) (o : Settlement) (w : PromiseCache.World) :
  watched w -> watched (PromiseCache.settle q o w).
Proof.
  intros Hw. unfold PromiseCache.settle.
  destruct (PromiseCache.promises w !! q) as [[|v|e]|] eqn:Hq; try done.
  intros k p Hk. simpl in *. destruct (Hw k p Hk) as (Hlt & Hr & Hp).
  rewrite length_insert. split; [done|].
  destruct (decide (p = q)) as [->|Hne].
  - rewrite list_lookup_insert_eq by done.
    split.
    + intros e He. apply elem_of_app. right.
      destruct o as [v|e']; [done|]. unfold PromiseCache.handlersOf.
      apply list_elem_of_fmap. exists (q, k). split; [done|].
      apply list_elem_of_filter. split; [done|]. by apply Hp.
    + by destruct o.
  - rewrite list_lookup_insert_ne by done. split.
    + intros e He. apply elem_of_app. left. by eapply Hr.
    + intros Hpe. apply list_elem_of_filter. split; [done|]. by apply Hp.
Qed.

Lemma runMicrotasks_watched (w : PromiseCache.World) :
  watched w -> watched (PromiseCache.runMicrotasks w).
Proof.
  intros Hw k p. unfold PromiseCache.runMicrotasks. simpl.
  rewrite foldl_delete_lookup. case_decide as Hin; [done|].
  intros Hk. destruct (Hw k p Hk) as (Hlt & Hr & Hp).
  split; [done|]. split; [|done].
  intros e He. exfalso. apply Hin. by eapply Hr.
Qed.

Lemma step_watched (ev : Event) (w : PromiseCache.World) :
  watched w -> watched (step ev w).
Proof.
  intros Hw. destruct ev as [key f|q o| |key|]; simpl.
  - by apply cachedFetch_watched.
  - by apply settle_watched.
  - by apply runMicrotasks_watched.
  - intros k p. simpl. intros Hk.
    apply lookup_delete_Some in Hk as [_ Hk]. by apply Hw.
  - intros k p. simpl. by rewrite lookup_empty.
Qed.

Lemma run_watched (evs : list Event) (w : PromiseCache.World) :
  watched w -> watched (run evs w).
Proof.
  revert w. induction evs as [|ev evs IH]; intros w Hw; [done|].
  simpl. apply IH. by apply step_watched.
Qed.

(** X27.  The cache of [cachedFetch] does not keep a failed request.  After
    any history of [cachedFetch] calls, settlements, [invalidateCache] and
    [clearCache], once the promise continuations have run, no key of the cache
    holds a rejected promise, because the [catch] continuation of
    [cachedFetch] has removed it.  So [fetchTask] never returns a rejected
    promise then: it returns the cached promise, pending or fulfilled, or,
    when the key has no entry (as after a failure), it calls the producer once
    more and returns the new pending promise. *)
Theorem fetchTask_never_returns_a_rejected_promise (evs : list Event) (taskId : string) :
  let w := run evs emptyWorld in
  PromiseCache.microtasks w = [] ->
  (∀ k p e, PromiseCache.cache w !! k = Some p ->
            PromiseCache.promises w !! p ≠ Some (Rejected e)) ∧
  (∃ p, fst (fetchTask taskId w) = Normal p ∧
        (PromiseCache.promises (snd (fetchTask taskId w)) !! p = Some Pending ∨
         ∃ v, PromiseCache.promises (snd (fetchTask taskId w)) !! p
              = Some (Fulfilled v))) ∧
  (∀ p, PromiseCache.cache w !! taskKey taskId = Some p ->
        fetchTask taskId w = (Normal p, w)) ∧
  (PromiseCache.cache w !! taskKey taskId = None ->
   fst (fetchTask taskId w) = Normal (length (PromiseCache.promises w)) ∧
   PromiseCache.promises (snd (fetchTask taskId w))
     !! length (PromiseCache.promises w) = Some Pending ∧
   PromiseCache.cache (snd (fetchTask taskId w)) !! taskKey taskId
   = Some (length (PromiseCache.promises w)) ∧
   PromiseCache.fetcherCalls (snd (fetchTask taskId w))
   = S (PromiseCache.fetcherCalls w)).
Proof.
  intros w Hquiet.
  assert (Hw : watched w) by apply run_watched, watched_empty.
  assert (Hnorej : ∀ k p e, PromiseCache.cache w !! k = Some p ->
                            PromiseCache.promises w !! p ≠ Some (Rejected e)).
  { intros k p e Hk He. destruct (Hw k p Hk) as (_ & Hr & _).
    specialize (Hr e He). rewrite Hquiet in Hr. by apply elem_of_nil in Hr. }
  assert (Hhit : ∀ p, PromiseCache.cache w !! taskKey taskId = Some p ->
                      fetchTask taskId w = (Normal p, w)).
  { intros p Hc. unfold fetchTask, PromiseCache.cachedFetch. by rewrite Hc. }
  assert (Hmiss : PromiseCache.cache w !! taskKey taskId = None ->
    fst (fetchTask taskId w) = Normal (length (PromiseCache.promises w)) ∧
    PromiseCache.promises (snd (fetchTask taskId w))
      !! length (PromiseCache.promises w) = Some Pending ∧
    PromiseCache.cache (snd (fetchTask taskId w)) !! taskKey taskId
    = Some (length (PromiseCache.promises w)) ∧
    PromiseCache.fetcherCalls (snd (fetchTask taskId w))
    = S (PromiseCache.fetcherCalls w)).
  { intros Hc.
    assert (Hl : (PromiseCache.promises w ++ [Pending]) !! length (PromiseCache.promises w)
                 = Some Pending).
    { rewrite lookup_app_r by lia. by rewrite Nat.sub_diag. }
    unfold fetchTask, PromiseCache.cachedFetch, request. rewrite Hc.
    simpl. unfold PromiseCache.promiseCatch. simpl. rewrite Hl. simpl.
    split; [done|]. split; [done|]. split; [|done]. apply lookup_insert_eq. }
  split; [exact Hnorej|]. split; [|split; [exact Hhit|exact Hmiss]].
  destruct (PromiseCache.cache w !! taskKey taskId) as [p|] eqn:Hc.
  - exists p. rewrite (Hhit p eq_refl). simpl. split; [done|].
    destruct (Hw _ _ Hc) as (Hlt & _ & _).
    destruct (lookup_lt_is_Some_2 _ _ Hlt) as [[|v|e] Hp].
    + by left.
    + right. by exists v.
    + by destruct (Hnorej _ _ e Hc).
  - destruct (Hmiss eq_refl) as (Hfst & Hnew & _).
    exists (length (PromiseCache.promises w)). split; [done|by left].
Qed.

Lemma fetchTask_never_returns_a_rejected_promise_witness :
  let evs := [ECachedFetch (taskKey "7") request; ESettle 0 (RejectWith "offline");
              ERunMicrotasks] in
  let w := run evs emptyWorld in
  PromiseCache.microtasks w = [] ∧
  PromiseCache.promises w = [Rejected "offline"] ∧
  PromiseCache.cache w !! taskKey "7" = None ∧
  fst (fetchTask "7" w) = Normal 1 ∧
  PromiseCache.promises (snd (fetchTask "7" w)) !! 1 = Some Pending ∧
  PromiseCache.fetcherCalls (snd (fetchTask "7" w)) = 2.
Proof.
  intros evs w.
  destruct (fetchTask_never_returns_a_rejected_promise evs "7" eq_refl)
    as (_ & _ & _ & Hmiss).
  destruct (Hmiss eq_refl) as (Hfst & Hnew & _ & Hcalls).
  split; [reflexivity|]. split; [reflexivity|]. split; [reflexivity|].
  split; [exact Hfst|]. split; [exact Hnew|exact Hcalls].
Defined.

End RejectedEntries.

(** ** Reads through [wrapPromise] without a cache key *)
Section UnkeyedReads.
Import SuspenseLib.

Lemma readThrough_unkeyed (p : PromiseId) (ck : option string) (w : World) :
  truthyKey ck = None ->
  fst (readThrough p ck w) = Raise (ThrownPromise p) ∧
  cache (snd (readThrough p ck w)) = cache w ∧
  length (resources (snd (readThrough p ck w))) = S (length (resources w)).
Proof.
  intros Hk. unfold readThrough, wrapPromise. rewrite Hk. simpl.
  assert (Hres : (resources w ++ [mkResource pending None None (Some p)])
                   !! length (resources w)
                 = Some (mkResource pending None None (Some p))).
  { rewrite lookup_app_r by lia. by rewrite Nat.sub_diag. }
  unfold promiseThen. simpl.
  destruct (promises w !! p) as [[|v|e]|]; simpl; rewrite Hres, length_app; simpl;
    (split; [done|]); split; try done; lia.
Qed.

(** X28.  A read through [wrapPromise] without a cache key (no key, or the
    empty string), as [suspenseAll] makes it, never returns a value: however
    often the component renders, and whether or not the promises it passes
    have settled, every read creates a new pending resource and throws the
    promise.  The cache is never touched. *)
Theorem unkeyed_reads_always_suspend
    (ps : list PromiseId) (ck : option string) (w : World) :
  truthyKey ck = None ->
  fst (renders ps ck w) = (fun p => Raise (ThrownPromise p)) <$> ps ∧
  cache (snd (renders ps ck w)) = cache w ∧
  length (resources (snd (renders ps ck w))) = length (resources w) + length ps.
Proof.
  intros Hk. revert w. induction ps as [|p ps IH]; intros w; simpl.
  - split; [done|]. split; [done|lia].
  - destruct (readThrough_unkeyed p ck w Hk) as (Ho & Hc & Hl).
    destruct (readThrough p ck w) as [o w1]. simpl in *.
    destruct (IH w1) as (Hos & Hcs & Hls).
    destruct (renders ps ck w1) as [os w2]. simpl in *.
    rewrite Ho, Hos, Hcs, Hc, Hls, Hl. split; [done|]. split; [done|lia].
Qed.

Lemma unkeyed_reads_always_suspend_witness :
  let w := run [ENewPromise (Fulfilled 3)] emptyWorld in
  truthyKey (Some "") = None ∧
  promises w !! 0 = Some (Fulfilled 3) ∧
  fst (renders [0; 0; 0] (Some "") w)
  = [Raise (ThrownPromise 0); Raise (ThrownPromise 0); Raise (ThrownPromise 0)].
Proof.
  intros w. split; [reflexivity|]. split; [reflexivity|].
  exact (proj1 (unkeyed_reads_always_suspend [0; 0; 0] (Some "") w eq_refl)).
Defined.

End UnkeyedReads.
